(** * rx: the tree-to-instruction compiler of the rendering engine

    A shallow embedding of [render.go] (node tree, entity tree, serializer,
    instruction buffer) and of the render cycle of [engine.go], followed by
    the properties of the specification that are settled on it.

    Conventions of the embedding:
    - [Entity] is Go's [uint32]: a [Z] kept in range by [uint32];
    - slice indices and spans ([int] values that the code never makes
      negative) are [nat]; [locate] keeps its [-1] and is a [Z];
    - a [*Node] is an index into the node pool ([GetNode] hands out
      [npool.nodes] slots in order), [None] is the nil pointer;
    - a Go panic is the [Panic] outcome; recursion over the pointer graph is
      driven by fuel, and [OutOfFuel] is kept apart from every panic. *)

From Stdlib Require Import ZArith Lia List String Ascii DecimalString.
From Stdlib Require DecimalPos DecimalN Sorted.
From stdpp Require Import base option list strings gmap.

Local Open Scope string_scope.
Local Open Scope list_scope.
Local Open Scope nat_scope.

(** ** Outcomes *)

(** The panics of the package, one constructor per message. *)
Inductive panic : Type :=
| CycleDetected          (* panic("cycle detected") *)
| EmptyTagName           (* panic("empty tag name") *)
| NilChild               (* assert(c != nil, "nil child in node: %v", n) *)
| TooManyEntities        (* assert(nt < 10240, "cannot store more than 10240 ...") *)
| ReusingInvalidEntity   (* assert(start != -1, "reusing invalid entity %d", from) *)
| EntityDoesNotExist     (* assert(i != -1, "entity %d does not exist ...") *)
| NilDereference         (* runtime: nil pointer dereference *)
| IndexOutOfRange        (* runtime: index out of range *)
| SliceOutOfRange.       (* runtime: slice bounds out of range *)

Inductive outcome (A : Type) : Type :=
| Ok (a : A)
| Panic (e : panic)
| OutOfFuel.

Arguments Ok {A} a.
Arguments Panic {A} e.
Arguments OutOfFuel {A}.

Definition bind {A B : Type} (m : outcome A) (k : A -> outcome B) : outcome B :=
  match m with
  | Ok a => k a
  | Panic e => Panic e
  | OutOfFuel => OutOfFuel
  end.

Notation "'do' x <~ m ; k" := (bind m (fun x => k))
  (at level 10, x pattern, m at level 100, k at level 200,
   format "'[v' 'do'  x  <~  m ; '/' k ']'").

(** [for _, c := range cs { s = f(c, s) }] with panics propagated. *)
Fixpoint foldM {A St : Type} (f : A -> St -> outcome St) (cs : list A) (s : St)
  : outcome St :=
  match cs with
  | [] => Ok s
  | c :: cs' => do s' <~ f c s ; foldM f cs' s'
  end.

(** [assert(pred, msg)] of assert.go. *)
Definition assert (pred : bool) (e : panic) : outcome unit :=
  if pred then Ok tt else Panic e.

(** ** Entities and the counter (engine.go) *)

Definition Entity := Z.

Definition uint32 (z : Z) : Z := (z mod 2 ^ 32)%Z.
Definition uint16 (z : Z) : Z := (z mod 2 ^ 16)%Z.

Definition Counter := Entity.

(** [Counter.Inc] adds 2 to the counter in place and returns its new value:
    here, the new counter and the entity returned. *)
Definition Inc (c : Counter) : Counter * Entity :=
  let c' := uint32 (c + 2) in (c', c').

(** ** Intent types and handler sets (engine.go, render.go) *)

Definition IntentType := nat.

Definition NoIntent : IntentType := 0.
Definition Click : IntentType := 1.
Definition DoubleClick : IntentType := 2.
Definition DragStart : IntentType := 3.
Definition DragOver : IntentType := 4.
Definition DragEnd : IntentType := 5.
Definition Drop : IntentType := 6.
Definition EscPress : IntentType := 7.
Definition Scroll : IntentType := 8.
Definition Filter : IntentType := 9.
Definition Change : IntentType := 10.
Definition Blur : IntentType := 11.
Definition ChangeView : IntentType := 12.
Definition ManifestChange : IntentType := 13.
Definition ShowDebugMenu : IntentType := 14.
Definition CellSizeChange : IntentType := 15.
Definition Submit : IntentType := 16.
Definition Seppuku : IntentType := 17.

Section Handlers.
(** The type of the functions stored in a handler set
    ([func(Context) Context] in the source). *)
Context {H : Type}.

(** [type intentHandler [Seppuku]func(Context) Context]; [None] is nil. *)
Definition intentHandler := list (option H).

Definition noHandlers : intentHandler := replicate Seppuku None.

(** [func (i *intentHandler) Some() bool] *)
Definition hdl_Some (i : intentHandler) : bool :=
  existsb (fun h => match h with Some _ => true | None => false end) i.

(** ** The entity tree (render.go, second part) *)

Record prenode : Type := mkPrenode {
  ntt : Entity;
  scp : nat;
  phdl : intentHandler
}.

Definition set_ntt (nt : Entity) (r : prenode) : prenode :=
  mkPrenode nt (scp r) (phdl r).
Definition set_scp (n : nat) (r : prenode) : prenode :=
  mkPrenode (ntt r) n (phdl r).
Definition set_phdl (h : intentHandler) (r : prenode) : prenode :=
  mkPrenode (ntt r) (scp r) h.

Record etree : Type := mkEtree {
  g0 : list prenode;
  g1 : list prenode
}.

(** [ngen]: [t.g1, t.g0 = t.g0, t.g1[:0]]. *)
Definition ngen (t : etree) : etree := mkEtree [] (g0 t).

(** [add]: the tree and the index of the new record. *)
Definition add (t : etree) (nt : Entity) : outcome (etree * nat) :=
  do _ <~ assert (nt <? 10240)%Z TooManyEntities ;
  Ok (mkEtree (g0 t ++ [mkPrenode nt 0 noHandlers]) (g1 t), length (g0 t)).

(** [addHandler]: [t.g0[len(t.g0)-1].hdl = hdl]. *)
Definition addHandler (t : etree) (hdl : intentHandler) : outcome etree :=
  match length (g0 t) with
  | 0 => Panic IndexOutOfRange
  | S last => Ok (mkEtree (alter (set_phdl hdl) last (g0 t)) (g1 t))
  end.

(** [closeScope]: [t.g0[of].scp = len(t.g0) - of]. *)
Definition closeScope (t : etree) (of_ : nat) : outcome etree :=
  if of_ <? length (g0 t)
  then Ok (mkEtree (alter (set_scp (length (g0 t) - of_)) of_ (g0 t)) (g1 t))
  else Panic IndexOutOfRange.

(** [locate]: the first index of [nt] in the previous generation, or -1. *)
Fixpoint locate_from (g : list prenode) (nt : Entity) (i : Z) : Z :=
  match g with
  | [] => (-1)%Z
  | r :: g' => if (ntt r =? nt)%Z then i else locate_from g' nt (i + 1)%Z
  end.

Definition locate (t : etree) (nt : Entity) : Z := locate_from (g1 t) nt 0%Z.

(** [children]: [t.g1[i : i+t.g1[i].scp]], nil when [nt] is absent.
    The model keeps no spare capacity behind a slice, so a span that
    reaches past the end is the slice-bounds panic. *)
Definition children (t : etree) (nt : Entity) : outcome (list prenode) :=
  let i := locate t nt in
  if (i =? -1)%Z then Ok []
  else
    match g1 t !! Z.to_nat i with
    | None => Panic IndexOutOfRange
    | Some r =>
        if Z.to_nat i + scp r <=? length (g1 t)
        then Ok (take (scp r) (drop (Z.to_nat i) (g1 t)))
        else Panic SliceOutOfRange
    end.

(** The loop of [reuse] over the appended records [t.g0[start:]], from
    index [i] on. The callback [it] acts on the state [St] that its closure
    captures. *)
Fixpoint reuse_loop {St : Type} (it : Entity -> Entity -> St -> St)
    (to : Entity) (i : nat) (rs : list prenode) (c : Counter) (s : St)
  : list prenode * Counter * St :=
  match rs with
  | [] => ([], c, s)
  | r :: rs' =>
      let '(c1, nt) := if i =? 0 then (c, to) else Inc c in
      let s1 := if (nt =? ntt r)%Z then s else it (ntt r) nt s in
      let '(rs'', c2, s2) := reuse_loop it to (S i) rs' c1 s1 in
      (set_ntt nt r :: rs'', c2, s2)
  end.

(** [reuse]: carry the subtree of [from] into the current generation. *)
Definition reuse {St : Type} (t : etree) (from to : Entity) (c : Counter)
    (it : Entity -> Entity -> St -> St) (s : St)
  : outcome (etree * Counter * St) :=
  let start := Z.of_nat (length (g0 t)) in
  do _ <~ assert (negb (start =? -1)%Z) ReusingInvalidEntity ;
  do sub <~ children t from ;
  let '(sub', c', s') := reuse_loop it to 0 sub c s in
  Ok (mkEtree (g0 t ++ sub') (g1 t), c', s').

(** [parents]: the records of the previous generation whose span encloses
    the entity, innermost first. The loop runs [j] from [i] down to 0. *)
Fixpoint parents_loop (g : list prenode) (i : nat) (j : nat) : list prenode :=
  let here :=
    match g !! j with
    | Some r => if i <? scp r + j then [r] else []
    | None => []
    end in
  match j with
  | 0 => here
  | S j' => here ++ parents_loop g i j'
  end.

Definition parents (t : etree) (nt : Entity) : outcome (list prenode) :=
  let i := locate t nt in
  do _ <~ assert (negb (i =? -1)%Z) EntityDoesNotExist ;
  Ok (parents_loop (g1 t) (Z.to_nat i) (Z.to_nat i)).

End Handlers.

Arguments intentHandler : clear implicits.
Arguments prenode : clear implicits.
Arguments etree : clear implicits.

(** ** The instruction buffer (render.go) *)

Definition OpType := Z.

Definition OpTerm : OpType := 0%Z.
Definition OpCreateElement : OpType := 1%Z.
Definition OpSetClass : OpType := 2%Z.
Definition OpSetID : OpType := 3%Z.
Definition OpSetAttr : OpType := 4%Z.
Definition OpAddText : OpType := 5%Z.
Definition OpReuse : OpType := 6%Z.
Definition OpReID : OpType := 7%Z.
Definition OpNext : OpType := 8%Z.

(** [type XAS []byte]: each element is a byte, [0 <= b < 256]. *)
Definition XAS := list Z.

(** The bytes of a Go string, and [len(s)]. *)
Definition bytes_of (s : string) : list Z :=
  map (fun a => Z.of_N (N_of_ascii a)) (list_ascii_of_string s).

Definition len (s : string) : Z := Z.of_nat (String.length s).

(** [binary.BigEndian.AppendUint16] on a value already cut to 16 bits. *)
Definition AppendUint16 (vm : XAS) (v : Z) : XAS :=
  vm ++ [Z.shiftr v 8; Z.land v 255].

(** The loop of [AddInstr] over the operands. *)
Fixpoint AddInstr_vals (vm : XAS) (val : list string) : XAS :=
  match val with
  | [] => vm
  | v :: val' =>
      AddInstr_vals (AppendUint16 vm (uint16 (len v)) ++ bytes_of v) val'
  end.

Definition AddInstr (vm : XAS) (code : Z) (val : list string) : XAS :=
  AddInstr_vals (vm ++ [code]) val.

(** [strconv.FormatUint(uint64(e), 10)] *)
Definition FormatUint (e : Entity) : string :=
  NilZero.string_of_uint (N.to_uint (Z.to_N e)).

(** ** Nodes and the node pool (render.go) *)

Record Attr : Type := mkAttr { Name : string; Value : string }.

Section Nodes.
Context {H : Type}.

(** [Node]; the embedded [Entity] field is [NEntity]. A child is a pool
    index or nil. *)
Record Node : Type := mkNode {
  NEntity : Entity;
  TagName : string;
  Classes : string;
  Text : string;
  Focused : bool;
  Children : list (option nat);
  Attrs : list Attr;
  visited : bool;
  old : Entity;
  hdl : intentHandler H
}.

Definition set_Entity (e : Entity) (n : Node) : Node :=
  mkNode e (TagName n) (Classes n) (Text n) (Focused n) (Children n)
         (Attrs n) (visited n) (old n) (hdl n).
Definition set_Classes (c : string) (n : Node) : Node :=
  mkNode (NEntity n) (TagName n) c (Text n) (Focused n) (Children n)
         (Attrs n) (visited n) (old n) (hdl n).
Definition set_Text (t : string) (n : Node) : Node :=
  mkNode (NEntity n) (TagName n) (Classes n) t (Focused n) (Children n)
         (Attrs n) (visited n) (old n) (hdl n).
Definition set_Focused (b : bool) (n : Node) : Node :=
  mkNode (NEntity n) (TagName n) (Classes n) (Text n) b (Children n)
         (Attrs n) (visited n) (old n) (hdl n).
Definition set_Children (cs : list (option nat)) (n : Node) : Node :=
  mkNode (NEntity n) (TagName n) (Classes n) (Text n) (Focused n) cs
         (Attrs n) (visited n) (old n) (hdl n).
Definition set_Attrs (a : list Attr) (n : Node) : Node :=
  mkNode (NEntity n) (TagName n) (Classes n) (Text n) (Focused n)
         (Children n) a (visited n) (old n) (hdl n).
Definition set_visited (b : bool) (n : Node) : Node :=
  mkNode (NEntity n) (TagName n) (Classes n) (Text n) (Focused n)
         (Children n) (Attrs n) b (old n) (hdl n).
Definition set_old (e : Entity) (n : Node) : Node :=
  mkNode (NEntity n) (TagName n) (Classes n) (Text n) (Focused n)
         (Children n) (Attrs n) (visited n) e (hdl n).
Definition set_hdl (h : intentHandler H) (n : Node) : Node :=
  mkNode (NEntity n) (TagName n) (Classes n) (Text n) (Focused n)
         (Children n) (Attrs n) (visited n) (old n) h.

(** The zero [Node] with a tag: what [GetNode] writes into the slot. *)
Definition zeroNode (tagname : string) : Node :=
  mkNode 0%Z tagname "" "" false [] [] false 0%Z noHandlers.

Definition SetText (text : string) (n : Node) : Node := set_Text text n.

Definition AddChildren (cs : list (option nat)) (n : Node) : Node :=
  set_Children (Children n ++ cs) n.

(** [GiveKey]: [n.Entity = ctx.ng.cnt.Inc()]. *)
Definition GiveKey (c : Counter) (n : Node) : Counter * Node :=
  let '(c', e) := Inc c in (c', set_Entity e n).

(** The inner loop of [AddAttr]: every attribute named [k] takes the
    value [v]; the flag tells whether one was seen. *)
Fixpoint AddAttr_set (k v : string) (attrs : list Attr) : list Attr * bool :=
  match attrs with
  | [] => ([], false)
  | a :: attrs' =>
      let '(r, seen) := AddAttr_set k v attrs' in
      if String.eqb (Name a) k then (mkAttr (Name a) v :: r, true)
      else (a :: r, seen)
  end.

(** [AddAttr(kv ...string)]: pairs are read two by two; a key without a
    value is the index panic of [kv[i+1]]. *)
Fixpoint AddAttr_loop (kv : list string) (attrs : list Attr)
  : outcome (list Attr) :=
  match kv with
  | [] => Ok attrs
  | [_] => Panic IndexOutOfRange
  | k :: v :: kv' =>
      let '(attrs', seen) := AddAttr_set k v attrs in
      AddAttr_loop kv' (if seen then attrs' else attrs' ++ [mkAttr k v])
  end.

Definition AddAttr (kv : list string) (n : Node) : outcome Node :=
  do a <~ AddAttr_loop kv (Attrs n) ; Ok (set_Attrs a n).

Fixpoint GetAttr_loop (attr : string) (attrs : list Attr) : string :=
  match attrs with
  | [] => ""
  | a :: attrs' =>
      if String.eqb (Name a) attr then Value a else GetAttr_loop attr attrs'
  end.

Definition GetAttr (attr : string) (n : Node) : string :=
  GetAttr_loop attr (Attrs n).

(** [OnIntent]: a nil action changes nothing; [n.hdl[evt] = h] panics on
    an index outside the array. *)
Definition OnIntent (evt : IntentType) (h : option H) (n : Node)
  : outcome Node :=
  match h with
  | None => Ok n
  | Some _ =>
      if evt <? Seppuku then Ok (set_hdl (<[evt := h]> (hdl n)) n)
      else Panic IndexOutOfRange
  end.

Definition AddRole (role : string) (n : Node) : outcome Node :=
  AddAttr ["role"; role] n.

(** [strings.Join(cls, " ")] *)
Definition Join (cls : list string) (sep : string) : string :=
  String.concat sep cls.

(** [AddClasses(cls ...string)] *)
Definition AddClasses (cls : list string) (n : Node) : Node :=
  let c := Join cls " " in
  if String.eqb (Classes n) "" then set_Classes c n
  else set_Classes (Classes n ++ " " ++ c) n.

Definition AddBoolAttr (key : string) (val : bool) (n : Node) : Node :=
  if val then set_Attrs (Attrs n ++ [mkAttr key ""]) n else n.

Definition IsNothing (n : Node) : bool := String.eqb (TagName n) "nothing".

(** The pool: [GetNode] takes the next slot and resets it, [FreePool]
    gives all slots back. The chunking of the free list is not modelled. *)
Definition GetNode (tagname : string) (pool : list Node) : list Node * nat :=
  (pool ++ [zeroNode tagname], length pool).

Definition FreePool (pool : list Node) : list Node := [].

End Nodes.

Arguments Node : clear implicits.

(** ** The serializer (render.go) *)

Section Serializer.
Context {H : Type}.

(** What [serialize] reads and writes: the nodes behind the pointers, the
    entity tree, the counter and the program under construction. *)
Record sstate : Type := mkS {
  heap : list (Node H);
  tree : etree H;
  ctr : Counter;
  vm : XAS
}.

Definition set_heap (h : list (Node H)) (s : sstate) : sstate :=
  mkS h (tree s) (ctr s) (vm s).
Definition set_tree (t : etree H) (s : sstate) : sstate :=
  mkS (heap s) t (ctr s) (vm s).
Definition set_ctr (c : Counter) (s : sstate) : sstate :=
  mkS (heap s) (tree s) c (vm s).
Definition set_vm (v : XAS) (s : sstate) : sstate :=
  mkS (heap s) (tree s) (ctr s) v.

(** The callback that [serialize] hands to [reuse]. *)
Definition emit_ReID (from to : Entity) (vm : XAS) : XAS :=
  AddInstr vm OpReID [FormatUint from; FormatUint to].

(** [for _, a := range n.Attrs { vm = vm.AddInstr(OpSetAttr, ...) }] *)
Definition emit_attrs (attrs : list Attr) (vm : XAS) : XAS :=
  fold_left (fun vm a => AddInstr vm OpSetAttr [Name a; Value a]) attrs vm.

(** The body of [serialize] for an ordinary tag, up to the loop over the
    children: the node [nd] at [p] is already marked. The result is the
    state in which the children are serialized, and [idx] (0 unless
    [tree.add] returned it). *)
Definition open_element (p : nat) (nd : Node H) (s : sstate)
  : outcome (sstate * nat) :=
  let s := set_vm (AddInstr (vm s) OpCreateElement [TagName nd]) s in
  let s :=
    set_vm (if (0 <? len (Classes nd))%Z
            then AddInstr (vm s) OpSetClass [Classes nd] else vm s) s in
  let '(nd, s) :=
    if (NEntity nd =? 0)%Z && hdl_Some (hdl nd)
    then
      let '(c, e) := Inc (ctr s) in
      let nd := set_Entity e nd in
      (nd, set_heap (<[p := nd]> (heap s)) (set_ctr c s))
    else (nd, s) in
  do (s, idx) <~
    (if negb (NEntity nd =? 0)%Z
     then
       do (t, idx) <~ add (tree s) (NEntity nd) ;
       do t <~ (if hdl_Some (hdl nd) then addHandler t (hdl nd) else Ok t) ;
       Ok (set_vm (AddInstr (vm s) OpSetID [FormatUint (NEntity nd)])
                  (set_tree t s), idx)
     else Ok (s, 0)) ;
  let s := set_vm (emit_attrs (Attrs nd) (vm s)) s in
  Ok (set_vm (if negb (String.eqb (Text nd) "")
              then AddInstr (vm s) OpAddText [Text nd] else vm s) s, idx).

(** The end of the body: [n.Entity] is read again through the pointer,
    the scope opened at [idx] is closed and the advance is emitted. *)
Definition close_element (p idx : nat) (s : sstate) : outcome sstate :=
  match heap s !! p with
  | None => Panic NilDereference
  | Some nd =>
      do s <~
        (if negb (NEntity nd =? 0)%Z
         then do t <~ closeScope (tree s) idx ; Ok (set_tree t s)
         else Ok s) ;
      Ok (set_vm (AddInstr (vm s) OpNext []) s)
  end.

(** [serialize(n, tree, ctr, vm)]. A pointer that is not a pool slot is
    treated as nil. *)
Fixpoint serialize (fuel : nat) (n : option nat) (s : sstate)
  : outcome sstate :=
  match fuel with
  | 0 => OutOfFuel
  | S fuel' =>
    match n with
    | None => Panic NilDereference
    | Some p =>
      match heap s !! p with
      | None => Panic NilDereference
      | Some nd =>
        if visited nd then Panic CycleDetected
        else
          let nd := set_visited true nd in
          let s := set_heap (<[p := nd]> (heap s)) s in
          if String.eqb (TagName nd) "" then Panic EmptyTagName
          else if String.eqb (TagName nd) "nothing" then
            foldM (fun c s =>
                     do _ <~ assert (bool_decide (c <> None)) NilChild ;
                     serialize fuel' c s)
                  (Children nd) s
          else if String.eqb (TagName nd) "reuse" then
            let vm1 := AddInstr (vm s) OpReuse [FormatUint (old nd)] in
            do (t, c, vm2) <~
              reuse (tree s) (old nd) (NEntity nd) (ctr s) emit_ReID vm1 ;
            Ok (mkS (heap s) t c vm2)
          else
            do (s, idx) <~ open_element p nd s ;
            do s <~ foldM (serialize fuel') (Children nd) s ;
            close_element p idx s
      end
    end
  end.

(** ** The markup serializer (render.go) *)

Definition emit_attrs_HTML (attrs : list Attr) (buf : string) : string :=
  fold_left
    (fun buf a => buf ++ Name a ++ "=" ++ String (ascii_of_nat 34) ""
                  ++ Value a ++ String (ascii_of_nat 34) "")%string
    attrs buf.

(** [serializeHTML(n, buf)] on the pair of the nodes and the buffer. *)
Fixpoint serializeHTML (fuel : nat) (n : option nat)
    (s : list (Node H) * string) : outcome (list (Node H) * string) :=
  match fuel with
  | 0 => OutOfFuel
  | S fuel' =>
    match n with
    | None => Panic NilDereference
    | Some p =>
      match s.1 !! p with
      | None => Panic NilDereference
      | Some nd =>
        if visited nd then Panic CycleDetected
        else
          let h := <[p := set_visited true nd]> s.1 in
          let buf := (s.2 ++ "<" ++ TagName nd ++ " ")%string in
          let buf :=
            if (0 <? len (Classes nd))%Z
            then (buf ++ "class=" ++ String (ascii_of_nat 34) ""
                      ++ Classes nd ++ String (ascii_of_nat 34) " ")%string
            else buf in
          let buf := emit_attrs_HTML (Attrs nd) buf in
          let buf := (buf ++ ">")%string in
          let buf :=
            if negb (String.eqb (Text nd) "") then (buf ++ Text nd)%string
            else buf in
          do s <~ foldM (serializeHTML fuel') (Children nd) (h, buf) ;
          Ok (s.1, (s.2 ++ "</" ++ TagName nd ++ ">")%string)
      end
    end
  end.

End Serializer.

Arguments sstate : clear implicits.

(** ** The render cycle (engine.go, context.go) *)

(** The one engine a context can point to. *)
Inductive engine_ref : Type := TheEngine.

Section Engine.
(** The values behind a [*vctx]. *)
Context {State : Type}.

(** [type Context struct { ng *Engine; vx *vctx }]; [None] is nil. *)
Record Context : Type := mkContext {
  ng : option engine_ref;
  vx : option State
}.

(** [var NoAction Context], and the test [ctx == NoAction]. *)
Definition NoAction : Context := mkContext None None.

Definition is_NoAction (ctx : Context) : bool :=
  match ng ctx, vx ctx with
  | None, None => true
  | _, _ => false
  end.

(** [type Action func(Context) Context], for the actions of the
    application: they act on the values of the context. *)
Definition Action := Context -> Context.

Definition DoNothing : Action := fun _ => NoAction.

(** Modelled from the spec: the declaration of [CallFrame] is not in the
    sources; these are the fields of the interaction input that
    [ReactToIntent] reads (entity, interaction type, generation stamp). *)
Record CallFrame : Type := mkCallFrame {
  cf_Entity : Entity;
  cf_IntentType : IntentType;
  cf_Gen : Z
}.

Definition zeroCallFrame : CallFrame := mkCallFrame 0%Z NoIntent 0%Z.

(** What a widget's [Build] may do to obtain its nodes: the calls of the
    construction interface, on pool slots. *)
Inductive bop : Type :=
| BGetNode (tagname : string)
| BSetText (p : nat) (text : string)
| BAddChildren (p : nat) (cs : list (option nat))
| BGiveKey (p : nat)
| BAddAttr (p : nat) (kv : list string)
| BOnIntent (p : nat) (evt : IntentType) (h : option Action)
| BAddRole (p : nat) (role : string)
| BAddClasses (p : nat) (cls : list string)
| BAddBoolAttr (p : nat) (key : string) (val : bool)
| BFocus (p : nat)
| BElementID (p : nat)
| BReuseFrom (nt : Entity)
| BNothing (ws : list (option nat)).

(** The pool and the engine's counter, as a build sees them. *)
Definition bstate : Type := list (Node Action) * Counter.

Definition on_node (p : nat) (f : Node Action -> outcome (Node Action))
    (b : bstate) : outcome bstate :=
  match b.1 !! p with
  | None => Panic NilDereference
  | Some nd => do nd' <~ f nd ; Ok (<[p := nd']> b.1, b.2)
  end.

(** The calls that may reach [GiveKey(ctx)], which reads the counter
    through [ctx.ng]: [GiveKey] itself, [Focus] (after setting [Focused])
    and [ElementID] (only for a node without identity). *)
Definition on_node_key (ctx : Context) (p : nat) (always : bool) (focus : bool)
    (b : bstate) : outcome bstate :=
  match b.1 !! p with
  | None => Panic NilDereference
  | Some nd =>
      let nd := if focus then set_Focused true nd else nd in
      if always || (NEntity nd =? 0)%Z
      then
        match ng ctx with
        | None => Panic NilDereference
        | Some _ =>
            let '(c, nd') := GiveKey b.2 nd in Ok (<[p := nd']> b.1, c)
        end
      else Ok (<[p := nd]> b.1, b.2)
  end.

Definition run_bop (ctx : Context) (op : bop) (b : bstate) : outcome bstate :=
  match op with
  | BGetNode tagname => Ok ((GetNode tagname b.1).1, b.2)
  | BSetText p text => on_node p (fun n => Ok (SetText text n)) b
  | BAddChildren p cs => on_node p (fun n => Ok (AddChildren cs n)) b
  | BGiveKey p => on_node_key ctx p true false b
  | BAddAttr p kv => on_node p (AddAttr kv) b
  | BOnIntent p evt h => on_node p (OnIntent evt h) b
  | BAddRole p role => on_node p (AddRole role) b
  | BAddClasses p cls => on_node p (fun n => Ok (AddClasses cls n)) b
  | BAddBoolAttr p key val => on_node p (fun n => Ok (AddBoolAttr key val n)) b
  | BFocus p => on_node_key ctx p true true b
  | BElementID p => on_node_key ctx p false false b
  | BReuseFrom nt =>
      (* n := GetNode("reuse"); n.old = nt; return n.GiveKey(ctx) *)
      let '(pool, p) := GetNode "reuse" b.1 in
      do b' <~ on_node p (fun n => Ok (set_old nt n)) (pool, b.2) ;
      on_node_key ctx p true false b'
  | BNothing ws =>
      let '(pool, p) := GetNode "nothing" b.1 in
      on_node p (fun n => Ok (AddChildren ws n)) (pool, b.2)
  end.

(** [type Widget interface{ Build(Context) *Node }]: the calls made and
    the node returned. *)
Definition Widget := Context -> list bop * option nat.

Record Engine : Type := mkEngine {
  buf : XAS;
  cnt : Counter;
  et : etree Action;
  gen : Z;
  eg0 : option State;
  Root : Widget;
  ng_CallFrame : CallFrame;
  npool : list (Node Action)
}.

Definition set_CallFrame (cf : CallFrame) (e : Engine) : Engine :=
  mkEngine (buf e) (cnt e) (et e) (gen e) (eg0 e) (Root e) cf (npool e).

(** [New(root, ctx ...)]: the zero engine, its context built by the
    initial actions from an empty value store [empty]. *)
Definition New (root : Widget) (empty : State) (ctx : list Action) : Engine :=
  let g := fold_left (fun g f => vx (f (mkContext None g))) ctx (Some empty) in
  mkEngine [] 0%Z (mkEtree [] []) 0%Z g root zeroCallFrame [].

(** [var noActionRandEnabled = false], and [randPick] on the value [rnd]
    that [rand.Uint32()] would draw. *)
Definition noActionRandEnabled : bool := false.

Definition randPick (rnd : Z) : bool :=
  if negb noActionRandEnabled then false else (Z.land rnd 15 =? 0)%Z.

(** An action as the driver runs it: it may also write the engine it is
    given through the context (the closure of [ReactToIntent] does). *)
Definition EAction := Engine -> Context -> outcome (Engine * Context).

Definition app (a : Action) : EAction := fun e ctx => Ok (e, a ctx).

(** [nd := ng.Root.Build(ctx); serialize(nd, &ng.et, &ng.cnt, ng.buf[:0])]:
    the state in which both generations are held. The fuel is one more
    than the number of pool slots. *)
Definition render (e : Engine) (ctx : Context) : outcome (sstate Action) :=
  let '(prog, nd) := Root e ctx in
  do b <~ foldM (run_bop ctx) prog (npool e, cnt e) ;
  serialize (S (length b.1)) nd (mkS b.1 (et e) b.2 []).

(** [turncrank(act)]: the engine after the cycle and the program returned
    (nil when the cycle is skipped). *)
Definition turncrank (e : Engine) (act : EAction) (rnd : Z)
  : outcome (Engine * option XAS) :=
  do (e, ctx) <~ act e (mkContext (Some TheEngine) (eg0 e)) ;
  let run (ctx : Context) :=
    do s <~ render e ctx ;
    let buf := AddInstr (vm s) OpTerm [] in
    let gen := (gen e + 1)%Z in
    Ok (mkEngine buf (Z.land gen 1) (ngen (tree s)) gen (vx ctx) (Root e)
                 (ng_CallFrame e) (FreePool (heap s)),
        Some buf) in
  if is_NoAction ctx
  then
    if negb (randPick rnd) then Ok (e, None)
    else run (mkContext (Some TheEngine) (eg0 e))
  else run ctx.

(** The loop of [New]: one action taken from the channel; the call frame
    is cleared afterwards. *)
Definition step (e : Engine) (act : EAction) (rnd : Z)
  : outcome (Engine * option XAS) :=
  do (e, xas) <~ turncrank e act rnd ;
  Ok (set_CallFrame zeroCallFrame e, xas).

(** The first handler set, innermost first, that handles the intent. *)
Fixpoint find_handler (ps : list (prenode Action)) (it : IntentType)
  : outcome (intentHandler Action) :=
  match ps with
  | [] => Ok noHandlers
  | nt :: ps' =>
      match phdl nt !! it with
      | None => Panic IndexOutOfRange
      | Some (Some _) => Ok (phdl nt)
      | Some None => find_handler ps' it
      end
  end.

(** The closure [do] that [ReactToIntent(cf)] sends to the loop. *)
Definition ReactToIntent (cf : CallFrame) : EAction := fun e ctx =>
  if negb (cf_Gen cf =? gen e)%Z then Ok (e, ctx)
  else
    let e := set_CallFrame cf e in
    do ps <~ parents (et e) (cf_Entity cf) ;
    do h <~ find_handler ps (cf_IntentType cf) ;
    match h !! cf_IntentType cf with
    | None => Panic IndexOutOfRange
    | Some None => Ok (e, NoAction)
    | Some (Some f) => Ok (e, f ctx)
    end.

End Engine.

Arguments Context : clear implicits.
Arguments Action : clear implicits.
Arguments CallFrame : clear implicits.
Arguments bop : clear implicits.
Arguments Widget : clear implicits.
Arguments Engine : clear implicits.
Arguments EAction : clear implicits.

(** * More of the package *)

(** ** Element ids (render.go) *)

Section ElementIDs.
Context {State : Type}.

(** [ElementID(ctx)]: a node without identity is given a key first; the
    result is the counter, the node and the string returned. *)
Definition ElementID (ctx : Context State) (c : Counter)
    (n : Node (Action State))
  : outcome (Counter * Node (Action State) * string) :=
  do (c, n) <~ (if (NEntity n =? 0)%Z
                then
                  match ng ctx with
                  | None => Panic NilDereference
                  | Some _ => Ok (GiveKey c n)
                  end
                else Ok (c, n)) ;
  Ok (c, n, FormatUint (NEntity n)).

End ElementIDs.

(** ** The values of a context (context.go)

    A [*vctx] is an index into a store of maps, [None] the nil pointer.
    The types that key the maps ([reflect.Type]) and the values held
    ([any]) are parameters. [TypeOf v] is the dynamic type of [v], [None]
    for the nil interface value; [IsInterface T] tells the interface
    types and [Implements d T] the types [d] that implement the
    interface type [T]; [zero T] is the zero value of [T], held in an
    [any]: the nil interface value when [T] is an interface type.
    [DirectlyAssignable d T] tells the types [d] other than [T] whose
    values [reflect] assigns to a variable of the type [T] that is not
    an interface (same underlying type, one of the two not defined), and
    [retype T v] is the value [v] seen at the type [T] then. *)

Class Reflect (rtype any : Type) : Type := {
  TypeOf : any -> option rtype;
  IsInterface : rtype -> bool;
  Implements : rtype -> rtype -> bool;
  DirectlyAssignable : rtype -> rtype -> bool;
  retype : rtype -> any -> any;
  zero : rtype -> any
}.

Section Values.
Context {rtype : Type} `{Countable rtype}.
Context {any : Type} `{!Reflect rtype any}.

(** [vctx.kv]; the mutex is not modelled. *)
Definition vctx : Type := gmap rtype any.

(** What these functions can raise. *)
Inductive vpanic : Type :=
| NilStore              (* runtime: nil pointer dereference on ctx.vx *)
| FailedAssertion       (* val.(T): interface conversion *)
| NotAssignable         (* reflect: Set on a zero Value or on a value of
                           a type not assignable to the variable *)
| MutatorShape.         (* panic("mutator must be functions of one pointer argument") *)

Definition vout (A : Type) : Type := A + vpanic.

(** [if ctx.vx == nil { ctx.vx = &vctx{kv: make(...)} }]: the store, and
    the pointer that [ctx.vx] holds afterwards. *)
Definition ensure (st : list vctx) (ctx : Context nat) : list vctx * nat :=
  match vx ctx with
  | None => (st ++ [∅], length st)
  | Some p => (st, p)
  end.

(** [WithValue[T](ctx, value)]: the store after the write and the context
    returned. [value] is the parameter of type [T] converted to [any]. *)
Definition WithValue (T : rtype) (value : any) (st : list vctx)
    (ctx : Context nat) : vout (list vctx * Context nat) :=
  let '(st, p) := ensure st ctx in
  match st !! p with
  | None => inr NilStore
  | Some kv => inl (<[p := <[T := value]> kv]> st, mkContext (ng ctx) (Some p))
  end.

(** The type assertion [val.(T)] holds: [val] is not the nil interface
    value, and its dynamic type is [T], or implements [T] when [T] is an
    interface type. *)
Definition asserts (T : rtype) (val : any) : bool :=
  match TypeOf val with
  | None => false
  | Some d => if IsInterface T then Implements d T else bool_decide (d = T)
  end.

(** [ValueOf[T](ctx)] *)
Definition ValueOf (T : rtype) (st : list vctx) (ctx : Context nat)
  : vout any :=
  match vx ctx with
  | None => inl (zero T)
  | Some p =>
      match st !! p with
      | None => inr NilStore
      | Some kv =>
          match kv !! T with
          | None => inl (zero T)
          | Some val =>
              if asserts T val then inl val else inr FailedAssertion
          end
      end
  end.

(** [v.Elem().Set(reflect.ValueOf(vv))] on the new variable of type [kt]:
    the value of the variable afterwards, [None] when [Set] panics
    ([reflect.ValueOf] of the nil interface value is the zero Value). *)
Definition Set_Elem (kt : rtype) (vv : any) : option any :=
  match TypeOf vv with
  | None => None
  | Some d =>
      if IsInterface kt then (if Implements d kt then Some vv else None)
      else if bool_decide (d = kt) then Some vv
      else if DirectlyAssignable d kt then Some (retype kt vv)
      else None
  end.

(** A mutator as [Mutate] sees it through [reflect]: a function of one
    pointer argument and no result, with the type [kt] that the pointer
    points to and what the call does to the value behind the pointer; or
    any other value but nil. *)
Inductive mutator : Type :=
| Mutator (kt : rtype) (f : any -> any)
| NotAMutator.

(** The body of the loop of [Mutate] for one mutator, on the store. *)
Definition mutate_one (p : option nat) (m : mutator) (st : list vctx)
  : vout (list vctx) :=
  match m with
  | NotAMutator => inr MutatorShape
  | Mutator kt f =>
      match p with
      | None => inr NilStore
      | Some p =>
          match st !! p with
          | None => inr NilStore
          | Some kv =>
              match kv !! kt with
              | None => inl (<[p := <[kt := f (zero kt)]> kv]> st)
              | Some vv =>
                  match Set_Elem kt vv with
                  | Some v => inl (<[p := <[kt := f v]> kv]> st)
                  | None => inr NotAssignable
                  end
              end
          end
      end
  end.

(** [Mutate(mutators...)], applied to a context: the store afterwards;
    the context returned is the one given. *)
Fixpoint Mutate (mutators : list mutator) (st : list vctx)
    (ctx : Context nat) : vout (list vctx * Context nat) :=
  match mutators with
  | [] => inl (st, ctx)
  | m :: ms =>
      match mutate_one (vx ctx) m st with
      | inl st' => Mutate ms st' ctx
      | inr e => inr e
      end
  end.

End Values.

(** [ToHTML]: what [serializeHTML] writes to an empty buffer. *)
Definition ToHTML {H : Type} (fuel : nat) (n : option nat)
    (h : list (Node H)) : outcome (list (Node H) * string) :=
  serializeHTML fuel n (h, "").

(** ** The analyzer of the templates given to [Get]
    (cmd/rxcheck/internal/get) *)

(** What [tk.Next()] returns, with what the analyzer reads of the token:
    the raw bytes of a text, the name of a tag, the error. The end of the
    list is the EOF error, which ends the loop; [ErrorToken] is any other
    error. The kinds of token that have no case in the switch
    (self-closing tag, comment, doctype) are [OtherToken]. *)
Inductive token : Type :=
  | TextToken (raw : string)
  | StartTagToken (name : string)
  | EndTagToken (name : string)
  | ErrorToken (err : string)
  | OtherToken.

(** The reports of the analyzer, in the order of the source. *)
Inductive report : Type :=
  | NoEscape
  | ReadError (err : string)
  | Extraneous (n : string)
  | Unmatched (n top : string)
  | InvalidElement
  | Unbalanced (n : string).

(** [bytes.ContainsAny(b, chars)], for [chars] made of ASCII bytes. *)
Definition ContainsAny (b chars : string) : bool :=
  existsb (fun c => existsb (Ascii.eqb c) (list_ascii_of_string chars))
          (list_ascii_of_string b).

Definition escapes : string := "<>" ++ String (ascii_of_nat 34) "".

(** The loop [tplLoop]: a report, after which the closure returns, or the
    count of start tags and the stack of open tags at the end of the
    template. *)
Fixpoint tplLoop (tks : list token) (countstart : nat) (nodes : list string)
  : report + (nat * list string) :=
  match tks with
  | [] => inr (countstart, nodes)
  | TextToken raw :: tks' =>
      if ContainsAny raw escapes then inl NoEscape
      else tplLoop tks' countstart nodes
  | ErrorToken err :: _ => inl (ReadError err)
  | StartTagToken n :: tks' => tplLoop tks' (S countstart) (nodes ++ [n])
  | EndTagToken n :: tks' =>
      match last nodes with
      | None => inl (Extraneous n)
      | Some top =>
          if negb (String.eqb top n) then inl (Unmatched n top)
          else tplLoop tks' countstart (removelast nodes)
      end
  | OtherToken :: tks' => tplLoop tks' countstart nodes
  end.

(** The reports of [run_wellformed] on one call of [Get] whose template
    gives the tokens [tks]. *)
Definition run_wellformed (tks : list token) : list report :=
  match tplLoop tks 0 [] with
  | inl r => [r]
  | inr (countstart, nodes) =>
      match countstart with
      | 0 => InvalidElement :: map Unbalanced (rev nodes)
      | 1 => []
      | _ => map Unbalanced (rev nodes)
      end
  end.

(** * Notions used to state the properties *)

(** ** Decoding a program

    The reading side of the wire format: one opcode byte, then as many
    length-prefixed strings as the opcode declares; the stream stops at the
    terminate instruction. *)

Record instr : Type := mkInstr { op : OpType; args : list string }.

Definition arity (code : OpType) : option nat :=
  if (code =? OpTerm)%Z then Some 0
  else if (code =? OpCreateElement)%Z then Some 1
  else if (code =? OpSetClass)%Z then Some 1
  else if (code =? OpSetID)%Z then Some 1
  else if (code =? OpSetAttr)%Z then Some 2
  else if (code =? OpAddText)%Z then Some 1
  else if (code =? OpReuse)%Z then Some 1
  else if (code =? OpReID)%Z then Some 2
  else if (code =? OpNext)%Z then Some 0
  else None.

Definition string_of_bytes (bs : list Z) : string :=
  string_of_list_ascii (map (fun b => ascii_of_N (Z.to_N b)) bs).

(** [n] strings, each a big-endian 16-bit length and that many bytes. *)
Fixpoint read_strings (n : nat) (bs : list Z) : option (list string * list Z) :=
  match n with
  | 0 => Some ([], bs)
  | S n' =>
      match bs with
      | hi :: lo :: rest =>
          let l := Z.to_nat (hi * 256 + lo) in
          if l <=? length rest
          then
            match read_strings n' (drop l rest) with
            | Some (ss, r) => Some (string_of_bytes (take l rest) :: ss, r)
            | None => None
            end
          else None
      | _ => None
      end
  end.

(** The instructions up to and including the terminate, and the bytes left
    after it. *)
Fixpoint decode (fuel : nat) (bs : list Z) : option (list instr * list Z) :=
  match fuel with
  | 0 => None
  | S fuel' =>
      match bs with
      | [] => None
      | code :: rest =>
          match arity code with
          | None => None
          | Some n =>
              match read_strings n rest with
              | None => None
              | Some (ss, r) =>
                  if (code =? OpTerm)%Z then Some ([mkInstr code ss], r)
                  else
                    match decode fuel' r with
                    | Some (ins, r') => Some (mkInstr code ss :: ins, r')
                    | None => None
                    end
              end
          end
      end
  end.

(** A program is well formed when decoding it consumes every byte. *)
Definition well_formed (vm : XAS) : Prop :=
  exists ins, decode (length vm) vm = Some (ins, []).

(** The identifiers recorded in a generation. *)
Definition ids {H : Type} (g : list (prenode H)) : list Entity := map ntt g.

(** ** What a reuse is expected to do *)

(** The [n] identities that [n] successive calls of [Inc] return. *)
Fixpoint minted (c : Counter) (n : nat) : list Entity :=
  match n with
  | 0 => []
  | S n' => (Inc c).2 :: minted (Inc c).1 n'
  end.

(** The counter after [n] calls of [Inc]. *)
Fixpoint Inc_n (n : nat) (c : Counter) : Counter :=
  match n with
  | 0 => c
  | S n' => Inc_n n' (Inc c).1
  end.

(** The new identities of [k] copied records: the target for the topmost,
    minted ones for the others. *)
Definition new_ids (to : Entity) (c : Counter) (k : nat) : list Entity :=
  match k with
  | 0 => []
  | S k' => to :: minted c k'
  end.

(** The pairs (old, new) of the records whose identity changes. *)
Definition changes {H : Type} (sub : list (prenode H)) (news : list Entity)
  : list (Entity * Entity) :=
  filter (fun p => negb (p.2 =? p.1)%Z) (zip (ids sub) news).

(** The callback called on each pair in turn. *)
Definition visit {St : Type} (it : Entity -> Entity -> St -> St)
    (pairs : list (Entity * Entity)) (s : St) : St :=
  fold_left (fun s p => it p.1 p.2 s) pairs s.

(** ** How a pass may change the nodes *)

Section NodeOrder.
Context {H : Type}.

(** [nd'] is [nd] later in the same pass: a marked node is not written
    any more, and an unmarked one changes only in its mark and, when it
    carries handlers but no identity, in its identity. *)
Definition node_le (nd nd' : Node H) : Prop :=
  TagName nd' = TagName nd /\ Classes nd' = Classes nd /\
  Text nd' = Text nd /\ Focused nd' = Focused nd /\
  Children nd' = Children nd /\ Attrs nd' = Attrs nd /\
  old nd' = old nd /\ hdl nd' = hdl nd /\
  (NEntity nd' = NEntity nd \/
   (NEntity nd = 0%Z /\ hdl_Some (hdl nd) = true)) /\
  (visited nd = true -> nd' = nd).

Definition heap_le (h h' : list (Node H)) : Prop :=
  length h' = length h /\
  forall q nd, h !! q = Some nd -> exists nd', h' !! q = Some nd' /\ node_le nd nd'.

(** The instructions that [serialize] emits for an ordinary element
    before its children, [e] being the identity it ends up with. *)
Definition open_vm (nd : Node H) (e : Entity) (vm : XAS) : XAS :=
  let vm := AddInstr vm OpCreateElement [TagName nd] in
  let vm := if (0 <? len (Classes nd))%Z
            then AddInstr vm OpSetClass [Classes nd] else vm in
  let vm := if negb (e =? 0)%Z
            then AddInstr vm OpSetID [FormatUint e] else vm in
  let vm := emit_attrs (Attrs nd) vm in
  if negb (String.eqb (Text nd) "") then AddInstr vm OpAddText [Text nd]
  else vm.

(** [s'] is [s] later in the same pass: the previous generation is not
    written and the current one only grows. *)
Definition pass_le (s s' : sstate H) : Prop :=
  heap_le (heap s) (heap s') /\
  g1 (tree s') = g1 (tree s) /\
  exists K, g0 (tree s') = g0 (tree s) ++ K.

End NodeOrder.

(** ** Positions in a node tree *)

Section Walk.
Context {H : Type}.

(** The node at a position: from [q], follow the child indices of [path]
    through the nodes whose children [serialize] walks (a "reuse" node
    is a leaf of the walk). *)
Fixpoint resolve (h : list (Node H)) (q : nat) (path : list nat)
  : option nat :=
  match path with
  | [] => Some q
  | i :: path' =>
      match h !! q with
      | None => None
      | Some nd =>
          if String.eqb (TagName nd) "reuse" then None
          else
            match Children nd !! i with
            | Some (Some c) => resolve h c path'
            | _ => None
            end
      end
  end.

(** The number of nodes not yet marked. *)
Fixpoint unvisited (h : list (Node H)) : nat :=
  match h with
  | [] => 0
  | nd :: h' => (if visited nd then 0 else 1) + unvisited h'
  end.






End Walk.

(** ** Spans and subtrees

    The shape of a forest of entities, and the spans that a preorder
    listing of it carries: each record counts itself and its descendants. *)

#[local] Set Warnings "-register-all".
Inductive shape : Type := Sh (kids : list shape).
#[local] Set Warnings "register-all".

Fixpoint spans (t : shape) : list nat :=
  match t with
  | Sh kids =>
      let rest :=
        (fix forest (ts : list shape) : list nat :=
           match ts with
           | [] => []
           | t' :: ts' => spans t' ++ forest ts'
           end) kids in
      S (length rest) :: rest
  end.

Fixpoint spans_forest (ts : list shape) : list nat :=
  match ts with
  | [] => []
  | t :: ts' => spans t ++ spans_forest ts'
  end.

(** [subtree_at F i t]: the [i]-th node of the forest [F] in preorder is
    the root of [t]. *)
Inductive subtree_at : list shape -> nat -> shape -> Prop :=
| at_root t F : subtree_at (t :: F) 0 t
| at_kids kids F i t :
    subtree_at kids i t -> subtree_at (Sh kids :: F) (S i) t
| at_rest t0 F i t :
    subtree_at F i t -> subtree_at (t0 :: F) (length (spans t0) + i) t.

(** A generation whose spans are those of a forest. *)
Definition wf_spans {H : Type} (g : list (prenode H)) : Prop :=
  exists F, map scp g = spans_forest F.

(** [s'] extends the current generation of [s] by the listing of a
    forest, provided the previous generation is well formed. *)
Definition grows_forest {H : Type} (s s' : sstate H) : Prop :=
  wf_spans (g1 (tree s)) ->
  g1 (tree s') = g1 (tree s) /\
  exists F K, g0 (tree s') = g0 (tree s) ++ K /\ map scp K = spans_forest F.

(** ** Two passes side by side *)

Section Simulation.
Context {H : Type}.

(** [h1] and [h2] hold the same nodes outside [D], and the nodes of [D]
    are marked in [h1]. *)
Definition covers (D : nat -> Prop) (h1 h2 : list (Node H)) : Prop :=
  length h1 = length h2 /\
  forall q,
    (D q -> exists nd, h1 !! q = Some nd /\ visited nd = true) /\
    (~ D q -> h1 !! q = h2 !! q).

Definition sim (D : nat -> Prop) (s1 s2 : sstate H) : Prop :=
  covers D (heap s1) (heap s2) /\
  tree s1 = tree s2 /\ ctr s1 = ctr s2 /\ vm s1 = vm s2.

End Simulation.

(** ** Runs of the engine *)

Section Runs.
Context {State : Type}.

(** What the loop takes from its channel: an action of the application,
    or the closure of a fired interaction. *)
Inductive input : Type :=
| Act (a : Action State)
| Intent (cf : CallFrame).

Definition action_of (i : input) : EAction State :=
  match i with
  | Act a => app a
  | Intent cf => ReactToIntent cf
  end.

(** The engine after the loop has taken the inputs, each with the value
    its random draw would give. *)
Definition run (e : Engine State) (inputs : list (input * Z))
  : outcome (Engine State) :=
  foldM (fun i e => do (e', _) <~ step e (action_of i.1) i.2 ; Ok e') inputs e.

(** A build that obtains its "reuse" nodes from [ReuseFrom] only. *)
Definition api_only (prog : list (bop State)) : Prop :=
  Forall (fun o => match o with
                   | BGetNode tagname => tagname <> "reuse"
                   | _ => True
                   end) prog.

(** The identities of a generation have the parity of [gen]. *)
Definition parity (gen : Z) (g : list (prenode (Action State))) : Prop :=
  Forall (fun x => (x mod 2 = gen mod 2)%Z) (ids g).

(** A node built through the interface in generation [gen]: an identity
    it has was minted in that generation, and a "reuse" node has one. *)
Definition minted_node (gen : Z) (nd : Node (Action State)) : Prop :=
  (TagName nd = "reuse" \/ NEntity nd <> 0%Z ->
   (NEntity nd mod 2 = gen mod 2)%Z).

(** Between two cycles. *)
Definition idle (e : Engine State) : Prop :=
  cnt e = (gen e mod 2)%Z /\
  parity (gen e + 1) (g1 (et e)) /\
  wf_spans (g1 (et e)) /\
  g0 (et e) = [] /\ npool e = [].

(** During the build and the pass of generation [gen]. *)
Definition building (gen : Z) (b : bstate) : Prop :=
  (b.2 mod 2 = gen mod 2)%Z /\ Forall (minted_node gen) b.1.

Definition passing (gen : Z) (s : sstate (Action State)) : Prop :=
  (ctr s mod 2 = gen mod 2)%Z /\ Forall (minted_node gen) (heap s) /\
  parity gen (g0 (tree s)).

End Runs.


(** ** Encoding instructions *)

(** A string operand on the wire: its length cut to 16 bits, big-endian,
    then its bytes. *)
Definition enc_string (s : string) : list Z :=
  [Z.shiftr (uint16 (len s)) 8; Z.land (uint16 (len s)) 255] ++ bytes_of s.

Definition enc_instr (i : instr) : list Z :=
  op i :: concat (map enc_string (args i)).

Definition encode (l : list instr) : list Z := concat (map enc_instr l).

(** An instruction of the opcode set with its declared operand count. *)
Definition shaped (i : instr) : Prop := arity (op i) = Some (length (args i)).

(** An instruction that [serialize] may emit: any but the terminate. *)
Definition body_instr (i : instr) : Prop := shaped i /\ op i <> OpTerm.

(** Every operand fits the 16-bit length. *)
Definition short (i : instr) : Prop :=
  Forall (fun a => (len a < 65536)%Z) (args i).

(** [v'] is [v] with the encoding of some instructions, none of them the
    terminate, appended. *)
Definition emitted (v v' : XAS) : Prop :=
  exists l, v' = v ++ encode l /\ Forall body_instr l.

(** * Notions used by the further properties *)

(** ** Attributes *)

(** The value that the pairs [kv] assign to [k] last, if any. *)
Fixpoint assigned (kv : list string) (k : string) : option string :=
  match kv with
  | k0 :: v0 :: kv' =>
      match assigned kv' k with
      | Some v => Some v
      | None => if String.eqb k0 k then Some v0 else None
      end
  | _ => None
  end.

(** One pair of [AddAttr]: every attribute named [k] takes the value [v],
    and the pair is appended when no attribute has the name. *)
Definition put (k v : string) (attrs : list Attr) : list Attr :=
  let '(attrs', seen) := AddAttr_set k v attrs in
  if seen then attrs' else attrs' ++ [mkAttr k v].

(** ** The nesting of a program *)

(** The number of elements left open by the instructions [l], [d] being
    open before them: a create-element opens an element, an advance
    closes the innermost open one, the other instructions open and close
    nothing; [None] when an advance finds no open element. *)
Fixpoint open_after (l : list instr) (d : nat) : option nat :=
  match l with
  | [] => Some d
  | i :: l' =>
      if (op i =? OpCreateElement)%Z then open_after l' (S d)
      else if (op i =? OpNext)%Z then
        match d with
        | 0 => None
        | S d' => open_after l' d'
        end
      else open_after l' d
  end.

(** [v'] is [v] with the encoding of instructions appended that go from
    [a] to [b] open elements and close none of the elements open before
    them. *)
Definition emits_level (a b : nat) (v v' : XAS) : Prop :=
  exists l, v' = v ++ encode l /\ Forall body_instr l /\
            forall d, open_after l (d + a) = Some (d + b).

(** ** Identities within a generation *)

Section Unique.
Context {H : Type}.

(** The identities in use are told apart: they lie between 0 and the
    counter, a "reuse" node has one, the records of the current
    generation have different ones, and the nodes that the pass has not
    reached yet have identities, if any, that differ from each other and
    from the recorded ones. *)
Definition told_apart (h : list (Node H)) (g : list (prenode H))
    (c : Counter) : Prop :=
  (0 <= c)%Z /\
  (forall q nd, h !! q = Some nd ->
     (0 <= NEntity nd <= c)%Z /\
     (TagName nd = "reuse" -> NEntity nd <> 0%Z)) /\
  Forall (fun x => (x <= c)%Z) (ids g) /\
  NoDup (ids g) /\
  (forall q nd, h !! q = Some nd -> visited nd = false ->
     NEntity nd <> 0%Z -> NEntity nd ∉ ids g) /\
  (forall q1 q2 nd1 nd2,
     q1 <> q2 -> h !! q1 = Some nd1 -> h !! q2 = Some nd2 ->
     visited nd1 = false -> visited nd2 = false ->
     NEntity nd1 <> 0%Z -> NEntity nd1 <> NEntity nd2).

(** The counter cannot wrap during the rest of the pass: with fewer than
    [M] records in the previous generation, a node makes it advance by
    [2 * M] at most. *)
Definition within_budget (M B : Z) (s : sstate H) : Prop :=
  told_apart (heap s) (g0 (tree s)) (ctr s) /\
  (Z.of_nat (length (g1 (tree s))) < M)%Z /\
  (ctr s + 2 * M * Z.of_nat (unvisited (heap s)) <= B)%Z /\
  (B < 2 ^ 32)%Z.

End Unique.

(** ** Trees of nodes *)

Section Trees.
Context {H : Type}.

(** A tree of nodes, as a value. *)
#[local] Set Warnings "-register-all".
Inductive dom : Type := El (nd : Node H) (kids : list dom).
#[local] Set Warnings "register-all".

(** The trees behind a list of child pointers, none of them nil, and the
    slots they occupy, with [ld] to read one child. *)
Fixpoint load_all (ld : nat -> option (dom * list nat))
    (cs : list (option nat)) : option (list dom * list nat) :=
  match cs with
  | [] => Some ([], [])
  | None :: _ => None
  | Some c :: cs' =>
      match ld c, load_all ld cs' with
      | Some (t, fp), Some (ts, fps) => Some (t :: ts, fp ++ fps)
      | _, _ => None
      end
  end.

(** The tree that the pointer [p] leads to in the pool [h], and the slots
    it occupies in preorder (a slot is listed once for each position it
    stands at). *)
Fixpoint load (fuel : nat) (h : list (Node H)) (p : nat)
  : option (dom * list nat) :=
  match fuel with
  | 0 => None
  | S fuel' =>
      match h !! p with
      | None => None
      | Some nd =>
          match load_all (load fuel' h) (Children nd) with
          | Some (ts, fp) => Some (El nd ts, p :: fp)
          | None => None
          end
      end
  end.

(** The markup of the attributes and of a tree. *)
Definition attrs_html (attrs : list Attr) : string :=
  fold_right
    (fun a r => Name a ++ "=" ++ String (ascii_of_nat 34) ""
                ++ Value a ++ String (ascii_of_nat 34) "" ++ r)%string
    "" attrs.

Definition open_html (nd : Node H) : string :=
  ("<" ++ TagName nd ++ " "
   ++ (if (0 <? len (Classes nd))%Z
       then "class=" ++ String (ascii_of_nat 34) "" ++ Classes nd
            ++ String (ascii_of_nat 34) " "
       else "")
   ++ attrs_html (Attrs nd) ++ ">" ++ Text nd)%string.

Fixpoint html_of (t : dom) : string :=
  match t with
  | El nd kids =>
      (open_html nd
       ++ (fix all (ks : list dom) : string :=
             match ks with
             | [] => ""
             | k :: ks' => html_of k ++ all ks'
             end) kids
       ++ "</" ++ TagName nd ++ ">")%string
  end.

Definition html_all (ts : list dom) : string :=
  fold_right (fun t r => html_of t ++ r)%string "" ts.

(** The instructions of a tree whose nodes have no identity and no
    handler: a "nothing" node stands for its children. *)
Fixpoint instrs_of (t : dom) : list instr :=
  match t with
  | El nd kids =>
      let inner :=
        (fix all (ks : list dom) : list instr :=
           match ks with
           | [] => []
           | k :: ks' => instrs_of k ++ all ks'
           end) kids in
      if String.eqb (TagName nd) "nothing" then inner
      else
        mkInstr OpCreateElement [TagName nd]
        :: (if (0 <? len (Classes nd))%Z
            then [mkInstr OpSetClass [Classes nd]] else [])
        ++ map (fun a => mkInstr OpSetAttr [Name a; Value a]) (Attrs nd)
        ++ (if negb (String.eqb (Text nd) "")
            then [mkInstr OpAddText [Text nd]] else [])
        ++ inner ++ [mkInstr OpNext []]
  end.

Definition instrs_all (ts : list dom) : list instr :=
  concat (map instrs_of ts).

(** Every node of the tree is an ordinary element or a "nothing" node,
    without identity and without handler. *)
Fixpoint plain (t : dom) : Prop :=
  match t with
  | El nd kids =>
      TagName nd <> "" /\ TagName nd <> "reuse" /\
      NEntity nd = 0%Z /\ hdl_Some (hdl nd) = false /\
      (fix all (ks : list dom) : Prop :=
         match ks with
         | [] => True
         | k :: ks' => plain k /\ all ks'
         end) kids
  end.

(** The pools [h] and [h'] hold the same nodes in the slots [fp]. *)
Definition agree_on (fp : list nat) (h h' : list (Node H)) : Prop :=
  forall q, q ∈ fp -> h' !! q = h !! q.

(** The pools [h] and [h'] hold the same nodes outside the slots [fp]. *)
Definition agree_off (fp : list nat) (h h' : list (Node H)) : Prop :=
  length h' = length h /\ forall q, q ∉ fp -> h' !! q = h !! q.

(** No slot of [fp] is marked. *)
Definition unmarked (fp : list nat) (h : list (Node H)) : Prop :=
  forall q nd, q ∈ fp -> h !! q = Some nd -> visited nd = false.

End Trees.

Arguments dom : clear implicits.

(** *** Templates *)

(** The tags of a template. *)
Fixpoint tags (tks : list token) : list token :=
  match tks with
  | [] => []
  | StartTagToken n :: r => StartTagToken n :: tags r
  | EndTagToken n :: r => EndTagToken n :: tags r
  | _ :: r => tags r
  end.

(** The number of start tags. *)
Fixpoint starts (tks : list token) : nat :=
  match tks with
  | [] => 0
  | StartTagToken _ :: r => S (starts r)
  | _ :: r => starts r
  end.

(** No text holds one of the characters to escape and no token is an
    error. *)
Definition readable (tks : list token) : Prop :=
  Forall (fun tk =>
            match tk with
            | TextToken raw => ContainsAny raw escapes = false
            | ErrorToken _ => False
            | _ => True
            end) tks.

(** Tags that are closed in the reverse order of their opening, each by
    an end tag of its name. *)
Inductive nested : list token -> Prop :=
  | nested_nil : nested []
  | nested_cons n a b :
      nested a -> nested b ->
      nested (StartTagToken n :: a ++ EndTagToken n :: b).

(** [opens ns tgs]: the start tags named [ns], outermost first, are left
    open in [tgs], and everything else is nested. *)
Inductive opens : list string -> list token -> Prop :=
  | opens_nil d : nested d -> opens [] d
  | opens_cons d n ns rest :
      nested d -> opens ns rest ->
      opens (n :: ns) (d ++ StartTagToken n :: rest).

(** ** The programs of a run *)

Section Logs.
Context {State : Type}.

(** The engine after the loop has taken the inputs, and the programs that
    it has sent on the way, the oldest first. *)
Fixpoint run_log (e : Engine State) (inputs : list (input * Z))
  : outcome (Engine State * list XAS) :=
  match inputs with
  | [] => Ok (e, [])
  | i :: rest =>
      do (e1, xas) <~ step e (action_of i.1) i.2 ;
      do (e2, progs) <~ run_log e1 rest ;
      Ok (e2, match xas with Some x => x :: progs | None => progs end)
  end.

End Logs.

(** ** Typed values *)

Section Typed.
Context {rtype any : Type} `{!Reflect rtype any}.

(** [v] holds a value of the static type [T]: a value whose dynamic type
    is [T], or, for an interface type, nil or a value whose dynamic type
    implements [T]. *)
Definition has_type (T : rtype) (v : any) : Prop :=
  match TypeOf v with
  | None => IsInterface T = true
  | Some d => if IsInterface T then Implements d T = true else d = T
  end.

End Typed.

(** * Properties *)

(** ** The scenario of the specification *)

Section Scenario.

(** The calls that build [<div class="flex">hi<button></button></div>]. *)
Definition scenario_build : list (bop unit) :=
  [ BGetNode "div"; BAddClasses 0 ["flex"]; BSetText 0 "hi";
    BGetNode "button"; BAddChildren 0 [Some 1] ].

Definition scenario_widget : Widget unit := fun _ => (scenario_build, Some 0).

Definition scenario_engine : Engine unit := New scenario_widget tt [].

Definition scenario_program : list instr :=
  [ mkInstr OpCreateElement ["div"]; mkInstr OpSetClass ["flex"];
    mkInstr OpAddText ["hi"]; mkInstr OpCreateElement ["button"];
    mkInstr OpNext []; mkInstr OpNext []; mkInstr OpTerm [] ].

End Scenario.

(** C7. Serializing the tree of [<div class="flex">hi<button></button></div>]
    and appending the driver's terminate gives exactly create-element "div",
    set-class "flex", add-text "hi", create-element "button", advance,
    advance, terminate; no instruction is a set-id. *)
Theorem scenario_div_flex_button :
  exists e xas,
    turncrank scenario_engine (app id) 0%Z = Ok (e, Some xas) /\
    xas = fold_left (fun vm i => AddInstr vm (op i) (args i)) scenario_program [] /\
    decode (length xas) xas = Some (scenario_program, []) /\
    Forall (fun i => op i <> OpSetID) scenario_program.
Proof.
  eexists _, _. split; [vm_compute; reflexivity|].
  split; [vm_compute; reflexivity|].
  split; [vm_compute; reflexivity|].
  repeat constructor; discriminate.
Qed.

(** ** [AddClasses] *)

Definition flex_node : Node unit := set_Classes "flex" (zeroNode "div").

(** C8. [AddClasses] with a class that the node already has appends it a
    second time, and [AddClasses] with no class, or with an empty one,
    appends a space: the class string changes in each case. *)
Theorem AddClasses_appends_again :
  Classes (AddClasses ["flex"] flex_node) = "flex flex" /\
  Classes (AddClasses [] flex_node) = "flex " /\
  Classes (AddClasses [""] flex_node) = "flex " /\
  Classes (AddClasses ["flex"] (AddClasses ["flex"] flex_node))
    <> Classes (AddClasses ["flex"] flex_node).
Proof. repeat split; vm_compute; congruence. Qed.

(** ** The entity tree: [locate], [children], [reuse] *)

Section EtreeFacts.
Context {H : Type}.
Implicit Types (t : etree H) (g sub : list (prenode H)) (r : prenode H).

Lemma locate_from_absent g nt i :
  (0 <= i)%Z -> locate_from g nt i = (-1)%Z -> Forall (fun r => ntt r <> nt) g.
Proof.
  revert i. induction g as [|r g IH]; intros i Hi Hl; [constructor|].
  simpl in Hl. destruct (Z.eqb_spec (ntt r) nt) as [Heq|Hne]; [lia|].
  constructor; [done|]. apply (IH (i + 1)%Z); [lia|done].
Qed.

Lemma locate_from_range g nt i :
  (0 <= i)%Z ->
  locate_from g nt i = (-1)%Z \/
  (i <= locate_from g nt i < i + Z.of_nat (length g))%Z.
Proof.
  revert i. induction g as [|r g IH]; intros i Hi; simpl; [by left|].
  destruct (Z.eqb_spec (ntt r) nt); [right; lia|].
  destruct (IH (i + 1)%Z) as [->|?]; [lia|by left|right; lia].
Qed.

Lemma locate_from_found g nt i j :
  (0 <= i)%Z -> locate_from g nt i = j -> j <> (-1)%Z ->
  exists r, g !! Z.to_nat (j - i) = Some r /\ ntt r = nt.
Proof.
  revert i. induction g as [|r g IH]; intros i Hi Hl Hj; simpl in Hl; [lia|].
  destruct (Z.eqb_spec (ntt r) nt) as [Heq|Hne].
  - subst j. exists r. by replace (i - i)%Z with 0%Z by lia.
  - destruct (IH (i + 1)%Z) as (r' & Hr' & Hnt); [lia|done|done|].
    exists r'. split; [|done].
    destruct (locate_from_range g nt (i + 1)%Z) as [?|?]; [lia|congruence|].
    replace (Z.to_nat (j - i)) with (S (Z.to_nat (j - (i + 1)))) by lia.
    done.
Qed.

(** The subtree that [children] returns starts at the record of [nt]. *)
Lemma children_head t nt r sub :
  children t nt = Ok (r :: sub) -> ntt r = nt.
Proof.
  unfold children, locate. intros Hc.
  destruct (Z.eqb_spec (locate_from (g1 t) nt 0) (-1)); [done|].
  destruct (locate_from_found (g1 t) nt 0%Z _ ltac:(lia) eq_refl n)
    as (r0 & Hr0 & Hnt).
  rewrite Z.sub_0_r in Hr0. rewrite Hr0 in Hc.
  destruct (_ <=? _); [|done].
  injection Hc as Hc. apply (f_equal head) in Hc.
  destruct (scp r0) as [|k]; [done|].
  rewrite (drop_S _ r0 _ Hr0) in Hc. simpl in Hc. congruence.
Qed.

(** [children] never panics with the assertion of [reuse]; an absent
    entity gives the empty slice. *)
Lemma children_absent t nt : locate t nt = (-1)%Z -> children t nt = Ok [].
Proof. unfold children. by intros ->. Qed.

(** The loop of [reuse] from the second record on. *)
Lemma reuse_loop_tail {St} (it : Entity -> Entity -> St -> St) to i sub c s :
  reuse_loop it to (S i) sub c s =
    (zip_with set_ntt (minted c (length sub)) sub,
     Inc_n (length sub) c,
     visit it (changes sub (minted c (length sub))) s).
Proof.
  revert i c s. induction sub as [|r sub IH]; intros i c s; [done|].
  cbn [reuse_loop Nat.eqb]. unfold Inc. cbv zeta. rewrite IH.
  cbn [length minted Inc_n zip_with Inc fst snd]. unfold Inc. cbn [fst snd].
  f_equal. unfold changes, visit, ids. cbn [map zip zip_with].
  rewrite filter_cons. cbn [fst snd].
  by destruct (Z.eqb_spec (uint32 (c + 2)) (ntt r)).
Qed.

(** [reuse], for every callback: the records appended, the counter and
    the calls made. *)
Lemma reuse_spec {St} (it : Entity -> Entity -> St -> St) t from to c s sub :
  children t from = Ok sub ->
  reuse t from to c it s =
    Ok (mkEtree (g0 t ++ zip_with set_ntt (new_ids to c (length sub)) sub)
                (g1 t),
        Inc_n (length sub - 1) c,
        visit it (changes sub (new_ids to c (length sub))) s).
Proof.
  intros Hc. unfold reuse. 
  replace (Z.of_nat (length (g0 t)) =? -1)%Z with false by (symmetry; apply Z.eqb_neq; lia).
  simpl. rewrite Hc. simpl.
  destruct sub as [|r sub]; [done|].
  cbn [reuse_loop Nat.eqb]. rewrite reuse_loop_tail.
  cbn [length new_ids zip_with].
  replace (S (length sub) - 1) with (length sub) by lia.
  do 2 f_equal. unfold changes, visit, ids. cbn [map zip zip_with].
  rewrite filter_cons. cbn [fst snd].
  by destruct (Z.eqb_spec to (ntt r)).
Qed.

(** *** The counter *)

Lemma Inc_parity c : ((Inc c).1 mod 2 = c mod 2)%Z.
Proof.
  unfold Inc, uint32. cbn [fst].
  rewrite Z.mod_mod_divide by (exists (2 ^ 31)%Z; lia).
  rewrite <- Z.add_mod_idemp_r by lia. simpl (2 mod 2)%Z.
  by rewrite Z.add_0_r.
Qed.

Lemma Inc_returns c : (Inc c).2 = (Inc c).1.
Proof. done. Qed.

Lemma minted_length c n : length (minted c n) = n.
Proof. revert c. induction n as [|n IH]; intros c; simpl; [done|by rewrite IH]. Qed.

Lemma minted_parity c n : Forall (fun x => (x mod 2 = c mod 2)%Z) (minted c n).
Proof.
  revert c. induction n as [|n IH]; intros c; simpl; constructor.
  - apply Inc_parity.
  - eapply Forall_impl; [apply IH|]. intros x Hx. simpl in Hx.
    rewrite Hx. apply Inc_parity.
Qed.

(** Below the wrap-around [Inc] adds two. *)
Lemma Inc_nowrap c : (0 <= c)%Z -> (c + 2 < 2 ^ 32)%Z -> Inc c = ((c + 2)%Z, (c + 2)%Z).
Proof. intros H0 Hw. unfold Inc, uint32. by rewrite Z.mod_small by lia. Qed.

Lemma Inc_n_nowrap n : forall c,
  (0 <= c)%Z -> (c + 2 * Z.of_nat n < 2 ^ 32)%Z ->
  Inc_n n c = (c + 2 * Z.of_nat n)%Z.
Proof.
  induction n as [|n IH]; intros c H0 Hw; cbn [Inc_n]; [lia|].
  rewrite Inc_nowrap by lia. cbn [fst]. rewrite IH by lia. lia.
Qed.

(** Below the wrap-around the minted identities grow strictly. *)
Lemma minted_nowrap c n :
  (0 <= c)%Z -> (c + 2 * Z.of_nat n < 2 ^ 32)%Z ->
  Forall (fun x => (c < x)%Z) (minted c n) /\ NoDup (minted c n).
Proof.
  revert c. induction n as [|n IH]; intros c H0 Hw; simpl.
  { split; constructor. }
  assert (Hc : uint32 (c + 2) = (c + 2)%Z).
  { unfold uint32. apply Z.mod_small. lia. }
  rewrite Hc. destruct (IH (c + 2)%Z) as [Hlt Hnd]; [lia|lia|].
  split.
  - constructor; [lia|]. eapply Forall_impl; [exact Hlt|]. simpl. lia.
  - constructor; [|done]. intros Hin.
    rewrite Forall_forall in Hlt. specialize (Hlt _ Hin). lia.
Qed.

(** *** Renaming *)

Lemma ids_renamed news sub :
  length news = length sub -> ids (zip_with set_ntt news sub) = news.
Proof.
  revert sub. induction news as [|x news IH]; intros [|r sub] Hl;
    simpl in *; try done. f_equal. apply IH. lia.
Qed.

Lemma scp_renamed news sub :
  length news = length sub -> map scp (zip_with set_ntt news sub) = map scp sub.
Proof.
  revert sub. induction news as [|x news IH]; intros [|r sub] Hl;
    simpl in *; try done. f_equal. apply IH. lia.
Qed.

Lemma phdl_renamed news sub :
  length news = length sub ->
  map phdl (zip_with set_ntt news sub) = map phdl sub.
Proof.
  revert sub. induction news as [|x news IH]; intros [|r sub] Hl;
    simpl in *; try done. f_equal. apply IH. lia.
Qed.

Lemma new_ids_length to c k : length (new_ids to c k) = k.
Proof. destruct k; simpl; [done|by rewrite minted_length]. Qed.

(** Records of the other parity all change identity. *)
Lemma changes_other_parity sub c :
  Forall (fun r => (ntt r mod 2 <> c mod 2)%Z) sub ->
  length (changes sub (minted c (length sub))) = length sub.
Proof.
  revert c. induction sub as [|r sub IH]; intros c Hp; [done|].
  inversion Hp as [|? ? Hr Hsub]; subst.
  unfold changes, ids in *. cbn [length minted map zip zip_with].
  rewrite filter_cons. cbn [fst snd].
  pose proof (Inc_parity c) as HI. rewrite <- Inc_returns in HI.
  destruct (Z.eqb_spec (Inc c).2 (ntt r)) as [Heq|Hne]; simpl.
  - rewrite Heq in HI. congruence.
  - f_equal. apply IH. eapply Forall_impl; [exact Hsub|].
    intros x Hx. simpl in Hx. change (uint32 (c + 2)) with (Inc c).1.
    by rewrite Inc_parity.
Qed.

(** C3. A reuse of [from], whose recorded subtree [sub] has [k] records,
    appends [k] records that differ from [sub] in their identity only; the
    topmost is renamed to [to] and every other one to the next identity of
    the counter; the callback is called, in order, on exactly the pairs
    (old, new) of the records whose identity changed, which makes [k]
    calls, or [k - 1] when [to] is [from]; and the current generation has
    no duplicate afterwards. The hypotheses are what the render cycle
    provides: the previous generation has the other parity, and the
    counter is ahead of every identity of the current generation. *)
Theorem reuse_renames_subtree {St} (it : Entity -> Entity -> St -> St)
    t from to c s sub :
  children t from = Ok sub ->
  Forall (fun r => (ntt r mod 2 <> c mod 2)%Z) (tail sub) ->
  NoDup (ids (g0 t)) ->
  to ∉ ids (g0 t) ->
  Forall (fun x => (x <= c)%Z) (to :: ids (g0 t)) ->
  (0 <= c)%Z ->
  (c + 2 * Z.of_nat (length sub) < 2 ^ 32)%Z ->
  exists sub' pairs c',
    reuse t from to c it s
      = Ok (mkEtree (g0 t ++ sub') (g1 t), c', visit it pairs s) /\
    length sub' = length sub /\
    map scp sub' = map scp sub /\
    map phdl sub' = map phdl sub /\
    ids sub' = new_ids to c (length sub) /\
    c' = Inc_n (length sub - 1) c /\
    pairs = changes sub (ids sub') /\
    length pairs = length sub - (if (to =? from)%Z then 1 else 0) /\
    NoDup (ids (g0 t ++ sub')).
Proof.
  intros Hc Hpar Hnd Hto Hle H0 Hw.
  pose proof (new_ids_length to c (length sub)) as Hlen.
  eexists _, _, _. split; [by apply reuse_spec|].
  rewrite ids_renamed by done.
  split; [by rewrite length_zip_with, Hlen, Nat.min_id|].
  split; [by apply scp_renamed|]. split; [by apply phdl_renamed|].
  split; [done|]. split; [done|]. split; [done|]. split.
  - destruct sub as [|r sub]; [done|].
    apply children_head in Hc. simpl in Hpar.
    unfold changes, ids. cbn [length new_ids map zip zip_with].
    rewrite filter_cons. cbn [fst snd]. rewrite Hc.
    pose proof (changes_other_parity sub c Hpar) as Hch.
    unfold changes, ids in Hch.
    destruct (Z.eqb_spec to from);
      (destruct (decide _) as [Hd|Hd]; simpl in Hd; [|try done]);
      cbn [length]; try done.
    + transitivity (length sub); [exact Hch|lia].
    + transitivity (S (length sub)); [f_equal; exact Hch|lia].
  - unfold ids. rewrite map_app. fold (ids (g0 t)).
    change (map ntt ?l) with (ids l). rewrite ids_renamed by done.
    inversion Hle as [|? ? Htoc Hg0c]; subst.
    apply NoDup_app. split; [done|]. 
    destruct (length sub) as [|k] eqn:Hk; simpl.
    { split; [|constructor]. intros x _ Hin. by apply elem_of_nil in Hin. }
    destruct (minted_nowrap c k) as [Hgt Hndm]; [lia|lia|].
    rewrite Forall_forall in Hgt, Hg0c.
    split.
    + intros x Hx Hin. apply elem_of_cons in Hin as [->|Hin]; [done|].
      specialize (Hgt _ Hin). specialize (Hg0c _ Hx). simpl in *. lia.
    + constructor; [|done]. intros Hin. specialize (Hgt _ Hin). lia.
Qed.

End EtreeFacts.

Definition reuse_example : etree unit :=
  mkEtree [mkPrenode 2%Z 1 noHandlers]
          [mkPrenode 1%Z 2 noHandlers; mkPrenode 3%Z 1 noHandlers].

Lemma reuse_renames_subtree_witness :
  exists sub' pairs c',
    reuse reuse_example 1%Z 4%Z 4%Z (fun _ _ (n : nat) => S n) 0
      = Ok (mkEtree (g0 reuse_example ++ sub') (g1 reuse_example), c',
            visit (fun _ _ (n : nat) => S n) pairs 0) /\
    length sub' = 2 /\
    map scp sub' = [2; 1] /\
    map phdl sub' = [noHandlers; noHandlers] /\
    ids sub' = [4%Z; 6%Z] /\
    c' = 6%Z /\
    pairs = changes (g1 reuse_example) (ids sub') /\
    length pairs = 2 /\
    NoDup (ids (g0 reuse_example ++ sub')).
Proof.
  apply (reuse_renames_subtree (fun _ _ (n : nat) => S n) reuse_example
           1%Z 4%Z 4%Z 0 (g1 reuse_example)).
  - reflexivity.
  - repeat constructor. vm_compute. discriminate.
  - repeat constructor. apply (bool_decide_unpack _). vm_compute. reflexivity.
  - apply (bool_decide_unpack _). vm_compute. reflexivity.
  - repeat constructor; vm_compute; discriminate.
  - lia.
  - vm_compute. reflexivity.
Defined.

(** ** Outcomes and loops *)

Lemma bind_Ok {A B} (m : outcome A) (k : A -> outcome B) b :
  bind m k = Ok b <-> exists a, m = Ok a /\ k a = Ok b.
Proof.
  destruct m; simpl; split; try (intros (? & ? & ?)); try done; eauto.
  by simplify_eq.
Qed.

Lemma foldM_app {A St} (f : A -> St -> outcome St) cs1 cs2 s :
  foldM f (cs1 ++ cs2) s = bind (foldM f cs1 s) (foldM f cs2).
Proof.
  revert s. induction cs1 as [|c cs1 IH]; intros s; simpl; [done|].
  destruct (f c s); simpl; [apply IH|done|done].
Qed.

(** A relation that every step of a loop respects holds across the loop. *)
Lemma foldM_rel {A St} (R : St -> St -> Prop) (f : A -> St -> outcome St) cs :
  (forall s, R s s) -> (forall s1 s2 s3, R s1 s2 -> R s2 s3 -> R s1 s3) ->
  (forall c s s', c ∈ cs -> f c s = Ok s' -> R s s') ->
  forall s s', foldM f cs s = Ok s' -> R s s'.
Proof.
  intros Hrefl Htrans. induction cs as [|c cs IH]; intros Hf s s' Hfold; simpl in *.
  - by simplify_eq.
  - apply bind_Ok in Hfold as (s1 & H1 & H2).
    eapply Htrans; [eapply Hf; [left|done]|].
    eapply IH; [|done]. intros. eapply Hf; [by right|done].
Qed.

(** A loop that succeeds, succeeded on a prefix and then on each element. *)
Lemma foldM_Ok_split {A St} (f : A -> St -> outcome St) cs1 c cs2 s s' :
  foldM f (cs1 ++ c :: cs2) s = Ok s' ->
  exists s1 s2, foldM f cs1 s = Ok s1 /\ f c s1 = Ok s2 /\ foldM f cs2 s2 = Ok s'.
Proof.
  rewrite foldM_app. intros (s1 & H1 & H2)%bind_Ok. simpl in H2.
  apply bind_Ok in H2 as (s2 & H2 & H3). eauto.
Qed.


Lemma foldM_OutOfFuel_inv {A St} (f : A -> St -> outcome St) cs s :
  foldM f cs s = OutOfFuel ->
  exists cs1 c cs2 s1,
    cs = cs1 ++ c :: cs2 /\ foldM f cs1 s = Ok s1 /\ f c s1 = OutOfFuel.
Proof.
  revert s. induction cs as [|c cs IH]; intros s Hf; simpl in Hf; [done|].
  destruct (f c s) as [s1| |] eqn:Hc; simpl in Hf; [|done|].
  - destruct (IH _ Hf) as (cs1 & c' & cs2 & s2 & -> & H1 & H2).
    exists (c :: cs1), c', cs2, s2. simpl. rewrite Hc. done.
  - by exists [], c, cs, s.
Qed.

Lemma foldM_ext_Ok {A St} (f g : A -> St -> outcome St) cs s s' :
  (forall c s s', c ∈ cs -> g c s = Ok s' -> f c s = Ok s') ->
  foldM g cs s = Ok s' -> foldM f cs s = Ok s'.
Proof.
  revert s. induction cs as [|c cs IH]; intros s Hfg Hfold; simpl in *; [done|].
  apply bind_Ok in Hfold as (s1 & H1 & H2). apply bind_Ok. exists s1. split.
  - apply Hfg; [left|done].
  - apply IH; [|done]. intros. apply Hfg; [by right|done].
Qed.

(** ** One call of [serialize] *)

Section SerializeFacts.
Context {H : Type}.
Implicit Types (s : sstate H) (nd : Node H) (h : list (Node H)).

Lemma node_le_refl nd : node_le nd nd.
Proof. unfold node_le. tauto. Qed.

Lemma node_le_trans nd1 nd2 nd3 :
  node_le nd1 nd2 -> node_le nd2 nd3 -> node_le nd1 nd3.
Proof.
  unfold node_le.
  intros (?&?&?&?&?&?&?&Hh&He&Hv) (?&?&?&?&?&?&?&Hh'&He'&Hv').
  repeat split; try congruence.
  - destruct He' as [He'|[He' ?]]; [rewrite He'; tauto|].
    destruct He as [He|?]; [|tauto]. right. split; congruence.
  - intros Hvis. specialize (Hv Hvis). subst nd2. auto.
Qed.

Lemma heap_le_refl h : heap_le h h.
Proof. split; [done|]. intros q nd Hq. exists nd. split; [done|apply node_le_refl]. Qed.

Lemma heap_le_trans h1 h2 h3 : heap_le h1 h2 -> heap_le h2 h3 -> heap_le h1 h3.
Proof.
  intros [Hl1 H1] [Hl2 H2]. split; [congruence|].
  intros q nd Hq. destruct (H1 _ _ Hq) as (nd' & Hq' & Hle).
  destruct (H2 _ _ Hq') as (nd'' & Hq'' & Hle').
  exists nd''. split; [done|]. by eapply node_le_trans.
Qed.

(** Writing an unmarked node with a later version of itself. *)
Lemma heap_le_insert h p nd nd' :
  h !! p = Some nd -> node_le nd nd' -> heap_le h (<[p := nd']> h).
Proof.
  intros Hp Hle. split; [apply length_insert|].
  intros q ndq Hq. destruct (decide (q = p)) as [->|Hne].
  - exists nd'. rewrite list_lookup_insert_eq by (by eapply lookup_lt_Some).
    split; [done|congruence].
  - exists ndq. rewrite list_lookup_insert_ne by done.
    split; [done|apply node_le_refl].
Qed.

Lemma node_le_mark nd : visited nd = false -> node_le nd (set_visited true nd).
Proof. intros Hv. unfold node_le. simpl. rewrite Hv. repeat split; auto. done. Qed.

(** What [open_element] returns when it does not panic. *)
Lemma open_element_Ok p nd s s' idx :
  open_element p nd s = Ok (s', idx) ->
  exists (courtesy : bool) (e : Entity),
  courtesy = (NEntity nd =? 0)%Z && hdl_Some (hdl nd) /\
  e = (if courtesy then (Inc (ctr s)).2 else NEntity nd) /\
  heap s' = (if courtesy then <[p := set_Entity e nd]> (heap s) else heap s) /\
  ctr s' = (if courtesy then (Inc (ctr s)).1 else ctr s) /\
  g1 (tree s') = g1 (tree s) /\
  (if (e =? 0)%Z
   then g0 (tree s') = g0 (tree s) /\ idx = 0
   else (e < 10240)%Z /\ idx = length (g0 (tree s)) /\
        g0 (tree s') =
          g0 (tree s) ++
            [mkPrenode e 0 (if hdl_Some (hdl nd) then hdl nd else noHandlers)]) /\
  vm s' = open_vm nd e (vm s).
Proof.
  unfold open_element, open_vm. intros Ho. eexists _, _.
  split; [reflexivity|]. split; [reflexivity|].
  destruct ((NEntity nd =? 0)%Z && hdl_Some (hdl nd)) eqn:Hco.
  - unfold Inc in *. cbv zeta in *. cbn [fst snd] in *.
    cbn [ctr set_vm] in *.
    set (e := uint32 (ctr s + 2)) in *.
    cbn [NEntity set_Entity hdl] in Ho.
    apply andb_prop in Hco as [_ Hh]. rewrite Hh in Ho.
    destruct (Z.eqb_spec e 0) as [He|He]; cbn [negb] in Ho.
    + simpl in Ho. simplify_eq; simpl; rewrite ?Hh; repeat split; done.
    + unfold add, assert in Ho. cbn [tree set_vm set_heap set_ctr] in Ho.
      destruct (Z.ltb_spec e 10240); [|done].
      unfold addHandler in Ho. simpl in Ho.
      rewrite length_app, Nat.add_1_r in Ho; simpl in Ho.
      rewrite alter_app_r_alt, Nat.sub_diag in Ho by lia; simpl in Ho.
      simplify_eq; simpl; rewrite ?Hh; repeat split; done.
  - destruct (Z.eqb_spec (NEntity nd) 0) as [He|He]; cbn [negb] in Ho.
    + simpl in Ho. simplify_eq; simpl; rewrite ?Hh; repeat split; done.
    + simpl in Hco. unfold add, assert in Ho.
      destruct (Z.ltb_spec (NEntity nd) 10240); [|done].
      unfold addHandler in Ho.
      destruct (hdl_Some (hdl nd)) eqn:Hh; simpl in Ho;
        rewrite ?length_app, ?Nat.add_1_r in Ho; simpl in Ho;
        rewrite ?alter_app_r_alt, ?Nat.sub_diag in Ho by lia; simpl in Ho;
        simplify_eq; simpl; rewrite ?Hh; repeat split; done.
Qed.

Lemma close_element_Ok p idx s s' :
  close_element p idx s = Ok s' ->
  exists nd, heap s !! p = Some nd /\
    heap s' = heap s /\ ctr s' = ctr s /\ g1 (tree s') = g1 (tree s) /\
    vm s' = AddInstr (vm s) OpNext [] /\
    (if (NEntity nd =? 0)%Z then g0 (tree s') = g0 (tree s)
     else idx < length (g0 (tree s)) /\
          g0 (tree s') =
            alter (set_scp (length (g0 (tree s)) - idx)) idx (g0 (tree s))).
Proof.
  unfold close_element. destruct (heap s !! p) as [nd|]; [|done].
  intros Hc. exists nd. split; [done|].
  destruct (Z.eqb_spec (NEntity nd) 0); simpl in Hc.
  - by simplify_eq.
  - unfold closeScope in Hc. destruct (Nat.ltb_spec idx (length (g0 (tree s))));
      simpl in Hc; by simplify_eq.
Qed.

(** The loop over the children of a "nothing" node checks each child
    before the call. *)
Definition checked (f : option nat -> sstate H -> outcome (sstate H))
    (c : option nat) (s : sstate H) : outcome (sstate H) :=
  do _ <~ assert (bool_decide (c <> None)) NilChild ; f c s.

Lemma checked_Ok f c s s' : checked f c s = Ok s' <-> c <> None /\ f c s = Ok s'.
Proof.
  unfold checked, assert. case_bool_decide; simpl; split; try tauto; try done.
Qed.

Lemma foldM_checked_Ok f cs s s' :
  foldM (checked f) cs s = Ok s' <->
  Forall (fun c => c <> None) cs /\ foldM f cs s = Ok s'.
Proof.
  revert s. induction cs as [|c cs IH]; intros s; simpl.
  - split; [by intros ->|by intros []].
  - rewrite !bind_Ok. split.
    + intros (s1 & [Hc H1]%checked_Ok & [HF H2]%IH).
      split; [by constructor|eauto].
    + intros [HF (s1 & H1 & H2)]. inversion HF; subst.
      exists s1. split; [by apply checked_Ok|by apply IH].
Qed.

(** The three ways in which a call of [serialize] succeeds. *)
Lemma serialize_Ok_inv fuel n s s' :
  serialize (S fuel) n s = Ok s' ->
  exists p nd,
    n = Some p /\ heap s !! p = Some nd /\ visited nd = false /\
    TagName nd <> "" /\
    let nd1 := set_visited true nd in
    let s1 := set_heap (<[p := nd1]> (heap s)) s in
    (TagName nd = "nothing" /\
     Forall (fun c => c <> None) (Children nd) /\
     foldM (serialize fuel) (Children nd) s1 = Ok s')
    \/ (TagName nd = "reuse" /\
        exists t c vm2,
          reuse (tree s) (old nd) (NEntity nd) (ctr s) emit_ReID
                (AddInstr (vm s) OpReuse [FormatUint (old nd)])
            = Ok (t, c, vm2) /\
          s' = mkS (heap s1) t c vm2)
    \/ (TagName nd <> "nothing" /\ TagName nd <> "reuse" /\
        exists s2 idx s3,
          open_element p nd1 s1 = Ok (s2, idx) /\
          foldM (serialize fuel) (Children nd) s2 = Ok s3 /\
          close_element p idx s3 = Ok s').
Proof.
  cbn [serialize]. destruct n as [p|]; [|done].
  destruct (heap s !! p) as [nd|] eqn:Hp; [|done].
  destruct (visited nd) eqn:Hv; [done|].
  cbn [TagName set_visited Children old NEntity].
  destruct (String.eqb_spec (TagName nd) "") as [|Hne]; [done|].
  intros Hs. exists p, nd. do 4 (split; [done|]). cbv zeta.
  destruct (String.eqb_spec (TagName nd) "nothing") as [Hn|Hn].
  { left. split; [done|]. by apply foldM_checked_Ok in Hs. }
  destruct (String.eqb_spec (TagName nd) "reuse") as [Hr|Hr].
  { right; left. split; [done|].
    apply bind_Ok in Hs as ([[t c] vm2] & Hre & Hs). simplify_eq.
    by exists t, c, vm2. }
  right; right. do 2 (split; [done|]).
  apply bind_Ok in Hs as ([s2 idx] & Ho & Hs).
  apply bind_Ok in Hs as (s3 & Hf & Hs).
  by exists s2, idx, s3.
Qed.


Lemma pass_le_refl s : pass_le s s.
Proof.
  split; [apply heap_le_refl|]. split; [done|]. exists []. by rewrite app_nil_r.
Qed.

Lemma pass_le_trans s1 s2 s3 : pass_le s1 s2 -> pass_le s2 s3 -> pass_le s1 s3.
Proof.
  intros (Hh & Hg & K & HK) (Hh' & Hg' & K' & HK').
  split; [by eapply heap_le_trans|]. split; [congruence|].
  exists (K ++ K'). by rewrite HK', HK, app_assoc.
Qed.

(** Marking a node and opening its element. *)
Lemma open_marked p nd s s2 idx :
  heap s !! p = Some nd -> visited nd = false ->
  open_element p (set_visited true nd)
               (set_heap (<[p := set_visited true nd]> (heap s)) s)
    = Ok (s2, idx) ->
  exists (courtesy : bool) (e : Entity) nd2,
    courtesy = (NEntity nd =? 0)%Z && hdl_Some (hdl nd) /\
    e = (if courtesy then (Inc (ctr s)).2 else NEntity nd) /\
    nd2 = set_Entity e (set_visited true nd) /\
    heap s2 = <[p := nd2]> (heap s) /\
    heap_le (heap s) (heap s2) /\
    ctr s2 = (if courtesy then (Inc (ctr s)).1 else ctr s) /\
    g1 (tree s2) = g1 (tree s) /\
    (if (e =? 0)%Z
     then g0 (tree s2) = g0 (tree s) /\ idx = 0
     else (e < 10240)%Z /\ idx = length (g0 (tree s)) /\
          g0 (tree s2) =
            g0 (tree s) ++
              [mkPrenode e 0 (if hdl_Some (hdl nd) then hdl nd else noHandlers)]) /\
    vm s2 = open_vm nd e (vm s).
Proof.
  intros Hp Hv Ho.
  apply open_element_Ok in Ho as (co & e & Hco & He & Hh & Hc & Hg1 & Hg0 & Hvm).
  cbn [NEntity set_visited hdl heap ctr tree set_heap vm] in *.
  pose proof (lookup_lt_Some _ _ _ Hp) as Hlt.
  exists co, e, (set_Entity e (set_visited true nd)).
  do 3 (split; [done|]).
  assert (heap s2 = <[p:=set_Entity e (set_visited true nd)]> (heap s)) as Hh2.
  { rewrite Hh. destruct co; [by rewrite list_insert_insert_eq|].
    subst e. by destruct nd. }
  split; [done|]. split; [|done].
  rewrite Hh2. eapply heap_le_insert; [done|].
  unfold node_le. simpl. rewrite Hv. repeat split; auto; try done.
  subst e. destruct co; [|by left]. right.
  symmetry in Hco. by apply andb_prop in Hco as [He0%Z.eqb_eq Hs].
Qed.

Lemma open_marked_pass_le p nd s s2 idx :
  heap s !! p = Some nd -> visited nd = false ->
  open_element p (set_visited true nd)
               (set_heap (<[p := set_visited true nd]> (heap s)) s)
    = Ok (s2, idx) ->
  pass_le s s2.
Proof.
  intros Hp Hv Ho.
  apply open_marked in Ho
    as (co & e & nd2 & _ & _ & _ & _ & Hle & _ & Hg1 & Hg0 & _); [|done..].
  split; [done|]. split; [done|].
  destruct (e =? 0)%Z.
  - exists []. rewrite app_nil_r. tauto.
  - destruct Hg0 as (_ & _ & ->). eauto.
Qed.

(** A successful call leaves a later state of the same pass, in which
    the node it was called on is marked. *)
Lemma serialize_pass_le fuel n s s' :
  serialize fuel n s = Ok s' ->
  pass_le s s' /\
  exists p nd', n = Some p /\ heap s' !! p = Some nd' /\ visited nd' = true.
Proof.
  revert n s s'. induction fuel as [|fuel IH]; intros n s s' Hs; [done|].
  apply serialize_Ok_inv in Hs
    as (p & nd & -> & Hp & Hv & Htag & [(_ & _ & Hf)|[(_ & Hr)|(_ & _ & Hg)]]).
  - (* nothing *)
    pose proof (lookup_lt_Some _ _ _ Hp) as Hlt.
    assert (pass_le (set_heap (<[p:=set_visited true nd]> (heap s)) s) s') as Hle.
    { eapply (foldM_rel pass_le); [apply pass_le_refl|apply pass_le_trans| |exact Hf].
      intros c s1 s2 _ Hc. by apply IH in Hc as [? _]. }
    assert (pass_le s (set_heap (<[p:=set_visited true nd]> (heap s)) s)) as Hle0.
    { split; [|split; [done|exists []; by rewrite app_nil_r]].
      eapply heap_le_insert; [done|by apply node_le_mark]. }
    split; [by eapply pass_le_trans|].
    destruct Hle as ([_ Hle] & _). 
    destruct (Hle p (set_visited true nd)) as (nd' & Hp' & Hnd').
    { simpl. by rewrite list_lookup_insert_eq. }
    exists p, nd'. do 2 (split; [done|]).
    destruct Hnd' as (_&_&_&_&_&_&_&_&_&Hvis). by rewrite Hvis.
  - (* reuse *)
    destruct Hr as (t & c & vm2 & Hr & ->).
    pose proof (lookup_lt_Some _ _ _ Hp) as Hlt.
    unfold reuse in Hr. apply bind_Ok in Hr as (_ & _ & Hr).
    apply bind_Ok in Hr as (sub & _ & Hr).
    destruct (reuse_loop _ _ _ _ _ _) as [[sub' c'] vm']. simplify_eq.
    split.
    + split; [|split; [done|by eexists]].
      eapply heap_le_insert; [done|by apply node_le_mark].
    + eexists p, _. split; [done|]. simpl.
      by rewrite list_lookup_insert_eq.
  - (* an ordinary element *)
    destruct Hg as (s2 & idx & s3 & Ho & Hf & Hc).
    pose proof (lookup_lt_Some _ _ _ Hp) as Hlt.
    pose proof (open_marked_pass_le _ _ _ _ _ Hp Hv Ho) as Hle2.
    apply open_marked in Ho
      as (co & e & nd2 & _ & _ & Hnd2 & Hh2 & _ & _ & _ & Hg0 & _); [|done..].
    assert (heap s2 !! p = Some nd2) as Hp2.
    { rewrite Hh2. by rewrite list_lookup_insert_eq. }
    assert (pass_le s2 s3) as Hle3.
    { eapply (foldM_rel pass_le); [apply pass_le_refl|apply pass_le_trans| |exact Hf].
      intros c s1' s2' _ Hc'. by apply IH in Hc' as [? _]. }
    pose proof (pass_le_trans _ _ _ Hle2 Hle3) as (Hh & Hg1 & K & HK).
    apply close_element_Ok in Hc as (nd3 & Hp3 & Hh' & _ & Hg1' & _ & Hg0').
    assert (nd3 = nd2) as ->.
    { destruct Hle3 as ([_ Hle3] & _).
      destruct (Hle3 _ _ Hp2) as (nd' & Hp' & Hnd').
      destruct Hnd' as (_&_&_&_&_&_&_&_&_&Hvis).
      rewrite Hvis in Hp' by (by subst nd2). congruence. }
    assert (NEntity nd2 = e) as HeE by (by subst nd2).
    rewrite HeE in Hg0'.
    split.
    + split; [by rewrite Hh'|]. split; [congruence|].
      destruct (e =? 0)%Z; [exists K; congruence|].
      destruct Hg0' as [Hidx ->]. destruct Hg0 as (_ & -> & Hg0).
      destruct Hle3 as (_ & _ & K3 & HK3). rewrite HK3, Hg0.
      rewrite <- app_assoc. rewrite alter_app_r_alt by lia.
      eauto.
    + exists p, nd2. split; [done|]. rewrite Hh'. split; [done|by subst nd2].
Qed.


(** ** A reuse of an entity that the previous generation does not have *)

(** C10. When the source entity of a "reuse" node is absent from the
    previous generation, [serialize] succeeds: it appends to the program
    the bytes of the reuse instruction (the opcode 6, the length of the
    decimal name of the entity on 16 bits, big-endian, and the name) and
    nothing else, and leaves the entity tree and the counter as they
    were; [reuse] appends no record and never calls its callback; and the
    assertion of [reuse] fires on no input. *)
Theorem reuse_absent_entity fuel s p nd :
  heap s !! p = Some nd -> visited nd = false -> TagName nd = "reuse" ->
  locate (tree s) (old nd) = (-1)%Z ->
  serialize (S fuel) (Some p) s
    = Ok (mkS (<[p := set_visited true nd]> (heap s)) (tree s) (ctr s)
              (vm s ++ [6%Z;
                        Z.shiftr (uint16 (len (FormatUint (old nd)))) 8;
                        Z.land (uint16 (len (FormatUint (old nd)))) 255]
                    ++ bytes_of (FormatUint (old nd)))) /\
  (forall St (it : Entity -> Entity -> St -> St) to c st,
      reuse (tree s) (old nd) to c it st = Ok (tree s, c, st)) /\
  (forall St (it : Entity -> Entity -> St -> St) (t : etree H) from to c st,
      reuse t from to c it st <> Panic ReusingInvalidEntity).
Proof.
  intros Hp Hv Htag Hloc.
  assert (forall St (it : Entity -> Entity -> St -> St) to c st,
             reuse (tree s) (old nd) to c it st = Ok (tree s, c, st)) as Hre.
  { intros. rewrite (reuse_spec _ _ _ _ _ _ []) by by apply children_absent.
    simpl. rewrite app_nil_r. by destruct (tree s). }
  split; [|split; [done|]].
  - cbn [serialize]. rewrite Hp, Hv.
    cbn [TagName set_visited old NEntity]. rewrite Htag. simpl.
    rewrite Hre. cbn [bind]. do 2 f_equal.
    unfold AddInstr, AddInstr_vals, AppendUint16.
    by rewrite <- !app_assoc.
  - intros St it t from to c st. unfold reuse, assert.
    replace (Z.of_nat (length (g0 t)) =? -1)%Z with false
      by (symmetry; apply Z.eqb_neq; lia).
    simpl. unfold children.
    destruct (_ =? -1)%Z; simpl.
    { done. }
    destruct (g1 t !! _) as [r|]; [|done].
    destruct (_ <=? _); simpl; [|done].
    by destruct (reuse_loop it to 0 _ c st) as [[??]?].
Qed.

(** ** Marks and positions *)

Lemma heap_le_visited h h' q nd :
  heap_le h h' -> h !! q = Some nd -> visited nd = true -> h' !! q = Some nd.
Proof.
  intros [_ Hle] Hq Hv. destruct (Hle _ _ Hq) as (nd' & Hq' & Hnd').
  destruct Hnd' as (_&_&_&_&_&_&_&_&_&Hvis). by rewrite <- (Hvis Hv).
Qed.

Lemma heap_le_resolve h h' q path :
  heap_le h h' -> resolve h q path = resolve h' q path.
Proof.
  intros Hle. revert q. induction path as [|i path IH]; intros q; [done|].
  simpl. destruct (h !! q) as [nd|] eqn:Hq.
  - destruct Hle as [_ Hle]. destruct (Hle _ _ Hq) as (nd' & -> & Hnd').
    destruct Hnd' as (-> & _ & _ & _ & -> & _).
    destruct (String.eqb _ _); [done|].
    destruct (Children nd !! i) as [[c|]|]; auto.
  - destruct Hle as [Hlen _].
    apply lookup_ge_None in Hq. rewrite <- Hlen in Hq.
    apply lookup_ge_None in Hq. by rewrite Hq.
Qed.

Lemma foldM_serialize_pass_le fuel cs s s' :
  foldM (serialize fuel) cs s = Ok s' -> pass_le s s'.
Proof.
  apply (foldM_rel pass_le); [apply pass_le_refl|apply pass_le_trans|].
  intros c s1 s2 _ Hc. by apply serialize_pass_le in Hc as [? _].
Qed.

(** A successful call on a node whose children are walked: the node is
    marked, then the loop over its children runs. *)
Lemma serialize_Ok_children fuel q s s' nd :
  serialize (S fuel) (Some q) s = Ok s' ->
  heap s !! q = Some nd -> TagName nd <> "reuse" ->
  exists s0 s3,
    visited nd = false /\
    pass_le s s0 /\
    (exists nd0, heap s0 !! q = Some nd0 /\ visited nd0 = true) /\
    foldM (serialize fuel) (Children nd) s0 = Ok s3 /\
    heap s' = heap s3.
Proof.
  intros Hs Hq Htag.
  apply serialize_Ok_inv in Hs
    as (p & nd' & [= <-] & Hp & Hv & _ & [(_ & _ & Hf)|[(Hr & _)|(_ & _ & Hg)]]);
    rewrite Hq in Hp; simplify_eq.
  - pose proof (lookup_lt_Some _ _ _ Hq) as Hlt.
    eexists _, s'. split; [done|]. split; [|split; [|done]].
    + split; [|split; [done|exists []; by rewrite app_nil_r]].
      eapply heap_le_insert; [done|by apply node_le_mark].
    + eexists. simpl. by rewrite list_lookup_insert_eq.
  - destruct Hg as (s2 & idx & s3 & Ho & Hf & Hc).
    pose proof (lookup_lt_Some _ _ _ Hq) as Hlt.
    pose proof (open_marked_pass_le _ _ _ _ _ Hq Hv Ho) as Hle2.
    apply open_marked in Ho
      as (co & e & nd2 & _ & _ & Hnd2 & Hh2 & _); [|done..].
    apply close_element_Ok in Hc as (nd3 & Hp3 & Hh' & _).
    exists s2, s3. split; [done|]. split; [done|]. split; [|done].
    exists nd2. rewrite Hh2, list_lookup_insert_eq by done. by subst nd2.
Qed.


(** After a successful call every position under the node is marked. *)
Lemma reach_marked path : forall fuel q s s' x,
  serialize fuel (Some q) s = Ok s' ->
  resolve (heap s) q path = Some x ->
  exists ndx, heap s' !! x = Some ndx /\ visited ndx = true.
Proof.
  induction path as [|i path IH]; intros fuel q s s' x Hs Hres.
  - simpl in Hres. simplify_eq.
    apply serialize_pass_le in Hs as [_ (p & nd' & [= <-] & ? & ?)]. eauto.
  - destruct fuel as [|fuel]; [done|]. simpl in Hres.
    destruct (heap s !! q) as [nd|] eqn:Hq; [|done].
    destruct (String.eqb_spec (TagName nd) "reuse") as [|Htag]; [done|].
    destruct (Children nd !! i) as [[c|]|] eqn:Hi; try done.
    destruct (serialize_Ok_children _ _ _ _ _ Hs Hq Htag)
      as (s0 & s3 & _ & Hle0 & _ & Hf & Hh).
    rewrite <- (take_drop_middle _ _ _ Hi) in Hf.
    apply foldM_Ok_split in Hf as (sa & sb & Ha & Hc & Hb).
    apply foldM_serialize_pass_le in Ha, Hb.
    pose proof (pass_le_trans _ _ _ Hle0 Ha) as [Hle _].
    destruct (IH fuel c sa sb x Hc) as (ndx & Hx & Hv).
    { by rewrite <- (heap_le_resolve _ _ _ _ Hle). }
    exists ndx. split; [|done]. rewrite Hh.
    destruct Hb as [Hb _]. by eapply heap_le_visited.
Qed.




(** ** Termination: every call marks a node *)

Lemma unvisited_le h : forall h', heap_le h h' -> unvisited h' <= unvisited h.
Proof.
  induction h as [|nd h IH]; intros [|nd' h'] [Hlen Hle]; simpl in *; try done.
  assert (heap_le h h') as Hle'.
  { split; [lia|]. intros q ndq Hq. apply (Hle (S q) ndq Hq). }
  specialize (IH _ Hle').
  destruct (Hle 0 nd eq_refl) as (nd0 & [= <-] & Hnd).
  destruct Hnd as (_&_&_&_&_&_&_&_&_&Hvis).
  destruct (visited nd) eqn:Hv.
  - rewrite (Hvis eq_refl), Hv. lia.
  - destruct (visited nd'); lia.
Qed.

Lemma unvisited_mark h : forall p nd nd',
  h !! p = Some nd -> visited nd = false -> visited nd' = true ->
  S (unvisited (<[p := nd']> h)) = unvisited h.
Proof.
  induction h as [|nd0 h IH]; intros [|p] nd nd' Hp Hv Hv'; simpl in *; try done.
  - simplify_eq. rewrite Hv, Hv'. lia.
  - rewrite <- (IH p nd nd' Hp Hv Hv'). lia.
Qed.

Lemma unvisited_length h : unvisited h <= length h.
Proof. induction h as [|nd h IH]; simpl; [done|]. destruct (visited nd); lia. Qed.

Lemma reuse_fuel {St} (it : Entity -> Entity -> St -> St) (t : etree H)
    from to c st :
  reuse t from to c it st <> OutOfFuel.
Proof.
  unfold reuse, assert, children.
  destruct (negb _); simpl; [|done].
  destruct (_ =? -1)%Z; simpl; [done|].
  destruct (g1 t !! _) as [r|]; [|done].
  destruct (_ <=? _); simpl; [|done].
  by destruct (reuse_loop it to 0 _ c st) as [[??]?].
Qed.

Lemma open_element_fuel p nd s : open_element p nd s <> OutOfFuel.
Proof.
  unfold open_element, add, addHandler, assert.
  destruct (_ && _); cbn [NEntity set_Entity hdl]; unfold Inc; cbv zeta;
    (destruct (negb _); simpl; [|done]);
    (destruct (_ <? 10240)%Z; simpl; [|done]);
    rewrite length_app, Nat.add_1_r;
    by destruct (hdl_Some _).
Qed.

Lemma close_element_fuel p idx s : close_element p idx s <> OutOfFuel.
Proof.
  unfold close_element, closeScope.
  destruct (heap s !! p) as [nd|]; [|done].
  destruct (negb _); simpl; [|done]. by destruct (_ <? _).
Qed.

(** With more fuel than unmarked nodes, a call never runs out of fuel. *)
Lemma serialize_total fuel : forall n s,
  unvisited (heap s) < fuel -> serialize fuel n s <> OutOfFuel.
Proof.
  induction fuel as [|fuel IH]; intros n s Hlt Hs; [lia|].
  cbn [serialize] in Hs. destruct n as [p|]; [|done].
  destruct (heap s !! p) as [nd|] eqn:Hp; [|done].
  destruct (visited nd) eqn:Hv; [done|].
  cbn [TagName set_visited Children old NEntity] in Hs.
  destruct (String.eqb (TagName nd) ""); [done|].
  pose proof (unvisited_mark _ _ _ (set_visited true nd) Hp Hv eq_refl) as Hm.
  assert (forall cs s0, unvisited (heap s0) < fuel ->
            foldM (serialize fuel) cs s0 <> OutOfFuel) as Hloop.
  { intros cs s0 Hs0 (cs1 & c & cs2 & sa & -> & Ha & Hc)%foldM_OutOfFuel_inv.
    apply foldM_serialize_pass_le in Ha as [Hle%unvisited_le _].
    apply (IH c sa); [lia|done]. }
  destruct (String.eqb (TagName nd) "nothing").
  { apply foldM_OutOfFuel_inv in Hs as (cs1 & c & cs2 & sa & Hcs & Ha & Hc).
    apply (foldM_checked_Ok (serialize fuel)) in Ha as [_ Ha].
    apply foldM_serialize_pass_le in Ha as [Hle%unvisited_le _].
    simpl in Hle. unfold assert in Hc. case_bool_decide; simpl in Hc; [|done].
    apply (IH c sa); [lia|done]. }
  destruct (String.eqb (TagName nd) "reuse").
  { destruct (reuse _ _ _ _ _ _) as [[[t c] vm2]| |] eqn:Hr; simpl in Hs;
      try done. by apply reuse_fuel in Hr. }
  destruct (open_element _ _ _) as [[s2 idx]| |] eqn:Ho; simpl in Hs; try done.
  - pose proof Ho as Ho'.
    apply open_marked in Ho'
      as (co & e & nd2 & _ & _ & Hnd2 & Hh2 & _); [|done..].
    destruct (foldM _ _ s2) as [s3| |] eqn:Hf; simpl in Hs; try done.
    + by apply close_element_fuel in Hs.
    + apply (Hloop (Children nd) s2); [|done]. rewrite Hh2.
      pose proof (unvisited_mark _ _ _ nd2 Hp Hv) as Hm2.
      rewrite <- Hm2 in Hlt by (by subst nd2). lia.
  - by apply open_element_fuel in Ho.
Qed.

(** ** The only panic of a clean tree is the cycle error *)














(** ** Spans *)

Lemma spans_unfold kids :
  spans (Sh kids) = S (length (spans_forest kids)) :: spans_forest kids.
Proof. reflexivity. Qed.

Lemma spans_forest_app F1 F2 :
  spans_forest (F1 ++ F2) = spans_forest F1 ++ spans_forest F2.
Proof. induction F1 as [|t F1 IH]; simpl; [done|]. by rewrite IH, app_assoc. Qed.

(** In the spans of a forest, the span read at any index delimits the
    preorder listing of the subtree rooted there, inside the forest. *)
Lemma forest_block n : forall F i sp,
  length (spans_forest F) <= n ->
  spans_forest F !! i = Some sp ->
  exists t,
    subtree_at F i t /\
    take sp (drop i (spans_forest F)) = spans t /\
    i + sp <= length (spans_forest F).
Proof.
  induction n as [|n IH]; intros F i sp Hn Hi.
  { apply lookup_lt_Some in Hi. lia. }
  destruct F as [|[kids] F]; [done|].
  cbn [spans_forest] in *. rewrite spans_unfold in *.
  simpl in Hn. rewrite length_app in Hn.
  destruct i as [|j].
  - simpl in Hi. simplify_eq. exists (Sh kids). split; [constructor|].
    simpl. rewrite take_app_length. split; [done|]. rewrite length_app. lia.
  - simpl in Hi. simpl.
    destruct (decide (j < length (spans_forest kids))) as [Hlt|Hge].
    + rewrite lookup_app_l in Hi by done.
      destruct (IH kids j sp) as (t & Hat & Hblock & Hin); [lia|done|].
      exists t. split; [by constructor|]. split; [|rewrite length_app; lia].
      rewrite drop_app_le by lia. rewrite take_app_le; [done|].
      rewrite length_drop. lia.
    + rewrite lookup_app_r in Hi by lia.
      destruct (IH F (j - length (spans_forest kids)) sp)
        as (t & Hat & Hblock & Hin); [lia|done|].
      exists t. split; [|split].
      * pose proof (at_rest (Sh kids) F _ t Hat) as Hat'.
        rewrite spans_unfold in Hat'. simpl in Hat'.
        by replace (S (length (spans_forest kids)
                       + (j - length (spans_forest kids))))
          with (S j) in Hat' by lia.
      * rewrite drop_app_ge by lia. done.
      * rewrite length_app. lia.
Qed.

(** The subtree that [children] returns from a well-formed generation. *)
Lemma children_wf (t : etree H) nt sub :
  wf_spans (g1 t) -> children t nt = Ok sub ->
  exists F, map scp sub = spans_forest F.
Proof.
  intros [F HF] Hc. unfold children in Hc.
  destruct (_ =? -1)%Z; [simplify_eq; by exists []|].
  destruct (g1 t !! _) as [r|] eqn:Hr; [|done].
  destruct (_ <=? _); [|done]. simplify_eq.
  assert (spans_forest F !! Z.to_nat (locate t nt) = Some (scp r)) as Hi.
  { by rewrite <- HF, list_lookup_fmap, Hr. }
  destruct (forest_block _ F _ _ (le_n _) Hi) as (tr & _ & Hb & _).
  exists [tr]. rewrite <- HF in Hb. simpl. rewrite app_nil_r.
  by rewrite <- Hb, <- fmap_drop, <- fmap_take.
Qed.

Lemma grows_forest_refl s : grows_forest s s.
Proof. intros _. split; [done|]. exists [], []. by rewrite app_nil_r. Qed.

Lemma grows_forest_trans s1 s2 s3 :
  grows_forest s1 s2 -> grows_forest s2 s3 -> grows_forest s1 s3.
Proof.
  intros H12 H23 Hwf. destruct (H12 Hwf) as (Hg & F & K & HK & HF).
  destruct H23 as (Hg' & F' & K' & HK' & HF'); [by rewrite Hg|].
  split; [congruence|]. exists (F ++ F'), (K ++ K').
  rewrite HK', HK, app_assoc. split; [done|].
  by rewrite map_app, spans_forest_app, HF, HF'.
Qed.

(** A successful call appends the listing of a forest. *)
Lemma serialize_grows_forest fuel : forall n s s',
  serialize fuel n s = Ok s' -> grows_forest s s'.
Proof.
  induction fuel as [|fuel IH]; intros n s s' Hs; [done|].
  assert (forall cs s0 s1, foldM (serialize fuel) cs s0 = Ok s1 ->
            grows_forest s0 s1) as Hloop.
  { intros cs. apply (foldM_rel grows_forest);
      [apply grows_forest_refl|apply grows_forest_trans|].
    intros c s1 s2 _ Hc. by apply IH in Hc. }
  apply serialize_Ok_inv in Hs
    as (p & nd & -> & Hp & Hv & Htag & [(_ & _ & Hf)|[(_ & Hr)|(_ & _ & Hg)]]).
  - by apply Hloop in Hf.
  - destruct Hr as (t & c & vm2 & Hr & ->). intros Hwf.
    unfold reuse in Hr. apply bind_Ok in Hr as (_ & _ & Hr).
    apply bind_Ok in Hr as (sub & Hsub & Hr).
    pose proof (reuse_spec emit_ReID _ _ (NEntity nd) (ctr s)
                  (AddInstr (vm s) OpReuse [FormatUint (old nd)]) _ Hsub) as Hr'.
    unfold reuse in Hr'. rewrite Hsub in Hr'. simpl in Hr'.
    replace (Z.of_nat (length (g0 (tree s))) =? -1)%Z with false in Hr'
      by (symmetry; apply Z.eqb_neq; lia).
    simpl in Hr'. rewrite Hr in Hr'. simplify_eq. simpl.
    split; [done|].
    destruct (children_wf _ _ _ Hwf Hsub) as [F HF].
    exists F. eexists. split; [done|].
    rewrite scp_renamed; [done|]. by rewrite new_ids_length.
  - destruct Hg as (s2 & idx & s3 & Ho & Hf & Hc). intros Hwf.
    pose proof (lookup_lt_Some _ _ _ Hp) as Hlt.
    apply open_marked in Ho
      as (co & e & nd2 & _ & _ & Hnd2 & Hh2 & _ & _ & Hg1 & Hg0 & _); [|done..].
    pose proof (foldM_serialize_pass_le _ _ _ _ Hf) as [Hle3 _].
    apply Hloop in Hf. destruct Hf as (Hg1' & F3 & K3 & HK3 & HF3);
      [by rewrite Hg1|].
    assert (heap s3 !! p = Some nd2) as Hp3.
    { eapply heap_le_visited; [done| |by subst nd2].
      rewrite Hh2. by apply list_lookup_insert_eq. }
    apply close_element_Ok in Hc as (nd3 & Hp3' & _ & _ & Hg1'' & _ & Hg0').
    rewrite Hp3 in Hp3'. simplify_eq.
    cbn [NEntity set_Entity] in Hg0'.
    split; [congruence|].
    destruct (e =? 0)%Z.
    + destruct Hg0 as [Hg0 _]. exists F3, K3. split; [congruence|done].
    + destruct Hg0 as (_ & -> & Hg0). destruct Hg0' as [_ Hg0'].
      exists [Sh F3]. eexists. split.
      * rewrite Hg0', HK3, Hg0, <- app_assoc.
        rewrite alter_app_r_alt by lia. rewrite Nat.sub_diag. simpl. done.
      * cbn [map scp set_scp spans_forest]. rewrite app_nil_r, spans_unfold, HF3.
        f_equal. rewrite !length_app. cbn [length].
        rewrite <- HF3, length_map. lia.
Qed.

(** [closeScope] writes one span and nothing else. *)
Lemma closeScope_spec (t t' : etree H) idx :
  closeScope t idx = Ok t' ->
  g1 t' = g1 t /\ length (g0 t') = length (g0 t) /\
  (exists r, g0 t !! idx = Some r /\
             g0 t' !! idx = Some (set_scp (length (g0 t) - idx) r)) /\
  (forall j, j <> idx -> g0 t' !! j = g0 t !! j).
Proof.
  unfold closeScope. destruct (Nat.ltb_spec idx (length (g0 t))); [|done].
  intros [= <-]. simpl. split; [done|]. split; [apply length_alter|].
  split.
  - destruct (lookup_lt_is_Some_2 _ _ H0) as [r Hr]. exists r.
    split; [done|]. by rewrite list_lookup_alter_eq, Hr.
  - intros j Hj. by rewrite list_lookup_alter_ne.
Qed.

(** The record of an element with an identity is appended before its
    children are serialized, and its span, written after them, counts
    the record and what the children appended. *)
Lemma element_scope fuel p s s' nd nd' :
  serialize (S fuel) (Some p) s = Ok s' ->
  heap s !! p = Some nd ->
  TagName nd <> "nothing" -> TagName nd <> "reuse" ->
  heap s' !! p = Some nd' -> NEntity nd' <> 0%Z ->
  exists r K s2 s3,
    ntt r = NEntity nd' /\
    g0 (tree s2) = g0 (tree s) ++ [r] /\
    foldM (serialize fuel) (Children nd) s2 = Ok s3 /\
    g0 (tree s3) = g0 (tree s2) ++ K /\
    g0 (tree s') = g0 (tree s) ++ set_scp (S (length K)) r :: K.
Proof.
  intros Hs Hp Hn Hr Hp' He.
  apply serialize_Ok_inv in Hs
    as (p0 & nd0 & [= <-] & Hp0 & Hv & Htag & [(? & _)|[(? & _)|(_ & _ & Hg)]]);
    rewrite Hp in Hp0; simplify_eq.
  destruct Hg as (s2 & idx & s3 & Ho & Hf & Hc).
  pose proof (lookup_lt_Some _ _ _ Hp) as Hlt.
  apply open_marked in Ho
    as (co & e & nd2 & _ & _ & Hnd2 & Hh2 & _ & _ & Hg1 & Hg0 & _); [|done..].
  pose proof (foldM_serialize_pass_le _ _ _ _ Hf) as (Hle3 & _ & K & HK).
  assert (heap s3 !! p = Some nd2) as Hp3.
  { eapply heap_le_visited; [done| |by subst nd2].
    rewrite Hh2. by apply list_lookup_insert_eq. }
  apply close_element_Ok in Hc as (nd3 & Hp3' & Hh' & _ & _ & _ & Hg0').
  rewrite Hp3 in Hp3'. rewrite Hh', Hp3 in Hp'. simplify_eq.
  cbn [NEntity set_Entity] in *.
  destruct (Z.eqb_spec e 0); [done|].
  destruct Hg0 as (_ & -> & Hg0). destruct Hg0' as [_ Hg0'].
  eexists _, K, s2, s3. split; [|split; [done|split; [done|split; [done|]]]].
  - done.
  - rewrite Hg0', HK, Hg0, <- app_assoc.
    rewrite alter_app_r_alt by lia. rewrite Nat.sub_diag. simpl.
    do 3 f_equal. rewrite !length_app. simpl. lia.
Qed.

(** C4. [closeScope] sets the span of the record at its index to the
    current length minus the index and writes nothing else. A pass of
    [serialize] over a well-formed previous generation appends to the
    current one the preorder listing of a forest: for every appended
    record, at index [i] with span [s], the records [i .. i+s-1] are
    exactly the listing of the subtree rooted at [i]; and the record of
    an element with an identity spans itself and what the serialization
    of its children appended. *)
Theorem closed_spans_delimit_subtrees fuel n s s' :
  wf_spans (g1 (tree s)) ->
  serialize fuel n s = Ok s' ->
  (forall (t t' : etree H) idx,
     closeScope t idx = Ok t' ->
     g1 t' = g1 t /\ length (g0 t') = length (g0 t) /\
     (exists r, g0 t !! idx = Some r /\
                g0 t' !! idx = Some (set_scp (length (g0 t) - idx) r)) /\
     (forall j, j <> idx -> g0 t' !! j = g0 t !! j)) /\
  (exists F K,
     g0 (tree s') = g0 (tree s) ++ K /\
     map scp K = spans_forest F /\
     forall i r, K !! i = Some r ->
       exists t, subtree_at F i t /\
                 map scp (take (scp r) (drop i K)) = spans t /\
                 i + scp r <= length K) /\
  (forall fuel' p nd nd',
     fuel = S fuel' -> n = Some p -> heap s !! p = Some nd ->
     TagName nd <> "nothing" -> TagName nd <> "reuse" ->
     heap s' !! p = Some nd' -> NEntity nd' <> 0%Z ->
     exists r K s2 s3,
       ntt r = NEntity nd' /\
       g0 (tree s2) = g0 (tree s) ++ [r] /\
       foldM (serialize fuel') (Children nd) s2 = Ok s3 /\
       g0 (tree s3) = g0 (tree s2) ++ K /\
       g0 (tree s') = g0 (tree s) ++ set_scp (S (length K)) r :: K).
Proof.
  intros Hwf Hs. split; [intros; by apply closeScope_spec|]. split.
  - destruct (serialize_grows_forest _ _ _ _ Hs Hwf) as (_ & F & K & HK & HF).
    exists F, K. split; [done|]. split; [done|]. intros i r Hi.
    assert (spans_forest F !! i = Some (scp r)) as Hi'.
    { by rewrite <- HF, list_lookup_fmap, Hi. }
    destruct (forest_block _ F _ _ (le_n _) Hi') as (t & Hat & Hb & Hin).
    exists t. split; [done|]. rewrite <- HF in Hb, Hin.
    rewrite length_map in Hin. split; [|done].
    by rewrite fmap_take, fmap_drop.
  - intros fuel' p nd nd' -> -> Hp Hn Hr Hp' He. by eapply element_scope.
Qed.

(** ** One call of [serialize], both ways *)

Lemma serialize_Ok_intro fuel p nd s s' :
  heap s !! p = Some nd -> visited nd = false -> TagName nd <> "" ->
  (let nd1 := set_visited true nd in
   let s1 := set_heap (<[p := nd1]> (heap s)) s in
   (TagName nd = "nothing" /\
    Forall (fun c => c <> None) (Children nd) /\
    foldM (serialize fuel) (Children nd) s1 = Ok s')
   \/ (TagName nd = "reuse" /\
       exists t c vm2,
         reuse (tree s) (old nd) (NEntity nd) (ctr s) emit_ReID
               (AddInstr (vm s) OpReuse [FormatUint (old nd)])
           = Ok (t, c, vm2) /\
         s' = mkS (heap s1) t c vm2)
   \/ (TagName nd <> "nothing" /\ TagName nd <> "reuse" /\
       exists s2 idx s3,
         open_element p nd1 s1 = Ok (s2, idx) /\
         foldM (serialize fuel) (Children nd) s2 = Ok s3 /\
         close_element p idx s3 = Ok s')) ->
  serialize (S fuel) (Some p) s = Ok s'.
Proof.
  intros Hp Hv Htag Hcases. cbn [serialize]. rewrite Hp, Hv.
  cbn [TagName set_visited Children old NEntity].
  destruct (String.eqb_spec (TagName nd) "") as [|_]; [done|].
  cbv zeta in Hcases.
  destruct Hcases as [(Hn & HF & Hf)|[(Hr & t & c & vm2 & Hre & ->)|(Hn & Hr & Hg)]].
  - rewrite Hn. simpl. by apply (foldM_checked_Ok (serialize fuel)).
  - rewrite Hr. simpl. cbn [tree ctr vm set_heap]. by rewrite Hre.
  - destruct (String.eqb_spec (TagName nd) "nothing"); [done|].
    destruct (String.eqb_spec (TagName nd) "reuse"); [done|].
    destruct Hg as (s2 & idx & s3 & -> & Hf & Hc). simpl. by rewrite Hf.
Qed.

(** More fuel does not change a successful call. *)
Lemma serialize_fuel_mono fuel : forall fuel' n s s',
  fuel <= fuel' -> serialize fuel n s = Ok s' -> serialize fuel' n s = Ok s'.
Proof.
  induction fuel as [|fuel IH]; intros fuel' n s s' Hle Hs; [done|].
  destruct fuel' as [|fuel']; [lia|].
  assert (forall cs s0 s1, foldM (serialize fuel) cs s0 = Ok s1 ->
            foldM (serialize fuel') cs s0 = Ok s1) as Hloop.
  { intros cs s0 s1. apply foldM_ext_Ok. intros c s2 s3 _. apply IH. lia. }
  apply serialize_Ok_inv in Hs as (p & nd & -> & Hp & Hv & Htag & Hcases).
  eapply serialize_Ok_intro; [done..|]. cbv zeta in *.
  destruct Hcases as [(Hn & HF & Hf)|[Hr|(Hn & Hr & s2 & idx & s3 & Ho & Hf & Hc)]].
  - left. auto.
  - right; left. done.
  - right; right. do 2 (split; [done|]). exists s2, idx, s3. auto.
Qed.

(** ** The same pass on two heaps *)

(** [open_element] and [close_element] use the heap only to write the
    node at [p], and to read it. *)
Lemma open_element_heap p nd s h :
  open_element p nd (set_heap h s) =
    match open_element p nd s with
    | Ok (s', idx) =>
        Ok (set_heap
              (if (NEntity nd =? 0)%Z && hdl_Some (hdl nd)
               then <[p := set_Entity (Inc (ctr s)).2 nd]> h else h) s',
            idx)
    | Panic e => Panic e
    | OutOfFuel => OutOfFuel
    end.
Proof.
  unfold open_element, add, addHandler, assert.
  destruct (_ && _); cbn [NEntity set_Entity hdl]; unfold Inc; cbv zeta;
    cbn [ctr set_vm set_heap tree vm fst snd];
    (destruct (negb _); simpl; [|done]);
    (destruct (_ <? 10240)%Z; simpl; [|done]);
    rewrite length_app, Nat.add_1_r;
    by destruct (hdl_Some _).
Qed.

Lemma close_element_heap p idx s h nd nd' :
  heap s !! p = Some nd -> h !! p = Some nd' -> NEntity nd' = NEntity nd ->
  close_element p idx (set_heap h s) =
    match close_element p idx s with
    | Ok s' => Ok (set_heap h s')
    | Panic e => Panic e
    | OutOfFuel => OutOfFuel
    end.
Proof.
  intros Hp Hh He. unfold close_element, closeScope. simpl.
  rewrite Hp, Hh, He.
  destruct (negb _); simpl; [|done]. by destruct (_ <? _).
Qed.

Lemma sim_eta D s1 s2 : sim D s1 s2 -> s2 = set_heap (heap s2) s1.
Proof. destruct s1, s2. intros (_ & ? & ? & ?). simpl in *. by subst. Qed.

(** Writing the same node, outside [D], on both sides. *)
Lemma covers_insert D h1 h2 p nd :
  covers D h1 h2 -> ~ D p -> covers D (<[p := nd]> h1) (<[p := nd]> h2).
Proof.
  intros [Hlen Hc] Hp. split; [by rewrite !length_insert|].
  intros q. destruct (Hc q) as [HD HnD]. split.
  - intros Hq. destruct (HD Hq) as (ndq & Hndq & Hv). exists ndq.
    rewrite list_lookup_insert_ne by (intros ->; done). done.
  - intros Hq. destruct (decide (q = p)) as [->|Hne].
    + destruct (decide (p < length h1)).
      * rewrite !list_lookup_insert_eq by lia. done.
      * rewrite !list_insert_ge by lia. by apply HnD.
    + rewrite !list_lookup_insert_ne by done. by apply HnD.
Qed.

Lemma covers_unmarked D h1 h2 p nd :
  covers D h1 h2 -> h1 !! p = Some nd -> visited nd = false ->
  ~ D p /\ h2 !! p = Some nd.
Proof.
  intros [_ Hc] Hp Hv. destruct (Hc p) as [HD HnD].
  assert (~ D p) as Hn.
  { intros (nd' & Hp' & Hv')%HD. congruence. }
  split; [done|]. by rewrite <- (HnD Hn).
Qed.

Lemma foldM_sim D (f : option nat -> sstate H -> outcome (sstate H)) cs :
  (forall c s1 s2 s1', sim D s1 s2 -> f c s1 = Ok s1' ->
      exists s2', f c s2 = Ok s2' /\ sim D s1' s2') ->
  forall s1 s2 s1', sim D s1 s2 -> foldM f cs s1 = Ok s1' ->
    exists s2', foldM f cs s2 = Ok s2' /\ sim D s1' s2'.
Proof.
  intros Hf. induction cs as [|c cs IH]; intros s1 s2 s1' Hsim Hfold; simpl in *.
  - simplify_eq. eauto.
  - apply bind_Ok in Hfold as (sa & Ha & Hb).
    destruct (Hf _ _ _ _ Hsim Ha) as (sa2 & Ha2 & Hsima).
    destruct (IH _ _ _ Hsima Hb) as (sb2 & Hb2 & Hsimb).
    exists sb2. rewrite Ha2. simpl. done.
Qed.

(** A successful pass on a heap succeeds, with the same entity tree,
    counter and program, on a heap that differs only in nodes that the
    first one holds marked. *)
Lemma serialize_sim D fuel : forall n s1 s2 s1',
  sim D s1 s2 -> serialize fuel n s1 = Ok s1' ->
  exists s2', serialize fuel n s2 = Ok s2' /\ sim D s1' s2'.
Proof.
  induction fuel as [|fuel IH]; intros n s1 s2 s1' Hsim Hs; [done|].
  pose proof (foldM_sim D (serialize fuel)) as Hloop.
  apply serialize_Ok_inv in Hs as (p & nd & -> & Hp & Hv & Htag & Hcases).
  pose proof Hsim as (Hcov & Ht & Hc & Hvm).
  destruct (covers_unmarked _ _ _ _ _ Hcov Hp Hv) as [HnD Hp2].
  cbv zeta in Hcases.
  set (nd1 := set_visited true nd) in *.
  assert (sim D (set_heap (<[p:=nd1]> (heap s1)) s1)
                (set_heap (<[p:=nd1]> (heap s2)) s2)) as Hsim1.
  { split; [by apply covers_insert|done]. }
  destruct Hcases as [(Hn & HF & Hf)|[(Hr & t & c & vm2 & Hre & ->)
                                     |(Hn & Hr & sa & idx & sb & Ho & Hf & Hcl)]].
  - destruct (Hloop _ IH _ _ _ Hsim1 Hf) as (s2' & Hf2 & Hsim').
    exists s2'. split; [|done].
    eapply serialize_Ok_intro; [done..|]. left. auto.
  - eexists. split.
    + eapply serialize_Ok_intro; [done..|]. right; left. split; [done|].
      exists t, c, vm2. split; [|done]. by rewrite <- Ht, <- Hc, <- Hvm.
    + split; [by apply covers_insert|done].
  - pose proof (open_element_heap p nd1 (set_heap (<[p:=nd1]> (heap s1)) s1)
                  (<[p:=nd1]> (heap s2))) as Ho2.
    rewrite Ho in Ho2. cbn [set_heap heap tree ctr vm] in Ho2.
    apply (open_marked _ _ _ _ _ Hp Hv) in Ho
      as (co & e & nd2 & Hco & He & Hnd2 & Hh2 & _).
    cbn [NEntity nd1 set_visited hdl] in Ho2. rewrite <- Hco in Ho2.
    rewrite list_insert_insert_eq in Ho2.
    assert (sim D sa (set_heap (<[p:=nd2]> (heap s2)) sa)) as Hsima.
    { split; [|done]. simpl. rewrite Hh2. by apply covers_insert. }
    destruct (Hloop _ IH _ _ _ Hsima Hf) as (sb2 & Hf2 & Hsimb).
    pose proof (foldM_serialize_pass_le _ _ _ _ Hf) as [Hle1 _].
    pose proof (foldM_serialize_pass_le _ _ _ _ Hf2) as [Hle2 _].
    pose proof (lookup_lt_Some _ _ _ Hp) as Hlt1.
    pose proof (lookup_lt_Some _ _ _ Hp2) as Hlt2.
    assert (heap sb !! p = Some nd2) as Hpb.
    { eapply heap_le_visited; [done| |by subst nd2].
      rewrite Hh2. by apply list_lookup_insert_eq. }
    assert (heap sb2 !! p = Some nd2) as Hpb2.
    { eapply heap_le_visited; [done| |by subst nd2].
      simpl. by apply list_lookup_insert_eq. }
    pose proof (close_element_heap p idx sb (heap sb2) nd2 nd2 Hpb Hpb2 eq_refl)
      as Hcl2.
    rewrite Hcl in Hcl2. rewrite <- (sim_eta _ _ _ Hsimb) in Hcl2.
    exists (set_heap (heap sb2) s1'). split.
    + eapply serialize_Ok_intro; [done..|]. right; right.
      do 2 (split; [done|]).
      exists (set_heap (<[p:=nd2]> (heap s2)) sa), idx, sb2.
      split; [|done]. fold nd1.
      rewrite (sim_eta _ _ _ Hsim1). cbn [heap set_heap].
      rewrite Ho2. do 3 f_equal.
      destruct co; [by subst nd2 e|]. subst nd2 e. by destruct nd.
    + apply close_element_Ok in Hcl as (_ & _ & Hh' & _).
      split; [|done]. simpl. rewrite Hh'. by destruct Hsimb.
Qed.

(** ** The "nothing" node *)

Lemma open_element_children p nd cs s :
  open_element p (set_Children cs nd) s =
    match open_element p nd s with
    | Ok (s', idx) =>
        Ok (set_heap
              (if (NEntity nd =? 0)%Z && hdl_Some (hdl nd)
               then <[p := set_Entity (Inc (ctr s)).2 (set_Children cs nd)]>
                      (heap s)
               else heap s) s',
            idx)
    | Panic e => Panic e
    | OutOfFuel => OutOfFuel
    end.
Proof.
  unfold open_element, add, addHandler, assert.
  cbn [NEntity hdl set_Children TagName Classes Attrs Text].
  destruct (_ && _); cbn [NEntity set_Entity hdl]; unfold Inc; cbv zeta;
    cbn [ctr set_vm set_heap tree vm fst snd heap];
    (destruct (negb _); simpl; [|by destruct s]);
    (destruct (_ <? 10240)%Z; simpl; [|done]);
    rewrite length_app, Nat.add_1_r;
    by destruct (hdl_Some _).
Qed.

(** In a loop over children, a "nothing" child can be replaced by its
    own children. *)
Lemma loop_transparent D fuel l1 pn l2 kids nn s1 s2 s1' :
  sim D s1 s2 ->
  heap s1 !! pn = Some nn -> TagName nn = "nothing" -> Children nn = kids ->
  foldM (serialize fuel) (l1 ++ Some pn :: l2) s1 = Ok s1' ->
  exists s2',
    foldM (serialize fuel) (l1 ++ kids ++ l2) s2 = Ok s2' /\
    sim (fun q => D q \/ q = pn) s1' s2'.
Proof.
  intros Hsim Hpn Htag Hkids Hf.
  apply foldM_Ok_split in Hf as (sa & sb & Ha & Hc & Hb).
  destruct (foldM_sim D (serialize fuel) l1 (serialize_sim D fuel)
              _ _ _ Hsim Ha) as (sa2 & Ha2 & Hsima).
  pose proof (foldM_serialize_pass_le _ _ _ _ Ha) as [[_ Hlea] _].
  destruct (Hlea _ _ Hpn) as (nna & Hpna & Hnna).
  destruct Hnna as (Htag' & _ & _ & _ & Hch' & _).
  destruct fuel as [|fuel]; [done|].
  apply serialize_Ok_inv in Hc as (p & nd & [= <-] & Hp & Hv & _ & Hcases).
  rewrite Hpna in Hp. simplify_eq. cbv zeta in Hcases.
  destruct Hcases as [(_ & _ & Hk)|[(Hr & _)|(Hn & _)]]; [|congruence..].
  set (D' := fun q => D q \/ q = pn).
  assert (sim D' (set_heap (<[pn:=set_visited true nd]> (heap sa)) sa) sa2)
    as Hsim'.
  { destruct Hsima as ([Hlen Hcov] & Hrest). split; [|done]. simpl. split.
    - by rewrite length_insert.
    - intros q. destruct (Hcov q) as [HD HnD]. split.
      + intros [Hq| ->].
        * destruct (HD Hq) as (ndq & Hndq & Hvq). exists ndq.
          rewrite list_lookup_insert_ne by (intros ->; congruence). done.
        * eexists. rewrite list_lookup_insert_eq by (by eapply lookup_lt_Some).
          done.
      + intros Hq. rewrite list_lookup_insert_ne by (intros ->; apply Hq; by right).
        apply HnD. intros ?. apply Hq. by left. }
  rewrite Hch' in Hk.
  destruct (foldM_sim D' (serialize fuel) _ (serialize_sim D' fuel)
              _ _ _ Hsim' Hk) as (sb2 & Hk2 & Hsimb).
  destruct (foldM_sim D' (serialize (S fuel)) l2 (serialize_sim D' (S fuel))
              _ _ _ Hsimb Hb) as (s2' & Hb2 & Hsim2).
  exists s2'. split; [|done].
  assert (foldM (serialize (S fuel)) (Children nn) sa2 = Ok sb2) as Hk2'.
  { eapply foldM_ext_Ok; [|exact Hk2].
    intros c s3 s4 _. apply serialize_fuel_mono. lia. }
  rewrite foldM_app, Ha2. cbn [bind]. rewrite foldM_app, Hk2'. done.
Qed.

(** C5. Let [P] have the "nothing" node [pn] among its children, and let
    [kids] be the children of [pn] (two nodes A and B, or any other
    list). Whenever serializing [P] succeeds, serializing [P] with [kids]
    in the place of [pn] succeeds too, and it gives the same program, the
    same entity tree and the same counter: the node [pn] itself accounts
    for nothing. *)
Theorem nothing_is_transparent fuel s P nP pn nn kids l1 l2 s1' :
  heap s !! P = Some nP ->
  Children nP = l1 ++ Some pn :: l2 ->
  heap s !! pn = Some nn -> TagName nn = "nothing" -> Children nn = kids ->
  serialize fuel (Some P) s = Ok s1' ->
  exists s2',
    serialize fuel (Some P)
      (set_heap (<[P := set_Children (l1 ++ kids ++ l2) nP]> (heap s)) s)
      = Ok s2' /\
    vm s2' = vm s1' /\ tree s2' = tree s1' /\ ctr s2' = ctr s1'.
Proof.
  intros HP HcP Hpn Htn Hkids Hs. subst kids.
  destruct fuel as [|fuel]; [done|].
  pose proof (lookup_lt_Some _ _ _ HP) as Hlt.
  apply serialize_Ok_inv in Hs as (p & nd & [= <-] & Hp & Hv & Htag & Hcases).
  rewrite HP in Hp. simplify_eq. cbv zeta in Hcases.
  set (cs := l1 ++ Children nn ++ l2).
  set (D := fun q => q = P).
  assert (forall x : Node H, set_Entity (NEntity x) x = x) as Heta
    by (by intros []).
  assert (forall e,
    sim D (set_heap (<[P:=set_Entity e (set_visited true nd)]> (heap s)) s)
      (set_heap
         (<[P:=set_Entity e (set_visited true (set_Children cs nd))]> (heap s))
         s)) as Hsim1.
  { intros e. split; [|done]. simpl. split; [by rewrite !length_insert|].
    intros q. split.
    - intros ->. eexists. by rewrite list_lookup_insert_eq.
    - intros Hq. by rewrite !list_lookup_insert_ne by (intros ->; done). }
  assert (forall e, exists nn1,
    <[P:=set_Entity e (set_visited true nd)]> (heap s) !! pn = Some nn1 /\
    TagName nn1 = "nothing" /\ Children nn1 = Children nn) as Hpn1.
  { intros e. destruct (decide (pn = P)) as [->|Hne].
    - rewrite list_lookup_insert_eq by done. eexists. split; [done|].
      rewrite HP in Hpn. by simplify_eq.
    - rewrite list_lookup_insert_ne by done. eauto. }
  set (s2 := set_heap (<[P:=set_Children cs nd]> (heap s)) s).
  assert (heap s2 !! P = Some (set_Children cs nd)) as HP2.
  { simpl. by apply list_lookup_insert_eq. }
  assert (forall nd', set_heap (<[P:=nd']> (heap s2)) s2
                      = set_heap (<[P:=nd']> (heap s)) s) as Hs2.
  { intros nd'. unfold s2, set_heap. simpl. by rewrite list_insert_insert_eq. }
  destruct Hcases as [(Hn & HF & Hf)|[(Hr & t & c & vm2 & Hre & ->)
                                     |(Hn & Hr & sa & idx & sb & Ho & Hf & Hcl)]].
  - (* P is itself a "nothing" node *)
    rewrite HcP in Hf.
    specialize (Hsim1 (NEntity nd)). destruct (Hpn1 (NEntity nd)) as (nn1 & Hnn1 & Ht1 & Hc1).
    change (NEntity nd) with (NEntity (set_visited true nd)) in Hsim1 at 1, Hnn1.
    change (NEntity nd)
      with (NEntity (set_visited true (set_Children cs nd))) in Hsim1.
    rewrite !Heta in Hsim1. rewrite Heta in Hnn1.
    destruct (loop_transparent D fuel l1 pn l2 (Children nn) nn1
                _ _ _ Hsim1 Hnn1 Ht1 Hc1 Hf) as (s2' & Hf2 & Hsim2).
    exists s2'. split; [|by destruct Hsim2 as (_ & ? & ? & ?)].
    eapply serialize_Ok_intro; [done..|]. left. split; [done|].
    cbv zeta. rewrite Hs2. simpl. split; [|done].
    clear -Hf2. revert Hf2. generalize (set_heap
      (<[P:=set_visited true (set_Children cs nd)]> (heap s)) s).
    fold cs. induction cs as [|c cs' IH]; intros s0 Hf2; [constructor|].
    simpl in Hf2. apply bind_Ok in Hf2 as (s3 & Hc & Hf2).
    constructor; [|by eapply IH]. intros ->. by destruct fuel.
  - (* P is a "reuse" node: its children are not walked *)
    eexists. split.
    + eapply serialize_Ok_intro; [done..|]. right; left. split; [done|].
      exists t, c, vm2. by split.
    + done.
  - (* P is an ordinary element *)
    pose proof (open_element_children P (set_visited true nd) cs
                  (set_heap (<[P:=set_visited true (set_Children cs nd)]> (heap s)) s))
      as Ho2.
    pose proof (open_element_heap P (set_visited true nd)
                  (set_heap (<[P:=set_visited true nd]> (heap s)) s)
                  (<[P:=set_visited true (set_Children cs nd)]> (heap s)))
      as Ho1.
    rewrite Ho in Ho1.
    change (set_heap ?h (set_heap _ s)) with (set_heap h s) in Ho1.
    rewrite Ho1 in Ho2. clear Ho1.
    apply (open_marked _ _ _ _ _ HP Hv) in Ho
      as (co & e & nd2 & Hco & He & Hnd2 & Hh2 & _).
    cbn [NEntity set_visited hdl set_heap heap] in Ho2. rewrite <- Hco in Ho2.
    rewrite !list_insert_insert_eq in Ho2.
    set (nd2' := set_Entity e (set_visited true (set_Children cs nd))).
    assert (sim D sa (set_heap (<[P:=nd2']> (heap s)) sa)) as Hsima.
    { destruct (Hsim1 e) as [Hcov _]. split; [|done]. simpl.
      rewrite Hh2. by subst nd2. }
    destruct (Hpn1 e) as (nn1 & Hnn1 & Ht1 & Hc1).
    rewrite HcP in Hf.
    assert (heap sa !! pn = Some nn1) as Hnna by (by rewrite Hh2; subst nd2).
    destruct (loop_transparent D fuel l1 pn l2 (Children nn) nn1
                _ _ _ Hsima Hnna Ht1 Hc1 Hf) as (sb2 & Hf2 & Hsimb).
    pose proof (foldM_serialize_pass_le _ _ _ _ Hf) as [Hle1 _].
    pose proof (foldM_serialize_pass_le _ _ _ _ Hf2) as [Hle2 _].
    assert (heap sb !! P = Some nd2) as Hpb.
    { eapply heap_le_visited; [done| |by subst nd2].
      rewrite Hh2. by apply list_lookup_insert_eq. }
    assert (heap sb2 !! P = Some nd2') as Hpb2.
    { eapply heap_le_visited; [done| |done].
      simpl. by apply list_lookup_insert_eq. }
    pose proof (close_element_heap P idx sb (heap sb2) nd2 nd2' Hpb Hpb2)
      as Hcl2.
    rewrite Hcl in Hcl2. rewrite <- (sim_eta _ _ _ Hsimb) in Hcl2.
    exists (set_heap (heap sb2) s1'). split; [|done].
    eapply serialize_Ok_intro; [done..|]. right; right.
    do 2 (split; [done|]).
    exists (set_heap (<[P:=nd2']> (heap s)) sa), idx, sb2.
    split; [|split; [done|apply Hcl2; by subst nd2 nd2']].
    cbv zeta. rewrite Hs2. refine (eq_trans Ho2 _).
    change (set_heap ?a (set_heap ?b ?x)) with (set_heap a x).
    do 2 f_equal. unfold set_heap. f_equal.
    destruct co; [by subst nd2' e|]. subst nd2' e. by destruct nd.
Qed.

End SerializeFacts.

(** ** Instances *)

(** The state of an outcome known to be [Ok]. *)
Definition state_of {A : Type} (o : outcome A) (default : A) : A :=
  match o with Ok a => a | _ => default end.

Definition fresh_pass (h : list (Node unit)) : sstate unit :=
  mkS h (mkEtree [] []) 0%Z [].

(** A "reuse" node naming entity 7 in an empty previous generation. *)
Definition absent_example : sstate unit :=
  fresh_pass [set_Entity 2%Z (set_old 7%Z (zeroNode "reuse"))].

Lemma reuse_absent_entity_witness :
  serialize 1 (Some 0) absent_example
    = Ok (mkS (<[0 := set_visited true
                        (set_Entity 2%Z (set_old 7%Z (zeroNode "reuse")))]>
                 (heap absent_example))
              (tree absent_example) (ctr absent_example)
              (vm absent_example ++ [6; 0; 1] ++ [55])%Z) /\
  (forall St (it : Entity -> Entity -> St -> St) to c st,
      reuse (tree absent_example) 7%Z to c it st
        = Ok (tree absent_example, c, st)) /\
  (forall St (it : Entity -> Entity -> St -> St) (t : etree unit) from to c st,
      reuse t from to c it st <> Panic ReusingInvalidEntity).
Proof.
  apply (reuse_absent_entity 0 absent_example 0
           (set_Entity 2%Z (set_old 7%Z (zeroNode "reuse"))));
    vm_compute; reflexivity.
Defined.

(** A [div] over a [button] that has a click handler and no identity,
    and twice the same [span]. *)
Definition shared_example : sstate unit :=
  fresh_pass [AddChildren [Some 1; Some 2; Some 2] (zeroNode "div");
              set_hdl (<[Click := Some tt]> noHandlers) (zeroNode "button");
              zeroNode "span"].



(** The run of the witness: the button receives the identity 2, and the
    second occurrence of the [span] is rejected. *)
Example shared_example_run :
  serialize 3 (Some 0) shared_example = Panic CycleDetected.
Proof. vm_compute. reflexivity. Qed.



(** A [div] with a "nothing" child that has two children. *)
Definition transparent_example : sstate unit :=
  fresh_pass [AddChildren [Some 1] (zeroNode "div");
              AddChildren [Some 2; Some 3] (zeroNode "nothing");
              SetText "a" (zeroNode "p"); SetText "b" (zeroNode "p")].

Definition transparent_result : sstate unit :=
  state_of (serialize 4 (Some 0) transparent_example) transparent_example.

Lemma nothing_is_transparent_witness :
  exists s2',
    serialize 4 (Some 0)
      (set_heap (<[0 := set_Children ([] ++ [Some 2; Some 3] ++ [])
                          (AddChildren [Some 1] (zeroNode "div"))]>
                   (heap transparent_example)) transparent_example)
      = Ok s2' /\
    vm s2' = vm transparent_result /\
    tree s2' = tree transparent_result /\
    ctr s2' = ctr transparent_result.
Proof.
  apply (nothing_is_transparent 4 transparent_example 0
           (AddChildren [Some 1] (zeroNode "div")) 1
           (AddChildren [Some 2; Some 3] (zeroNode "nothing"))
           [Some 2; Some 3] [] []); vm_compute; reflexivity.
Defined.

(** Two nested elements with identities, after an empty generation. *)
Definition scoped_example : sstate unit :=
  fresh_pass [set_Entity 2%Z (AddChildren [Some 1; Some 2] (zeroNode "div"));
              set_Entity 4%Z (zeroNode "p"); zeroNode "span"].

Definition scoped_result : sstate unit :=
  state_of (serialize 3 (Some 0) scoped_example) scoped_example.

Example scoped_result_spans :
  map (fun r => (ntt r, scp r)) (g0 (tree scoped_result)) = [(2%Z, 2); (4%Z, 1)].
Proof. vm_compute. reflexivity. Qed.

Lemma closed_spans_delimit_subtrees_witness :
  (forall (t t' : etree unit) idx,
     closeScope t idx = Ok t' ->
     g1 t' = g1 t /\ length (g0 t') = length (g0 t) /\
     (exists r, g0 t !! idx = Some r /\
                g0 t' !! idx = Some (set_scp (length (g0 t) - idx) r)) /\
     (forall j, j <> idx -> g0 t' !! j = g0 t !! j)) /\
  (exists F K,
     g0 (tree scoped_result) = g0 (tree scoped_example) ++ K /\
     map scp K = spans_forest F /\
     forall i r, K !! i = Some r ->
       exists t, subtree_at F i t /\
                 map scp (take (scp r) (drop i K)) = spans t /\
                 i + scp r <= length K) /\
  (forall fuel' p nd nd',
     3 = S fuel' -> Some 0 = Some p -> heap scoped_example !! p = Some nd ->
     TagName nd <> "nothing" -> TagName nd <> "reuse" ->
     heap scoped_result !! p = Some nd' -> NEntity nd' <> 0%Z ->
     exists r K s2 s3,
       ntt r = NEntity nd' /\
       g0 (tree s2) = g0 (tree scoped_example) ++ [r] /\
       foldM (serialize fuel') (Children nd) s2 = Ok s3 /\
       g0 (tree s3) = g0 (tree s2) ++ K /\
       g0 (tree scoped_result) = g0 (tree scoped_example) ++ set_scp (S (length K)) r :: K).
Proof.
  apply (closed_spans_delimit_subtrees 3 (Some 0) scoped_example scoped_result).
  - by exists [].
  - vm_compute. reflexivity.
Defined.

(** ** The render cycle *)

Section EngineFacts.
Context {State : Type}.
Implicit Types (e : Engine State) (s : sstate (Action State))
         (nd : Node (Action State)).

(** *** A stale interaction *)

Lemma stale_context_is_not_NoAction e :
  is_NoAction (mkContext (Some TheEngine) (eg0 e)) = false.
Proof. done. Qed.

(** C2, as the code has it. For an interaction whose stamp differs from
    the current generation, the closure looks up and runs no handler and
    returns the engine and the context as they are; since that context
    is not the [NoAction] marker, the driver runs the ordinary cycle on
    the unchanged state: the cycle of the identity action. When it
    completes, the application state is the same, the generation has
    advanced, and the program of the current state is emitted. *)
Theorem stale_intent_rerenders e cf rnd :
  cf_Gen cf <> gen e ->
  (forall ctx, ReactToIntent cf e ctx = Ok (e, ctx)) /\
  turncrank e (ReactToIntent cf) rnd = turncrank e (app id) rnd /\
  (forall e' xas,
     turncrank e (ReactToIntent cf) rnd = Ok (e', xas) ->
     eg0 e' = eg0 e /\ gen e' = (gen e + 1)%Z /\
     exists s, render e (mkContext (Some TheEngine) (eg0 e)) = Ok s /\
               xas = Some (AddInstr (vm s) OpTerm [])).
Proof.
  intros Hgen.
  assert (forall ctx, ReactToIntent cf e ctx = Ok (e, ctx)) as Hdo.
  { intros ctx. unfold ReactToIntent.
    by destruct (Z.eqb_spec (cf_Gen cf) (gen e)). }
  split; [done|]. split.
  - unfold turncrank. by rewrite Hdo.
  - intros e' xas. unfold turncrank. rewrite Hdo. simpl.
    destruct (render e _) as [s| |] eqn:Hr; simpl; [|done..].
    intros [= <- <-]. simpl. eauto.
Qed.

(** *** Parity of the identities *)

Lemma parity_step (g : Z) : ((g + 1 + 1) mod 2 = g mod 2)%Z.
Proof.
  replace (g + 1 + 1)%Z with (g + 1 * 2)%Z by lia. by rewrite Z.mod_add.
Qed.

Lemma parity_differs (g x : Z) :
  (x mod 2 = g mod 2)%Z -> (x mod 2 = (g + 1) mod 2)%Z -> False.
Proof.
  intros H1 H2. rewrite H1 in H2.
  rewrite <- Z.add_mod_idemp_l in H2 by lia.
  pose proof (Z.mod_pos_bound g 2 ltac:(lia)) as Hb.
  destruct (decide (g mod 2 = 0)%Z) as [E|E]; rewrite ?E in H2; simpl in H2.
  - done.
  - assert (g mod 2 = 1)%Z as E' by lia. rewrite E' in H2. done.
Qed.

Lemma land_1_mod (g : Z) : Z.land g 1 = (g mod 2)%Z.
Proof.
  change (Z.land g 1) with (Z.land g (Z.ones 1)). by rewrite Z.land_ones by lia.
Qed.

Lemma on_node_building gen p f (b b' : bstate (State:=State)) :
  (forall nd nd', f nd = Ok nd' ->
     TagName nd' = TagName nd /\ NEntity nd' = NEntity nd) ->
  building gen b -> on_node p f b = Ok b' -> building gen b'.
Proof.
  intros Hf [Hc Hn] Ho. unfold on_node in Ho.
  destruct (b.1 !! p) as [nd|] eqn:Hp; [|done].
  apply bind_Ok in Ho as (nd' & Hnd' & [= <-]).
  split; [done|]. simpl. apply Forall_insert; [done|].
  rewrite Forall_lookup in Hn. specialize (Hn _ _ Hp).
  destruct (Hf _ _ Hnd') as [Ht He]. unfold minted_node. by rewrite Ht, He.
Qed.

Lemma on_node_key_building gen ctx p always focus (b b' : bstate (State:=State)) :
  building gen b -> on_node_key ctx p always focus b = Ok b' -> building gen b'.
Proof.
  intros [Hc Hn] Ho. unfold on_node_key in Ho.
  destruct (b.1 !! p) as [nd|] eqn:Hp; [|done].
  rewrite Forall_lookup in Hn. pose proof (Hn _ _ Hp) as Hnd.
  unfold GiveKey, Inc in Ho. cbv zeta in Ho.
  pose proof (Inc_parity b.2) as HIp. unfold Inc in HIp. simpl in HIp.
  destruct (always || _).
  - destruct (ng ctx); [|done]. simplify_eq.
    split; [simpl; congruence|]. simpl.
    apply Forall_insert; [by apply Forall_lookup|].
    intros _. simpl. destruct focus; simpl; congruence.
  - simplify_eq. split; [done|]. simpl.
    apply Forall_insert; [by apply Forall_lookup|].
    by destruct focus.
Qed.

Lemma run_bop_building gen ctx op (b b' : bstate (State:=State)) :
  match op with BGetNode tagname => tagname <> "reuse" | _ => True end ->
  building gen b -> run_bop ctx op b = Ok b' -> building gen b'.
Proof.
  intros Hop Hb Hr. destruct op; simpl in Hr.
  - simplify_eq. destruct Hb as [Hc Hn]. split; [done|]. simpl.
    apply Forall_app. split; [done|]. constructor; [|constructor].
    intros [Ht|He]; simpl in *; done.
  - eapply on_node_building; [|done..]. by intros ?? [= <-].
  - eapply on_node_building; [|done..]. by intros ?? [= <-].
  - by eapply on_node_key_building.
  - eapply on_node_building; [|done..]. intros nd nd' Ha.
    unfold AddAttr in Ha. apply bind_Ok in Ha as (a & _ & [= <-]). done.
  - eapply on_node_building; [|done..]. intros nd nd' Ha.
    unfold OnIntent in Ha. destruct h; [|by simplify_eq].
    destruct (_ <? _); by simplify_eq.
  - eapply on_node_building; [|done..]. intros nd nd' Ha.
    unfold AddRole, AddAttr in Ha. apply bind_Ok in Ha as (a & _ & [= <-]). done.
  - eapply on_node_building; [|done..]. intros nd nd' [= <-].
    unfold AddClasses. by destruct (String.eqb _ _).
  - eapply on_node_building; [|done..]. intros nd nd' [= <-].
    unfold AddBoolAttr. by destruct val.
  - by eapply on_node_key_building.
  - by eapply on_node_key_building.
  - (* ReuseFrom: the node leaves the call with a minted identity *)
    destruct Hb as [Hc Hn]. unfold GetNode, on_node, on_node_key in Hr.
    cbn [fst snd] in Hr.
    rewrite lookup_app_r, Nat.sub_diag in Hr by done. simpl in Hr.
    rewrite list_lookup_insert_eq in Hr
      by (rewrite length_app; simpl; lia).
    unfold GiveKey, Inc in Hr. simpl in Hr.
    destruct (ng ctx); [|done]. simplify_eq.
    pose proof (Inc_parity b.2) as HIp. unfold Inc in HIp. simpl in HIp.
    split; [simpl; congruence|]. simpl.
    rewrite list_insert_insert_eq.
    rewrite insert_app_r_alt, Nat.sub_diag by done. simpl.
    apply Forall_app. split; [done|]. constructor; [|constructor].
    intros _. simpl. congruence.
  - destruct Hb as [Hc Hn]. unfold GetNode, on_node in Hr.
    cbn [fst snd] in Hr.
    rewrite lookup_app_r, Nat.sub_diag in Hr by done. simpl in Hr.
    simplify_eq. split; [done|]. simpl.
    rewrite insert_app_r_alt, Nat.sub_diag by done. simpl.
    apply Forall_app. split; [done|]. constructor; [|constructor].
    intros [Ht|He]; simpl in *; done.
Qed.

Lemma build_building gen ctx prog : forall (b b' : bstate (State:=State)),
  api_only prog -> building gen b -> foldM (run_bop ctx) prog b = Ok b' ->
  building gen b'.
Proof.
  induction prog as [|op prog IH]; intros b b' Hapi Hb Hf; simpl in Hf.
  - by simplify_eq.
  - apply bind_Ok in Hf as (b1 & H1 & H2).
    apply Forall_cons in Hapi as [Hop Hapi].
    eapply IH; [done| |done]. by eapply run_bop_building.
Qed.

Lemma Inc_n_parity n : forall c, (Inc_n n c mod 2 = c mod 2)%Z.
Proof.
  induction n as [|n IH]; intros c; cbn [Inc_n]; [done|].
  by rewrite IH, Inc_parity.
Qed.

Lemma ids_alter_scp (g : list (prenode (Action State))) i k :
  ids (alter (set_scp k) i g) = ids g.
Proof.
  unfold ids. revert i. induction g as [|r g IH]; intros [|i]; simpl; try done.
  f_equal. apply IH.
Qed.

Lemma serialize_passing gen fuel : forall n s s',
  passing gen s -> serialize fuel n s = Ok s' -> passing gen s'.
Proof.
  induction fuel as [|fuel IH]; intros n s s' Hpass Hs; [done|].
  assert (forall cs s0 s1, passing gen s0 ->
            foldM (serialize fuel) cs s0 = Ok s1 -> passing gen s1) as Hloop.
  { intros cs s0 s1 H0 Hf. revert H0.
    apply (foldM_rel (fun a b => passing gen a -> passing gen b)
             (serialize fuel) cs); [auto|auto| |exact Hf].
    intros c sa sb _ Hc Ha. by eapply IH. }
  destruct Hpass as (Hc & Hn & Hg).
  apply serialize_Ok_inv in Hs as (p & nd & -> & Hp & Hv & Htag & Hcases).
  rewrite Forall_lookup in Hn. pose proof (Hn _ _ Hp) as Hnd.
  cbv zeta in Hcases.
  destruct Hcases as [(_ & _ & Hf)|[(Hr & t & c & vm2 & Hre & ->)
                                   |(_ & _ & s2 & idx & s3 & Ho & Hf & Hcl)]].
  - eapply Hloop; [|done]. split; [done|]. split; [|done]. simpl.
    apply Forall_insert; [by apply Forall_lookup|done].
  - unfold reuse in Hre. apply bind_Ok in Hre as (_ & _ & Hre).
    apply bind_Ok in Hre as (sub & Hsub & Hre).
    pose proof (reuse_spec emit_ReID _ _ (NEntity nd) (ctr s)
                  (AddInstr (vm s) OpReuse [FormatUint (old nd)]) _ Hsub) as Hr'.
    unfold reuse in Hr'. rewrite Hsub in Hr'. simpl in Hr'.
    replace (Z.of_nat (length (g0 (tree s))) =? -1)%Z with false in Hr'
      by (symmetry; apply Z.eqb_neq; lia).
    simpl in Hr'. rewrite Hre in Hr'. simplify_eq.
    split; [|split]; simpl.
    + by rewrite Inc_n_parity.
    + apply Forall_insert; [by apply Forall_lookup|done].
    + unfold parity, ids in *. rewrite map_app. apply Forall_app.
      split; [done|]. change (map ntt ?l) with (ids l).
      rewrite ids_renamed by (by rewrite new_ids_length).
      destruct (length sub) as [|k]; [constructor|]. simpl.
      constructor; [by apply Hnd; left|].
      eapply Forall_impl; [apply minted_parity|]. simpl. congruence.
  - apply open_marked in Ho
      as (co & e & nd2 & Hco & He & Hnd2 & Hh2 & _ & Hc2 & _ & Hg0 & _);
      [|done..].
    assert ((e = 0 \/ e mod 2 = gen mod 2)%Z /\
            (TagName nd = "reuse" -> e mod 2 = gen mod 2)%Z) as [Hpar Hpar'].
    { subst e. destruct co.
      - pose proof (Inc_parity (ctr s)) as HI. rewrite Inc_returns.
        split; [right|intros _]; congruence.
      - split.
        + destruct (decide (NEntity nd = 0%Z)); [by left|right].
          apply Hnd. by right.
        + intros Ht. apply Hnd. by left. }
    assert (passing gen s2) as Hp2.
    { split; [|split].
      - rewrite Hc2. destruct co; [|done]. by rewrite Inc_parity.
      - rewrite Hh2. apply Forall_insert; [by apply Forall_lookup|].
        subst nd2. intros [Ht|Hne]; simpl in *; [by apply Hpar'|].
        by destruct Hpar.
      - destruct (Z.eqb_spec e 0).
        + destruct Hg0 as [-> _]. done.
        + destruct Hg0 as (_ & _ & ->). unfold parity, ids in *.
          rewrite map_app. apply Forall_app. split; [done|].
          constructor; [|constructor]. simpl. by destruct Hpar. }
    pose proof (Hloop _ _ _ Hp2 Hf) as (Hc3 & Hn3 & Hg3).
    apply close_element_Ok in Hcl as (nd3 & _ & Hh' & Hc' & _ & _ & Hg0').
    split; [congruence|]. split; [by rewrite Hh'|].
    destruct (NEntity nd3 =? 0)%Z; [by rewrite Hg0'|].
    destruct Hg0' as [_ ->]. unfold parity. by rewrite ids_alter_scp.
Qed.

(** The pass of a cycle that starts from an idle engine. *)
Lemma render_passing e ctx s :
  idle e -> api_only (Root e ctx).1 -> render e ctx = Ok s ->
  passing (gen e) s /\ g1 (tree s) = g1 (et e) /\ wf_spans (g0 (tree s)).
Proof.
  intros (Hc & Hg1 & Hwf & Hg0 & Hpool) Hapi Hr. unfold render in Hr.
  destruct (Root e ctx) as [prog nd]. simpl in Hapi.
  apply bind_Ok in Hr as (b & Hb & Hs).
  assert (building (gen e) b) as [Hbc Hbn].
  { eapply build_building; [done| |done]. split; simpl.
    - rewrite Hc. apply Z.mod_mod. lia.
    - rewrite Hpool. constructor. }
  split; [|split].
  - eapply serialize_passing; [|done]. split; [done|]. split; [done|].
    simpl. rewrite Hg0. constructor.
  - by apply serialize_pass_le in Hs as [(_ & ? & _) _].
  - apply serialize_grows_forest in Hs.
    destruct (Hs Hwf) as (_ & F & K & HK & HF). simpl in HK.
    rewrite Hg0 in HK. simpl in HK. exists F. by rewrite HK.
Qed.

(** An input changes at most the call frame of the engine. *)
Lemma action_of_engine (i : input) e ctx e1 ctx1 :
  action_of i e ctx = Ok (e1, ctx1) -> exists cf, e1 = set_CallFrame cf e.
Proof.
  destruct i as [a|cf]; simpl.
  - intros [= <- <-]. exists (ng_CallFrame e). by destruct e.
  - unfold ReactToIntent. destruct (negb _).
    + intros [= <- <-]. exists (ng_CallFrame e). by destruct e.
    + intros (ps & _ & Hf)%bind_Ok. apply bind_Ok in Hf as (h & _ & Hf).
      destruct (h !! _) as [[f|]|]; simplify_eq; by exists cf.
Qed.

Lemma step_idle (i : input) e rnd e' xas :
  idle e -> (forall ctx, api_only (Root e ctx).1) ->
  step e (action_of i) rnd = Ok (e', xas) ->
  idle e' /\ Root e' = Root e.
Proof.
  intros Hidle Hapi Hs. unfold step in Hs.
  apply bind_Ok in Hs as ([e1 xas1] & Ht & [= <- <-]).
  unfold turncrank in Ht. apply bind_Ok in Ht as ([e0 ctx0] & Ha & Ht).
  apply action_of_engine in Ha as [cf ->].
  assert (idle (set_CallFrame cf e)) as Hidle0 by done.
  assert (forall ctx s,
    render (set_CallFrame cf e) ctx = Ok s ->
    idle (mkEngine (AddInstr (vm s) OpTerm [])
            (Z.land (gen e + 1) 1) (ngen (tree s)) (gen e + 1)%Z (vx ctx)
            (Root e) cf (FreePool (heap s)))) as Hcycle.
  { intros ctx s Hr.
    apply render_passing in Hr as ((_ & _ & Hp) & _ & Hwf); [|done|apply Hapi].
    split; [|split; [|split]]; simpl; try done.
    - apply land_1_mod.
    - unfold parity in *. eapply Forall_impl; [exact Hp|]. simpl.
      intros x ->. by rewrite parity_step. }
  destruct (is_NoAction ctx0).
  - destruct (negb (randPick rnd)).
    + by simplify_eq.
    + apply bind_Ok in Ht as (s & Hr & [= <- <-]). split; [|done].
      by apply (Hcycle _ _ Hr).
  - apply bind_Ok in Ht as (s & Hr & [= <- <-]). split; [|done].
    by apply (Hcycle _ _ Hr).
Qed.

Lemma run_idle inputs : forall e e',
  idle e -> (forall ctx, api_only (Root e ctx).1) ->
  run e inputs = Ok e' -> idle e' /\ Root e' = Root e.
Proof.
  induction inputs as [|[i rnd] inputs IH]; intros e e' Hidle Hapi Hr;
    unfold run in Hr; simpl in Hr.
  - by simplify_eq.
  - apply bind_Ok in Hr as (e1 & H1 & H2).
    apply bind_Ok in H1 as ([e1' xas] & Hs & [= <-]).
    apply step_idle in Hs as [Hidle1 HR]; [|done..].
    destruct (IH e1' e' Hidle1) as [Hidle' HR']; [by rewrite HR|done|].
    split; [done|congruence].
Qed.

Lemma New_idle root (empty : State) init : idle (New root empty init).
Proof.
  split; [done|]. split; [constructor|]. split; [by exists []|]. done.
Qed.

(** C1. After any sequence of inputs to a new engine whose widget builds
    its nodes through the construction interface, in the state of a
    render where both generations are held: the counter was seeded with
    the parity of the generation, every identifier recorded in the
    current generation has that parity, every identifier of the previous
    generation has the other one, and no identifier is in both. *)
Theorem generations_never_share_identifiers
    root (empty : State) init inputs e ctx s :
  (forall ctx, api_only (root ctx).1) ->
  run (New root empty init) inputs = Ok e ->
  render e ctx = Ok s ->
  cnt e = (gen e mod 2)%Z /\
  parity (gen e) (g0 (tree s)) /\
  parity (gen e + 1) (g1 (tree s)) /\
  (forall x, x ∈ ids (g0 (tree s)) -> x ∉ ids (g1 (tree s))).
Proof.
  intros Hapi Hrun Hr.
  apply run_idle in Hrun as [Hidle HR]; [|apply New_idle|done].
  simpl in HR.
  pose proof Hidle as (Hc & Hg1 & _).
  apply render_passing in Hr as ((_ & _ & Hp) & Hg & _);
    [|done|rewrite HR; apply Hapi].
  split; [done|]. split; [done|]. rewrite Hg. split; [done|].
  intros x H0 H1. unfold parity in *. rewrite Forall_forall in Hp, Hg1.
  eapply parity_differs; [by apply Hp|by apply Hg1].
Qed.

(** The previous generation of an engine is always well formed: the
    hypothesis of the span theorem holds in every cycle. *)
Lemma previous_generation_wf root (empty : State) init inputs e :
  (forall ctx, api_only (root ctx).1) ->
  run (New root empty init) inputs = Ok e ->
  wf_spans (g1 (et e)).
Proof.
  intros Hapi Hrun.
  apply run_idle in Hrun as [(_ & _ & Hwf & _) _]; [done|apply New_idle|done].
Qed.

End EngineFacts.

(** ** The fuel of a cycle suffices *)

Lemma AddAttr_loop_fuel kv : forall attrs, AddAttr_loop kv attrs <> OutOfFuel.
Proof.
  induction kv as [kv IH] using (induction_ltof1 _ (@length string)).
  unfold ltof in IH. intros attrs.
  destruct kv as [|k [|v kv]]; [done..|]. cbn [AddAttr_loop].
  destruct (AddAttr_set k v attrs) as [attrs' seen]. apply IH. simpl. lia.
Qed.

Section TotalFacts.
Context {State : Type}.
Implicit Types (e : Engine State) (ctx : Context State).

Lemma on_node_fuel p (f : Node (Action State) -> outcome (Node (Action State))) b :
  (forall nd, f nd <> OutOfFuel) -> on_node p f b <> OutOfFuel.
Proof.
  intros Hf. unfold on_node. destruct (b.1 !! p) as [nd|]; [|done].
  specialize (Hf nd). by destruct (f nd).
Qed.

Lemma on_node_key_fuel ctx p always focus (b : bstate) :
  on_node_key ctx p always focus b <> OutOfFuel.
Proof.
  unfold on_node_key. destruct (b.1 !! p) as [nd|]; [|done].
  destruct (always || _); [|done]. by destruct (ng ctx).
Qed.

Lemma run_bop_fuel ctx op (b : bstate) : run_bop ctx op b <> OutOfFuel.
Proof.
  destruct op; cbn [run_bop]; try done;
    try (apply on_node_key_fuel);
    try (apply on_node_fuel; intros nd; try done).
  - unfold AddAttr. pose proof (AddAttr_loop_fuel kv (Attrs nd)).
    by destruct (AddAttr_loop _ _).
  - unfold OnIntent. destruct h; [|done]. by destruct (_ <? _).
  - unfold AddRole, AddAttr.
    pose proof (AddAttr_loop_fuel ["role"; role] (Attrs nd)).
    by destruct (AddAttr_loop _ _).
  - destruct (GetNode "reuse" b.1) as [pool p] eqn:Hg.
    intros Hb. destruct (on_node p _ (pool, b.2)) as [b'| |] eqn:Ho; try done.
    + by apply on_node_key_fuel in Hb.
    + revert Ho. by apply on_node_fuel.
Qed.

Lemma foldM_fuel {A St} (f : A -> St -> outcome St) cs :
  (forall c s, f c s <> OutOfFuel) -> forall s, foldM f cs s <> OutOfFuel.
Proof.
  intros Hf. induction cs as [|c cs IH]; intros s; [done|]. simpl.
  specialize (Hf c s). destruct (f c s); [apply IH|done..].
Qed.

(** A cycle gives the pass one unit of fuel more than the pool has
    nodes: the pass always ends, in a result or in a panic. *)
Lemma render_total e ctx : render e ctx <> OutOfFuel.
Proof.
  unfold render. destruct (Root e ctx) as [prog nd].
  pose proof (foldM_fuel (run_bop ctx) prog (run_bop_fuel ctx) (npool e, cnt e)) as Hb.
  destruct (foldM _ prog _) as [b| |]; [|done..]. cbn [bind].
  apply serialize_total. cbn [heap]. pose proof (unvisited_length b.1). lia.
Qed.

End TotalFacts.

(** ** The wire format *)

Lemma AddInstr_vals_enc val : forall vm,
  AddInstr_vals vm val = vm ++ concat (map enc_string val).
Proof.
  induction val as [|v val IH]; intros vm; simpl; [by rewrite app_nil_r|].
  rewrite IH. unfold AppendUint16, enc_string. by rewrite <- !app_assoc.
Qed.

Lemma AddInstr_enc vm code val :
  AddInstr vm code val = vm ++ enc_instr (mkInstr code val).
Proof.
  unfold AddInstr, enc_instr. rewrite AddInstr_vals_enc. simpl.
  by rewrite <- app_assoc.
Qed.

Lemma encode_app l1 l2 : encode (l1 ++ l2) = encode l1 ++ encode l2.
Proof. unfold encode. by rewrite map_app, concat_app. Qed.

Lemma bytes_of_length s : length (bytes_of s) = String.length s.
Proof.
  unfold bytes_of. rewrite length_map.
  induction s as [|a s IH]; simpl; [done|by rewrite IH].
Qed.

Lemma string_of_bytes_of s : string_of_bytes (bytes_of s) = s.
Proof.
  unfold string_of_bytes, bytes_of. rewrite map_map.
  rewrite <- (string_of_list_ascii_of_string s) at 2. f_equal.
  induction (list_ascii_of_string s) as [|a l IH]; simpl; [done|].
  by rewrite N2Z.id, ascii_N_embedding, IH.
Qed.

(** A length below 65536 is read back from its two bytes. *)
Lemma length_bytes_roundtrip (v : Z) :
  (0 <= v < 65536)%Z -> (Z.shiftr v 8 * 256 + Z.land v 255)%Z = v.
Proof.
  intros Hv. rewrite Z.shiftr_div_pow2 by lia.
  change 255%Z with (Z.ones 8). rewrite Z.land_ones by lia.
  change (2 ^ 8)%Z with 256%Z. pose proof (Z.div_mod v 256). lia.
Qed.

Lemma read_strings_enc val : forall rest,
  Forall (fun a => (len a < 65536)%Z) val ->
  read_strings (length val) (concat (map enc_string val) ++ rest)
    = Some (val, rest).
Proof.
  induction val as [|v val IH]; intros rest Hs; [done|].
  apply Forall_cons in Hs as [Hv Hs]. cbn [length map concat].
  unfold enc_string at 1.
  assert (uint16 (len v) = len v) as ->.
  { unfold uint16. apply Z.mod_small. unfold len in *. lia. }
  rewrite <- !app_assoc. cbn [app read_strings].
  change ([?a; ?b] ++ ?x) with (a :: b :: x). cbv iota.
  rewrite length_bytes_roundtrip by (unfold len in *; lia).
  unfold len. rewrite !Nat2Z.id.
  assert ((String.length v
           <=? length (bytes_of v ++ concat (map enc_string val) ++ rest))
          = true) as ->.
  { apply Nat.leb_le. rewrite length_app, bytes_of_length. lia. }
  rewrite <- (bytes_of_length v).
  rewrite drop_app_length, take_app_length.
  by rewrite IH, string_of_bytes_of.
Qed.

(** Decoding the encoding of instructions followed by a terminate gives
    the instructions back and leaves what follows the terminate. *)
Lemma decode_encode l : forall fuel rest,
  length l < fuel ->
  Forall body_instr l -> Forall short l ->
  decode fuel (encode l ++ OpTerm :: rest)
    = Some (l ++ [mkInstr OpTerm []], rest).
Proof.
  induction l as [|i l IH]; intros fuel rest Hf Hb Hs.
  - destruct fuel; [simpl in Hf; lia|]. done.
  - destruct fuel as [|fuel]; [simpl in Hf; lia|].
    apply Forall_cons in Hb as [[Hsh Hop] Hb].
    apply Forall_cons in Hs as [Hi Hs].
    unfold encode. cbn [map concat]. fold (encode l).
    unfold enc_instr at 1. rewrite <- !app_assoc.
    change ((?a :: ?x) ++ ?y) with (a :: (x ++ y)).
    cbn [decode]. unfold shaped in Hsh. rewrite Hsh.
    rewrite read_strings_enc by done.
    destruct (Z.eqb_spec (op i) OpTerm) as [|_]; [done|].
    rewrite IH by (simpl in Hf; done || lia). by destruct i.
Qed.

Lemma emitted_refl v : emitted v v.
Proof. exists []. by rewrite app_nil_r. Qed.

Lemma emitted_trans v1 v2 v3 : emitted v1 v2 -> emitted v2 v3 -> emitted v1 v3.
Proof.
  intros (l1 & -> & H1) (l2 & -> & H2). exists (l1 ++ l2).
  rewrite encode_app, app_assoc. split; [done|]. by apply Forall_app.
Qed.

Lemma emitted_AddInstr vm code val :
  arity code = Some (length val) -> code <> OpTerm ->
  emitted vm (AddInstr vm code val).
Proof.
  intros Ha Hc. exists [mkInstr code val]. rewrite AddInstr_enc.
  unfold encode. simpl. rewrite app_nil_r. split; [done|].
  by repeat constructor.
Qed.

Lemma emitted_step v vm code val :
  emitted v vm -> arity code = Some (length val) -> code <> OpTerm ->
  emitted v (AddInstr vm code val).
Proof. intros Hv Ha Hc. eapply emitted_trans; [done|by apply emitted_AddInstr]. Qed.

Lemma emitted_if (b : bool) v v1 v2 :
  emitted v v1 -> emitted v v2 -> emitted v (if b then v1 else v2).
Proof. by destruct b. Qed.

Lemma emitted_emit_attrs attrs : forall v vm,
  emitted v vm -> emitted v (emit_attrs attrs vm).
Proof.
  induction attrs as [|a attrs IH]; intros v vm Hv; [done|].
  apply IH. by apply emitted_step.
Qed.

Lemma emitted_visit_ReID pairs : forall v vm,
  emitted v vm -> emitted v (visit emit_ReID pairs vm).
Proof.
  induction pairs as [|p pairs IH]; intros v vm Hv; [done|].
  apply IH. by apply emitted_step.
Qed.

Section WireFacts.
Context {H : Type}.
Implicit Types s : sstate H.

Lemma emitted_open_vm (nd : Node H) e vm : emitted vm (open_vm nd e vm).
Proof.
  unfold open_vm. cbv zeta.
  repeat first [ apply emitted_if | apply emitted_emit_attrs
               | apply emitted_step; [|done..] | apply emitted_refl ].
Qed.

(** What a pass appends to the program is the encoding of instructions of
    the opcode set, none of them the terminate. *)
Lemma serialize_emits fuel : forall n s s',
  serialize fuel n s = Ok s' -> emitted (vm s) (vm s').
Proof.
  induction fuel as [|fuel IH]; intros n s s' Hs; [done|].
  apply serialize_Ok_inv in Hs
    as (p & nd & -> & Hp & Hv & Hne & Hcases). cbv zeta in Hcases.
  destruct Hcases as [(Hn & Hch & Hf)|[(Hr & t & c & vm2 & Hre & ->)
                     |(Hn & Hr & s2 & idx & s3 & Ho & Hf & Hc)]].
  - apply (foldM_rel (fun s s' => emitted (vm s) (vm s'))) in Hf; [done|..].
    + intros; apply emitted_refl.
    + intros; by eapply emitted_trans.
    + intros; by eapply IH.
  - pose proof Hre as Hre'. unfold reuse in Hre'.
    apply bind_Ok in Hre' as (_ & _ & Hre').
    apply bind_Ok in Hre' as (sub & Hsub & _).
    rewrite (reuse_spec _ _ _ _ _ _ _ Hsub) in Hre. simplify_eq. cbn [vm].
    apply emitted_visit_ReID, emitted_step; [apply emitted_refl|done..].
  - apply open_element_Ok in Ho
      as (courtesy & e & _ & _ & _ & _ & _ & _ & Ho).
    apply close_element_Ok in Hc as (nd' & _ & _ & _ & _ & Hc & _).
    apply (foldM_rel (fun s s' => emitted (vm s) (vm s'))) in Hf.
    + rewrite Hc. apply emitted_step; [|done..].
      eapply emitted_trans; [|exact Hf]. rewrite Ho. apply emitted_open_vm.
    + intros; apply emitted_refl.
    + intros; by eapply emitted_trans.
    + intros; by eapply IH.
Qed.

End WireFacts.

(** What is rendered is the encoding of instructions of the opcode set,
    none of them the terminate. *)
Lemma render_emits {State : Type} (e : Engine State) ctx s :
  render e ctx = Ok s -> exists l, vm s = encode l /\ Forall body_instr l.
Proof.
  unfold render. destruct (Root e ctx) as [prog nd].
  intros Hr. apply bind_Ok in Hr as (b & _ & Hr).
  apply serialize_emits in Hr as (l & Hl & Hb). by exists l.
Qed.

(** The program of a completed cycle is the encoding of instructions of
    the opcode set, the terminate last and only there. *)
Lemma turncrank_emits {State : Type} (e e' : Engine State) act rnd xas :
  turncrank e act rnd = Ok (e', Some xas) ->
  exists l, xas = encode (l ++ [mkInstr OpTerm []]) /\ Forall body_instr l.
Proof.
  unfold turncrank. intros Ht.
  apply bind_Ok in Ht as ([e0 ctx] & _ & Ht).
  assert (forall ctx0,
    (do s <~ render e0 ctx0 ;
     Ok (mkEngine (AddInstr (vm s) OpTerm []) (Z.land (gen e0 + 1) 1)
                  (ngen (tree s)) (gen e0 + 1)%Z (vx ctx0) (Root e0)
                  (ng_CallFrame e0) (FreePool (heap s)),
         Some (AddInstr (vm s) OpTerm []))) = Ok (e', Some xas) ->
    exists l, xas = encode (l ++ [mkInstr OpTerm []]) /\ Forall body_instr l)
    as Hrun.
  { intros ctx0 Hr. apply bind_Ok in Hr as (s & Hs & Hr).
    apply render_emits in Hs as (l & Hl & Hb). exists l. split; [|done].
    simplify_eq. by rewrite AddInstr_enc, encode_app, Hl. }
  destruct (is_NoAction ctx); [|by eapply Hrun].
  destruct (negb (randPick rnd)); [done|by eapply Hrun].
Qed.

Lemma encode_length l : length l <= length (encode l).
Proof.
  induction l as [|i l IH]; [done|].
  unfold encode in *. cbn [map concat]. rewrite length_app.
  unfold enc_instr at 1. simpl. lia.
Qed.

(** X13. The program of a completed cycle is the encoding of
    instructions of the opcode set with exactly one terminate, the last
    one; when every operand fits the 16-bit length, decoding it gives
    these instructions back and leaves no byte. *)
Theorem short_program_well_formed {State : Type} (e e' : Engine State)
    act rnd xas :
  turncrank e act rnd = Ok (e', Some xas) ->
  exists l,
    xas = encode (l ++ [mkInstr OpTerm []]) /\
    Forall body_instr l /\
    (Forall short l ->
     decode (length xas) xas = Some (l ++ [mkInstr OpTerm []], []) /\
     well_formed xas).
Proof.
  intros Ht. apply turncrank_emits in Ht as (l & -> & Hb).
  exists l. do 2 (split; [done|]). intros Hs.
  assert (decode (length (encode (l ++ [mkInstr OpTerm []])))
                 (encode (l ++ [mkInstr OpTerm []]))
          = Some (l ++ [mkInstr OpTerm []], [])) as Hd.
  { rewrite encode_app. change (encode [mkInstr OpTerm []]) with [OpTerm].
    apply decode_encode; [|done..].
    rewrite length_app. pose proof (encode_length l). simpl. lia. }
  split; [done|]. by eexists.
Qed.


(** ** Instances of the render cycle *)

(** A widget that keeps one entity: a [div] with a key, and below it the
    reuse of entity 2. *)
Definition keeper_widget : Widget unit := fun _ =>
  ([BGetNode "div"; BGiveKey 0; BReuseFrom 2%Z; BAddChildren 0 [Some 1]],
   Some 0).

Definition keeper_engine : Engine unit :=
  state_of (run (New keeper_widget tt []) [(Act id, 0%Z)])
           (New keeper_widget tt []).

Definition keeper_context : Context unit := mkContext (Some TheEngine) (Some tt).

Definition keeper_pass : sstate (Action unit) :=
  state_of (render keeper_engine keeper_context)
           (mkS [] (mkEtree [] []) 0%Z []).

Example keeper_pass_generations :
  ids (g0 (tree keeper_pass)) = [3%Z; 5%Z] /\
  ids (g1 (tree keeper_pass)) = [2%Z] /\
  map scp (g0 (tree keeper_pass)) = [2; 1].
Proof. vm_compute. repeat split. Qed.

Lemma generations_never_share_identifiers_witness :
  cnt keeper_engine = (gen keeper_engine mod 2)%Z /\
  parity (gen keeper_engine) (g0 (tree keeper_pass)) /\
  parity (gen keeper_engine + 1) (g1 (tree keeper_pass)) /\
  (forall x, x ∈ ids (g0 (tree keeper_pass)) -> x ∉ ids (g1 (tree keeper_pass))).
Proof.
  apply (generations_never_share_identifiers keeper_widget tt []
           [(Act id, 0%Z)] keeper_engine keeper_context keeper_pass).
  - intros ctx. repeat constructor. discriminate.
  - vm_compute. reflexivity.
  - vm_compute. reflexivity.
Defined.

(** The engine of the scenario after its first cycle, and an interaction
    stamped with the generation before. *)
Definition stale_engine : Engine unit :=
  state_of (run scenario_engine [(Act id, 0%Z)]) scenario_engine.

Definition stale_frame : CallFrame := mkCallFrame 0%Z Click 0%Z.

Lemma stale_intent_rerenders_witness :
  (forall ctx, ReactToIntent stale_frame stale_engine ctx = Ok (stale_engine, ctx)) /\
  turncrank stale_engine (ReactToIntent stale_frame) 0%Z
    = turncrank stale_engine (app id) 0%Z /\
  (forall e' xas,
     turncrank stale_engine (ReactToIntent stale_frame) 0%Z = Ok (e', xas) ->
     eg0 e' = eg0 stale_engine /\ gen e' = (gen stale_engine + 1)%Z /\
     exists s, render stale_engine (mkContext (Some TheEngine) (eg0 stale_engine))
                 = Ok s /\
               xas = Some (AddInstr (vm s) OpTerm [])).
Proof.
  apply (stale_intent_rerenders stale_engine stale_frame 0%Z).
  vm_compute. discriminate.
Defined.

(** The claim C2 as the specification states it fails on this input: the
    stamp is one less than the current generation, and the driver emits a
    program and moves to the next generation. *)
Lemma stale_intent_emits_program :
  cf_Gen stale_frame = (gen stale_engine - 1)%Z /\
  (forall e', step stale_engine (ReactToIntent stale_frame) 0%Z <> Ok (e', None)) /\
  exists e' xas,
    step stale_engine (ReactToIntent stale_frame) 0%Z = Ok (e', Some xas) /\
    decode (length xas) xas = Some (scenario_program, []) /\
    gen e' = (gen stale_engine + 1)%Z.
Proof.
  split; [vm_compute; reflexivity|]. split.
  - intros e'. vm_compute. discriminate.
  - eexists _, _. split; [vm_compute; reflexivity|].
    split; vm_compute; reflexivity.
Qed.

(** ** A string operand of 65536 bytes *)

Fixpoint repeat_string (n : nat) (s : string) : string :=
  match n with
  | 0 => ""
  | S n' => s ++ repeat_string n' s
  end.

Definition long_text : string := repeat_string (Z.to_nat 65536) "a".

Definition long_widget : Widget unit := fun _ =>
  ([BGetNode "div"; BSetText 0 long_text], Some 0).

(** The program that a cycle emits (empty when it emits none). *)
Definition program_of {State : Type}
    (o : outcome (Engine State * option XAS)) : XAS :=
  match o with
  | Ok (_, Some xas) => xas
  | _ => []
  end.

Definition emits {State : Type}
    (o : outcome (Engine State * option XAS)) : bool :=
  match o with
  | Ok (_, Some _) => true
  | _ => false
  end.

Definition long_cycle : outcome (Engine unit * option XAS) :=
  turncrank (New long_widget tt []) (app id) 0%Z.

Definition long_program : XAS := program_of long_cycle.

Fixpoint same_bytes (a b : list Z) : bool :=
  match a, b with
  | [], [] => true
  | x :: a', y :: b' => (x =? y)%Z && same_bytes a' b'
  | _, _ => false
  end.

Lemma same_bytes_eq a : forall b, same_bytes a b = true -> a = b.
Proof.
  induction a as [|x a IH]; intros [|y b] Hs; simpl in Hs; try done.
  apply andb_prop in Hs as [->%Z.eqb_eq Hs]. f_equal. by apply IH.
Qed.

(** C6 at a failing input. A [div] whose text has 65536 bytes: the cycle
    completes and emits a program in which the add-text operand carries
    the length 0 before its 65536 bytes; decoding reads an empty string,
    then takes the first byte of the text for an opcode, and fails. *)
Theorem long_string_program_malformed :
  emits long_cycle = true /\
  long_program
    = [1; 0; 3; 100; 105; 118; 5; 0; 0]%Z ++ bytes_of long_text ++ [8; 0]%Z /\
  len long_text = 65536%Z /\
  uint16 (len long_text) = 0%Z /\
  decode (length long_program) long_program = None /\
  ~ well_formed long_program.
Proof.
  split; [vm_compute; reflexivity|].
  split; [apply same_bytes_eq; vm_compute; reflexivity|].
  split; [vm_compute; reflexivity|].
  split; [vm_compute; reflexivity|].
  assert (decode (length long_program) long_program = None) as Hd
    by (vm_compute; reflexivity).
  split; [exact Hd|]. intros [ins Hw]. rewrite Hd in Hw. discriminate.
Qed.

(** * Further properties of the code *)

(** ** Attributes of a node *)

Section AttrFacts.
Context {H : Type}.
Implicit Types (n : Node H) (attrs : list Attr).

Lemma AddAttr_set_map k v attrs :
  AddAttr_set k v attrs =
    (map (fun a => if String.eqb (Name a) k then mkAttr (Name a) v else a) attrs,
     existsb (fun a => String.eqb (Name a) k) attrs).
Proof.
  induction attrs as [|a attrs IH]; [done|]. cbn [AddAttr_set]. rewrite IH.
  cbn [map existsb]. by destruct (String.eqb (Name a) k).
Qed.

Lemma GetAttr_loop_put_same k v attrs : GetAttr_loop k (put k v attrs) = v.
Proof.
  unfold put. rewrite AddAttr_set_map.
  induction attrs as [|a attrs IH]; cbn [map existsb GetAttr_loop app].
  - simpl. by rewrite String.eqb_refl.
  - destruct (String.eqb_spec (Name a) k) as [Hk|Hk]; cbn [orb].
    + cbn [GetAttr_loop Name Value]. by rewrite Hk, String.eqb_refl.
    + destruct (existsb _ attrs) eqn:He.
      * apply String.eqb_neq in Hk. simpl. by rewrite Hk.
      * apply String.eqb_neq in Hk. simpl. by rewrite Hk.
Qed.

Lemma GetAttr_loop_put_other k v k' attrs :
  k' <> k -> GetAttr_loop k' (put k v attrs) = GetAttr_loop k' attrs.
Proof.
  intros Hk'. unfold put. rewrite AddAttr_set_map.
  assert (forall l, GetAttr_loop k'
            (map (fun a => if String.eqb (Name a) k then mkAttr (Name a) v else a) l)
          = GetAttr_loop k' l) as Hmap.
  { induction l as [|a l IH]; [done|]. simpl.
    destruct (String.eqb_spec (Name a) k) as [Hk|Hk]; simpl.
    - rewrite Hk. apply String.eqb_neq in Hk'. rewrite String.eqb_sym in Hk'.
      by rewrite Hk', IH.
    - by rewrite IH. }
  destruct (existsb _ attrs); [apply Hmap|].
  assert (forall l, GetAttr_loop k' (l ++ [mkAttr k v]) = GetAttr_loop k' l) as Happ.
  { induction l as [|a l IH]; simpl.
    - apply String.eqb_neq in Hk'. rewrite String.eqb_sym in Hk'. by rewrite Hk'.
    - by rewrite IH. }
  by rewrite Happ, Hmap.
Qed.

Lemma AddAttr_loop_cons k v kv attrs :
  AddAttr_loop (k :: v :: kv) attrs = AddAttr_loop kv (put k v attrs).
Proof. cbn [AddAttr_loop]. unfold put. by destruct (AddAttr_set k v attrs). Qed.

(** X1. [AddAttr] with an even number of strings succeeds, and afterwards
    [GetAttr] returns, for every name, the value that the pairs assign to
    it last, or what it returned before when they assign none; no other
    field of the node changes. *)
Theorem AddAttr_then_GetAttr kv n :
  Nat.Even (length kv) ->
  exists attrs',
    AddAttr kv n = Ok (set_Attrs attrs' n) /\
    forall k, GetAttr k (set_Attrs attrs' n)
              = default (GetAttr k n) (assigned kv k).
Proof.
  unfold AddAttr, GetAttr. cbn [Attrs set_Attrs].
  generalize (Attrs n) as attrs.
  induction kv as [kv IH] using (induction_ltof1 _ (@length string)).
  unfold ltof in IH. intros attrs Hev.
  destruct kv as [|k [|v kv]].
  - exists attrs. by split.
  - destruct Hev as [m Hm]. simpl in Hm. lia.
  - rewrite AddAttr_loop_cons.
    destruct (IH kv) with (attrs := put k v attrs) as (attrs' & Hok & Hget).
    { simpl. lia. }
    { destruct Hev as [m Hm]. exists (m - 1). simpl in Hm. lia. }
    exists attrs'. split; [done|]. intros k0. rewrite Hget.
    cbn [assigned]. destruct (assigned kv k0) as [v0|]; [done|]. cbn [default].
    destruct (String.eqb_spec k k0) as [->|Hk]; cbn [default].
    + apply GetAttr_loop_put_same.
    + by apply GetAttr_loop_put_other.
Qed.


(** X2. [AddAttr] with an odd number of strings panics with an index out
    of range, whatever the pairs before the last string. *)
Theorem AddAttr_odd_panics kv n :
  Nat.Odd (length kv) -> AddAttr kv n = Panic IndexOutOfRange.
Proof.
  unfold AddAttr. generalize (Attrs n) as attrs.
  induction kv as [kv IH] using (induction_ltof1 _ (@length string)).
  unfold ltof in IH. intros attrs [m Hm].
  destruct kv as [|k [|v kv]]; [simpl in Hm; lia|done|].
  rewrite AddAttr_loop_cons. apply IH; [simpl; lia|].
  exists (m - 1). simpl in Hm. lia.
Qed.

Lemma put_names k v attrs :
  map Name (put k v attrs) =
    map Name attrs ++ (if existsb (fun a => String.eqb (Name a) k) attrs
                       then [] else [k]).
Proof.
  unfold put. rewrite AddAttr_set_map.
  assert (map Name
            (map (fun a => if String.eqb (Name a) k then mkAttr (Name a) v else a)
                 attrs) = map Name attrs) as Hn.
  { rewrite map_map. apply map_ext. intros a.
    by destruct (String.eqb (Name a) k). }
  destruct (existsb _ attrs).
  - by rewrite Hn, app_nil_r.
  - by rewrite map_app, Hn.
Qed.

Lemma put_NoDup k v attrs :
  NoDup (map Name attrs) -> NoDup (map Name (put k v attrs)).
Proof.
  intros Hnd. rewrite put_names.
  destruct (existsb _ attrs) eqn:He; [by rewrite app_nil_r|].
  apply NoDup_app. split; [done|]. split; [|apply NoDup_singleton].
  intros x Hx Hk%list_elem_of_singleton.
  apply list_elem_of_fmap in Hx as (a & Ha & Hin).
  assert (existsb (fun a => String.eqb (Name a) k) attrs = true) as Hex.
  { apply existsb_exists. exists a. split; [by apply list_elem_of_In|].
    apply String.eqb_eq. congruence. }
  congruence.
Qed.

(** X3. [AddAttr] keeps the names of the attributes pairwise distinct: it
    overwrites the value of a name that the node has and appends a name
    that it has not. The names the node had stay, in their order. *)
Theorem AddAttr_keeps_names_distinct kv n n' :
  NoDup (map Name (Attrs n)) ->
  AddAttr kv n = Ok n' ->
  NoDup (map Name (Attrs n')) /\
  exists added, map Name (Attrs n') = map Name (Attrs n) ++ added.
Proof.
  unfold AddAttr. intros Hnd Hok.
  apply bind_Ok in Hok as (attrs' & Hok & [= <-]). cbn [Attrs set_Attrs].
  revert Hnd Hok. generalize (Attrs n) as attrs.
  induction kv as [kv IH] using (induction_ltof1 _ (@length string)).
  unfold ltof in IH. intros attrs Hnd Hok.
  destruct kv as [|k [|v kv]]; [|done|].
  - simpl in Hok. simplify_eq. split; [done|]. exists []. by rewrite app_nil_r.
  - rewrite AddAttr_loop_cons in Hok.
    apply IH in Hok as [Hnd' [added Hadd]]; [|simpl; lia|by apply put_NoDup].
    split; [done|]. rewrite Hadd, put_names, <- app_assoc. by eexists.
Qed.

(** X4. [AddBoolAttr] with [false] leaves the node as it is; with [true]
    it appends the attribute with an empty value even when the node has
    the name already, so that [GetAttr] still returns the earlier
    value. *)
Theorem AddBoolAttr_appends key n :
  AddBoolAttr key false n = n /\
  Attrs (AddBoolAttr key true n) = Attrs n ++ [mkAttr key ""] /\
  (key ∈ map Name (Attrs n) ->
   GetAttr key (AddBoolAttr key true n) = GetAttr key n) /\
  (key ∉ map Name (Attrs n) -> GetAttr key (AddBoolAttr key true n) = "").
Proof.
  split; [done|]. split; [done|]. unfold GetAttr, AddBoolAttr.
  cbn [Attrs set_Attrs]. induction (Attrs n) as [|a l IH]; simpl.
  - split; [by intros ?%elem_of_nil|]. intros _. by rewrite String.eqb_refl.
  - destruct (String.eqb_spec (Name a) key) as [Hk|Hk].
    + split; [done|]. intros Hn. exfalso. apply Hn. rewrite Hk. left.
    + destruct IH as [IH1 IH2]. split.
      * intros [?|Hin]%elem_of_cons; [done|]. by apply IH1.
      * intros Hn. apply IH2. intros Hin. apply Hn. by right.
Qed.

(** X5. [OnIntent] with a nil action leaves the node as it is. With an
    action and an intent type below [Seppuku] it stores the action at the
    intent type, leaves the other intent types as they are, and makes the
    handler set non-empty; with an intent type from [Seppuku] on it
    panics with an index out of range. *)
Theorem OnIntent_stores evt (h : H) n :
  length (hdl n) = Seppuku ->
  OnIntent evt None n = Ok n /\
  (evt < Seppuku ->
   exists n', OnIntent evt (Some h) n = Ok n' /\
     hdl n' !! evt = Some (Some h) /\
     (forall evt', evt' <> evt -> hdl n' !! evt' = hdl n !! evt') /\
     length (hdl n') = Seppuku /\
     hdl_Some (hdl n') = true) /\
  (Seppuku <= evt -> OnIntent evt (Some h) n = Panic IndexOutOfRange).
Proof.
  intros Hlen. split; [done|]. unfold OnIntent. split.
  - intros Hevt. destruct (Nat.ltb_spec evt Seppuku); [|lia].
    eexists. split; [done|]. cbn [hdl set_hdl].
    split; [apply list_lookup_insert_eq; lia|].
    split; [intros evt' Hne; by apply list_lookup_insert_ne|].
    split; [etrans; [apply length_insert|done]|].
    unfold hdl_Some. apply existsb_exists. exists (Some h). split; [|done].
    apply list_elem_of_In. apply (list_elem_of_lookup_2 _ evt).
    apply list_lookup_insert_eq. lia.
  - intros Hevt. by destruct (Nat.ltb_spec evt Seppuku); [lia|].
Qed.

End AttrFacts.

Lemma AddAttr_then_GetAttr_witness :
  exists attrs',
    AddAttr ["role"; "tab"; "id"; "a"; "role"; "row"] (zeroNode (H := unit) "p")
      = Ok (set_Attrs attrs' (zeroNode "p")) /\
    forall k, GetAttr k (set_Attrs attrs' (zeroNode (H := unit) "p"))
              = default (GetAttr k (zeroNode (H := unit) "p"))
                        (assigned ["role"; "tab"; "id"; "a"; "role"; "row"] k).
Proof.
  apply (AddAttr_then_GetAttr ["role"; "tab"; "id"; "a"; "role"; "row"]
           (zeroNode (H := unit) "p")).
  exists 3. reflexivity.
Defined.

Lemma AddAttr_odd_panics_witness :
  AddAttr ["role"; "tab"; "id"] (zeroNode (H := unit) "p")
    = Panic IndexOutOfRange.
Proof.
  apply (AddAttr_odd_panics ["role"; "tab"; "id"] (zeroNode (H := unit) "p")).
  exists 1. reflexivity.
Defined.

Lemma AddAttr_keeps_names_distinct_witness :
  NoDup (map Name (Attrs (set_Attrs [mkAttr "role" "row"; mkAttr "id" "a"]
                            (zeroNode (H := unit) "p")))) /\
  exists added,
    map Name (Attrs (set_Attrs [mkAttr "role" "row"; mkAttr "id" "a"]
                       (zeroNode (H := unit) "p")))
      = map Name (Attrs (set_Attrs [mkAttr "role" "tab"]
                           (zeroNode (H := unit) "p"))) ++ added.
Proof.
  apply (AddAttr_keeps_names_distinct ["id"; "a"; "role"; "row"]
           (set_Attrs [mkAttr "role" "tab"] (zeroNode (H := unit) "p"))).
  - simpl. apply NoDup_singleton.
  - vm_compute. reflexivity.
Defined.

Lemma OnIntent_stores_witness :
  OnIntent Click None (zeroNode (H := nat) "button")
    = Ok (zeroNode "button") /\
  (Click < Seppuku ->
   exists n', OnIntent Click (Some 7) (zeroNode (H := nat) "button") = Ok n' /\
     hdl n' !! Click = Some (Some 7) /\
     (forall evt', evt' <> Click ->
        hdl n' !! evt' = hdl (zeroNode (H := nat) "button") !! evt') /\
     length (hdl n') = Seppuku /\
     hdl_Some (hdl n') = true) /\
  (Seppuku <= Click ->
   OnIntent Click (Some 7) (zeroNode (H := nat) "button")
     = Panic IndexOutOfRange).
Proof.
  apply (OnIntent_stores Click 7 (zeroNode (H := nat) "button")).
  reflexivity.
Defined.

(** ** A pass of the serializer *)

Lemma foldM_settled {A St} (f f' : A -> St -> outcome St) cs :
  (forall c s r, f c s = r -> r <> OutOfFuel -> f' c s = r) ->
  forall s r, foldM f cs s = r -> r <> OutOfFuel -> foldM f' cs s = r.
Proof.
  intros Hf. induction cs as [|c cs IH]; intros s r Hr Hne; [done|].
  simpl in *. destruct (f c s) as [s1| |] eqn:Hc.
  - rewrite (Hf c s (Ok s1) Hc) by done. simpl in *. by apply IH.
  - rewrite (Hf c s (Panic e) Hc) by done. done.
  - simpl in Hr. congruence.
Qed.

Section PassFacts.
Context {H : Type}.
Implicit Types (s : sstate H) (nd : Node H).

(** A result or a panic is not changed by more fuel. *)
Lemma serialize_settled fuel : forall fuel' n s r,
  fuel <= fuel' -> serialize fuel n s = r -> r <> OutOfFuel ->
  serialize fuel' n s = r.
Proof.
  induction fuel as [|fuel IH]; intros fuel' n s r Hle Hs Hne;
    [simpl in Hs; congruence|].
  destruct fuel' as [|fuel']; [lia|].
  assert (forall c s0 r0, serialize fuel c s0 = r0 -> r0 <> OutOfFuel ->
            serialize fuel' c s0 = r0) as Hstep.
  { intros c s0 r0. apply IH. lia. }
  cbn [serialize] in *. destruct n as [p|]; [|done].
  destruct (heap s !! p) as [nd|]; [|done].
  destruct (visited nd); [done|].
  destruct (String.eqb _ ""); [done|].
  destruct (String.eqb _ "nothing").
  { revert Hs Hne. apply foldM_settled. intros c s0 r0 Hc Hr0.
    destruct (assert _ _); simpl in *; [|done..]. by apply Hstep. }
  destruct (String.eqb _ "reuse"); [done|].
  destruct (open_element _ _ _) as [[s2 idx]| |]; simpl in *; [|done..].
  destruct (foldM (serialize fuel) _ s2) as [s3| |] eqn:Hf.
  - rewrite (foldM_settled _ _ _ Hstep _ _ Hf) by done. done.
  - rewrite (foldM_settled _ _ _ Hstep _ _ Hf) by done. done.
  - simpl in Hs. congruence.
Qed.

(** X6. A pass terminates on every graph of nodes, shared or cyclic: with
    more fuel than there are unmarked nodes it ends in a result or in a
    panic, and this outcome is the same for every such amount of fuel. *)
Theorem serialize_outcome_settled fuel fuel' n s :
  unvisited (heap s) < fuel -> unvisited (heap s) < fuel' ->
  serialize fuel n s <> OutOfFuel /\
  serialize fuel' n s = serialize fuel n s.
Proof.
  intros Hf Hf'. pose proof (serialize_total fuel n s Hf) as Ht.
  pose proof (serialize_total fuel' n s Hf') as Ht'. split; [done|].
  destruct (Nat.le_ge_cases fuel fuel').
  - by apply (serialize_settled fuel).
  - symmetry. by apply (serialize_settled fuel').
Qed.

(** X7. A tree is serialized once: after a successful pass every node at
    a position under the root is marked, and a second pass from any of
    them, by either serializer, panics with "cycle detected". *)
Theorem serialized_tree_is_spent fuel q s s' path x :
  serialize fuel (Some q) s = Ok s' ->
  resolve (heap s) q path = Some x ->
  (exists ndx, heap s' !! x = Some ndx /\ visited ndx = true) /\
  (forall fuel2, serialize (S fuel2) (Some x) s' = Panic CycleDetected) /\
  (forall fuel2 buf,
     serializeHTML (S fuel2) (Some x) (heap s', buf) = Panic CycleDetected).
Proof.
  intros Hs Hres.
  destruct (reach_marked path _ _ _ _ _ Hs Hres) as (ndx & Hx & Hv).
  split; [by exists ndx|]. split.
  - intros fuel2. cbn [serialize]. by rewrite Hx, Hv.
  - intros fuel2 buf. cbn [serializeHTML fst]. by rewrite Hx, Hv.
Qed.

(** X8. What a successful pass writes: of the nodes, only the mark and
    the identity of a node that has handlers but no identity; the other
    fields, the number of nodes and the previous generation stay, and
    the current generation keeps its records and only receives more. *)
Theorem pass_writes_marks_and_identities fuel n s s' :
  serialize fuel n s = Ok s' ->
  length (heap s') = length (heap s) /\
  g1 (tree s') = g1 (tree s) /\
  (exists K, g0 (tree s') = g0 (tree s) ++ K) /\
  forall q nd, heap s !! q = Some nd ->
    exists nd', heap s' !! q = Some nd' /\
      TagName nd' = TagName nd /\ Classes nd' = Classes nd /\
      Text nd' = Text nd /\ Focused nd' = Focused nd /\
      Children nd' = Children nd /\ Attrs nd' = Attrs nd /\
      old nd' = old nd /\ hdl nd' = hdl nd /\
      (NEntity nd' <> NEntity nd ->
       NEntity nd = 0%Z /\ hdl_Some (hdl nd) = true /\ visited nd = false) /\
      (visited nd = true -> nd' = nd).
Proof.
  intros Hs. apply serialize_pass_le in Hs as [[[Hlen Hle] [Hg1 HK]] _].
  do 3 (split; [done|]). intros q nd Hq.
  destruct (Hle q nd Hq) as (nd' & Hq' & Hn). exists nd'. split; [done|].
  destruct Hn as (? & ? & ? & ? & ? & ? & ? & ? & He & Hv).
  do 8 (split; [done|]). split; [|done].
  intros Hne. destruct He as [?|[? ?]]; [done|].
  do 2 (split; [done|]). destruct (visited nd) eqn:Hvis; [|done].
  specialize (Hv eq_refl). by subst.
Qed.

End PassFacts.

Section PassErrors.
Context {H : Type}.
Implicit Types (s : sstate H) (nd : Node H).

(** X9. The fatal errors of a malformed tree. A node with an empty tag
    name panics with "empty tag name", whatever its children are. A nil
    child panics once the children before it are serialized: under a
    "nothing" node with the "nil child" assertion, under an ordinary
    element with the nil dereference of the recursive call. *)
Theorem malformed_tree_is_fatal fuel s p nd :
  heap s !! p = Some nd -> visited nd = false ->
  let nd1 := set_visited true nd in
  let s1 := set_heap (<[p := nd1]> (heap s)) s in
  (TagName nd = "" -> serialize (S fuel) (Some p) s = Panic EmptyTagName) /\
  (forall l1 l2 s2,
     Children nd = l1 ++ None :: l2 ->
     TagName nd = "nothing" -> Forall (fun c => c <> None) l1 ->
     foldM (serialize fuel) l1 s1 = Ok s2 ->
     serialize (S fuel) (Some p) s = Panic NilChild) /\
  (forall l1 l2 s2 idx s3,
     Children nd = l1 ++ None :: l2 ->
     TagName nd <> "" -> TagName nd <> "nothing" -> TagName nd <> "reuse" ->
     open_element p nd1 s1 = Ok (s2, idx) ->
     foldM (serialize (S fuel)) l1 s2 = Ok s3 ->
     serialize (S (S fuel)) (Some p) s = Panic NilDereference).
Proof.
  intros Hp Hv nd1 s1. split; [|split].
  - intros Ht. cbn [serialize]. rewrite Hp, Hv. cbn [TagName set_visited].
    by rewrite Ht.
  - intros l1 l2 s2 Hch Ht Hl1 Hf. cbn [serialize]. rewrite Hp, Hv.
    cbn [TagName set_visited Children]. rewrite Ht, Hch. cbn [String.eqb Ascii.eqb Bool.eqb].
    simpl String.eqb. fold nd1. fold s1. rewrite foldM_app.
    change (fun c s0 => do _ <~ assert (bool_decide (c <> None)) NilChild ;
                        serialize fuel c s0)
      with (checked (H := H) (serialize fuel)).
    by rewrite (proj2 (foldM_checked_Ok _ l1 s1 s2) (conj Hl1 Hf)).
  - intros l1 l2 s2 idx s3 Hch Hne Hn Hr Ho Hf.
    remember (S fuel) as fuel1 eqn:Hfuel. cbn [serialize]. rewrite Hp, Hv.
    cbn [TagName set_visited Children old NEntity].
    apply String.eqb_neq in Hne, Hn, Hr. rewrite Hne, Hn, Hr.
    fold nd1. fold s1. rewrite Ho. cbn [bind]. rewrite Hch, foldM_app, Hf.
    by subst fuel1.
Qed.


(** X11. An ordinary element that has handlers but no identity receives
    the next identity of the counter during the pass: the node keeps it,
    and, unless the counter wrapped to 0, the record appended for the
    node carries this identity and the handlers of the node, precedes the
    records of its descendants and spans them. *)
Theorem handlers_get_an_identity fuel s p nd s' :
  heap s !! p = Some nd ->
  TagName nd <> "nothing" -> TagName nd <> "reuse" ->
  NEntity nd = 0%Z -> hdl_Some (hdl nd) = true ->
  serialize (S fuel) (Some p) s = Ok s' ->
  let e := (Inc (ctr s)).2 in
  (exists nd', heap s' !! p = Some nd' /\ NEntity nd' = e) /\
  (e <> 0%Z ->
   (e < 10240)%Z /\
   exists K,
     g0 (tree s') =
       g0 (tree s) ++ mkPrenode e (S (length K)) (hdl nd) :: K).
Proof.
  intros Hp Hn Hr He0 Hh Hs e.
  apply serialize_Ok_inv in Hs
    as (p0 & nd0 & [= <-] & Hp0 & Hv & Htag & [(? & _)|[(? & _)|(_ & _ & Hg)]]);
    rewrite Hp in Hp0; simplify_eq.
  destruct Hg as (s2 & idx & s3 & Ho & Hf & Hc).
  pose proof (lookup_lt_Some _ _ _ Hp) as Hlt.
  apply open_marked in Ho
    as (co & e' & nd2 & Hco & He' & Hnd2 & Hh2 & _ & _ & Hg1 & Hg0 & _); [|done..].
  rewrite He0, Hh in Hco. simpl in Hco. subst co. fold e in He'. subst e'.
  pose proof (foldM_serialize_pass_le _ _ _ _ Hf) as (Hle3 & _ & K & HK).
  assert (heap s3 !! p = Some nd2) as Hp3.
  { eapply heap_le_visited; [done| |by subst nd2].
    rewrite Hh2. by apply list_lookup_insert_eq. }
  apply close_element_Ok in Hc as (nd3 & Hp3' & Hh' & _ & _ & _ & Hg0').
  rewrite Hp3 in Hp3'. simplify_eq. split.
  - eexists. rewrite Hh'. split; [done|]. done.
  - intros Hne. cbn [NEntity set_Entity] in Hg0'.
    destruct (Z.eqb_spec e 0) as [|_]; [done|].
    destruct Hg0 as (Hlim & -> & Hg0). destruct Hg0' as [_ Hg0'].
    split; [done|]. exists K.
    rewrite Hg0', HK, Hg0, <- app_assoc. rewrite Hh.
    rewrite alter_app_r_alt by lia. rewrite Nat.sub_diag. simpl.
    do 2 f_equal. unfold set_scp. simpl. f_equal. rewrite !length_app. simpl. lia.
Qed.

End PassErrors.

(** *** Instances *)

(** A [div] with the identity 2 over a [p] with a click handler and a
    [span]. *)
Definition handled_example : sstate unit :=
  fresh_pass [set_Entity 2%Z (AddChildren [Some 1; Some 2] (zeroNode "div"));
              set_hdl (<[Click := Some tt]> noHandlers) (zeroNode "p");
              zeroNode "span"].

Definition handled_result : sstate unit :=
  state_of (serialize 4 (Some 0) handled_example) handled_example.

Lemma serialize_outcome_settled_witness :
  serialize 4 (Some 0) handled_example <> OutOfFuel /\
  serialize 9 (Some 0) handled_example = serialize 4 (Some 0) handled_example.
Proof.
  apply (serialize_outcome_settled 4 9 (Some 0) handled_example);
    vm_compute; lia.
Defined.

Lemma serialized_tree_is_spent_witness :
  (exists ndx, heap handled_result !! 2 = Some ndx /\ visited ndx = true) /\
  (forall fuel2,
     serialize (S fuel2) (Some 2) handled_result = Panic CycleDetected) /\
  (forall fuel2 buf,
     serializeHTML (S fuel2) (Some 2) (heap handled_result, buf)
       = Panic CycleDetected).
Proof.
  apply (serialized_tree_is_spent 4 0 handled_example handled_result [1] 2);
    vm_compute; reflexivity.
Defined.

Lemma pass_writes_marks_and_identities_witness :
  length (heap handled_result) = length (heap handled_example) /\
  g1 (tree handled_result) = g1 (tree handled_example) /\
  (exists K, g0 (tree handled_result) = g0 (tree handled_example) ++ K) /\
  forall q nd, heap handled_example !! q = Some nd ->
    exists nd', heap handled_result !! q = Some nd' /\
      TagName nd' = TagName nd /\ Classes nd' = Classes nd /\
      Text nd' = Text nd /\ Focused nd' = Focused nd /\
      Children nd' = Children nd /\ Attrs nd' = Attrs nd /\
      old nd' = old nd /\ hdl nd' = hdl nd /\
      (NEntity nd' <> NEntity nd ->
       NEntity nd = 0%Z /\ hdl_Some (hdl nd) = true /\ visited nd = false) /\
      (visited nd = true -> nd' = nd).
Proof.
  apply (pass_writes_marks_and_identities 4 (Some 0) handled_example
           handled_result).
  vm_compute. reflexivity.
Defined.

(** The pass of the [p] alone. *)
Definition handled_leaf_result : sstate unit :=
  state_of (serialize 1 (Some 1) handled_example) handled_example.

Lemma handlers_get_an_identity_witness :
  let e := (Inc (ctr handled_example)).2 in
  (exists nd', heap handled_leaf_result !! 1 = Some nd' /\ NEntity nd' = e) /\
  (e <> 0%Z ->
   (e < 10240)%Z /\
   exists K,
     g0 (tree handled_leaf_result) =
       g0 (tree handled_example)
         ++ mkPrenode e (S (length K)) (<[Click := Some tt]> noHandlers) :: K).
Proof.
  apply (handlers_get_an_identity 0 handled_example 1
           (set_hdl (<[Click := Some tt]> noHandlers) (zeroNode "p"))
           handled_leaf_result);
    vm_compute; congruence.
Defined.

(** A node with the tag [tag] whose second child is nil. *)
Definition nil_child_example (tag : string) : sstate unit :=
  fresh_pass [AddChildren [Some 1; None] (zeroNode tag); zeroNode "p"].

(** A node with an empty tag and no child. *)
Definition empty_tag_example : sstate unit := fresh_pass [zeroNode ""].

Lemma malformed_tree_is_fatal_witness :
  serialize 1 (Some 0) empty_tag_example = Panic EmptyTagName /\
  serialize 2 (Some 0) (nil_child_example "nothing") = Panic NilChild /\
  serialize 3 (Some 0) (nil_child_example "div") = Panic NilDereference.
Proof.
  split; [|split].
  - apply (malformed_tree_is_fatal 0 empty_tag_example 0 (zeroNode ""));
      reflexivity.
  - apply (malformed_tree_is_fatal 1 (nil_child_example "nothing") 0
             (AddChildren [Some 1; None] (zeroNode "nothing")) eq_refl eq_refl)
      with (l1 := [Some 1]) (l2 := [])
           (s2 := state_of
                    (serialize 1 (Some 1)
                       (set_heap
                          (<[0 := set_visited true
                                    (AddChildren [Some 1; None]
                                       (zeroNode "nothing"))]>
                             (heap (nil_child_example "nothing")))
                          (nil_child_example "nothing")))
                    (nil_child_example "nothing"));
      [reflexivity|reflexivity|by repeat constructor|vm_compute; reflexivity].
  - eapply (malformed_tree_is_fatal 1 (nil_child_example "div") 0
              (AddChildren [Some 1; None] (zeroNode "div")) eq_refl eq_refl)
      with (l1 := [Some 1]) (l2 := []);
      [reflexivity|discriminate|discriminate|discriminate
      |vm_compute; reflexivity|vm_compute; reflexivity].
Defined.



(** ** The nesting of the instructions *)

Lemma open_after_app l1 l2 d :
  open_after (l1 ++ l2) d =
    match open_after l1 d with
    | Some d' => open_after l2 d'
    | None => None
    end.
Proof.
  revert d. induction l1 as [|i l1 IH]; intros d; [done|]. simpl.
  destruct (op i =? OpCreateElement)%Z; [apply IH|].
  destruct (op i =? OpNext)%Z; [|apply IH]. destruct d; [done|apply IH].
Qed.

Lemma emits_level_refl a v : emits_level a a v v.
Proof. exists []. by rewrite app_nil_r. Qed.

Lemma emits_level_trans a b c v1 v2 v3 :
  emits_level a b v1 v2 -> emits_level b c v2 v3 -> emits_level a c v1 v3.
Proof.
  intros (l1 & -> & H1 & D1) (l2 & -> & H2 & D2). exists (l1 ++ l2).
  rewrite encode_app, app_assoc. split; [done|].
  split; [by apply Forall_app|]. intros d.
  by rewrite open_after_app, D1, D2.
Qed.

(** An instruction that neither descends nor climbs. *)
Lemma emits_level_step a b v vm code val :
  emits_level a b v vm -> arity code = Some (length val) ->
  code <> OpTerm -> code <> OpCreateElement -> code <> OpNext ->
  emits_level a b v (AddInstr vm code val).
Proof.
  intros Hv Ha Ht Hc Hn. eapply emits_level_trans; [done|].
  exists [mkInstr code val]. rewrite AddInstr_enc.
  unfold encode. simpl. rewrite app_nil_r. split; [done|].
  split; [by repeat constructor|]. intros d. cbn [open_after op].
  apply Z.eqb_neq in Hc, Hn. by rewrite Hc, Hn.
Qed.

Lemma emits_level_if (c : bool) a b v v1 v2 :
  emits_level a b v v1 -> emits_level a b v v2 ->
  emits_level a b v (if c then v1 else v2).
Proof. by destruct c. Qed.

Lemma emits_level_attrs attrs : forall a b v vm,
  emits_level a b v vm -> emits_level a b v (emit_attrs attrs vm).
Proof.
  induction attrs as [|x attrs IH]; intros a b v vm Hv; [done|].
  apply IH. by apply emits_level_step.
Qed.

Lemma emits_level_visit_ReID pairs : forall a b v vm,
  emits_level a b v vm -> emits_level a b v (visit emit_ReID pairs vm).
Proof.
  induction pairs as [|p pairs IH]; intros a b v vm Hv; [done|].
  apply IH. by apply emits_level_step.
Qed.

Lemma emits_level_create a v tag :
  emits_level a (S a) v (AddInstr v OpCreateElement [tag]).
Proof.
  exists [mkInstr OpCreateElement [tag]]. rewrite AddInstr_enc.
  unfold encode. cbn [map concat]. rewrite app_nil_r. split; [done|].
  split; [by repeat constructor|]. intros d. cbn. by rewrite Nat.add_succ_r.
Qed.

Lemma emits_level_next a v : emits_level (S a) a v (AddInstr v OpNext []).
Proof.
  exists [mkInstr OpNext []]. rewrite AddInstr_enc.
  unfold encode. cbn [map concat]. rewrite app_nil_r. split; [done|].
  split; [by repeat constructor|]. intros d. cbn. by rewrite Nat.add_succ_r.
Qed.

Section NestingFacts.
Context {H : Type}.
Implicit Types s : sstate H.

Lemma emits_level_open_vm (nd : Node H) e vm :
  emits_level 0 1 vm (open_vm nd e vm).
Proof.
  unfold open_vm. cbv zeta.
  repeat first [ apply emits_level_if | apply emits_level_attrs
               | apply emits_level_step; [|done..] ].
  all: apply emits_level_create.
Qed.

Lemma serialize_emits_level fuel : forall n s s',
  serialize fuel n s = Ok s' -> emits_level 0 0 (vm s) (vm s').
Proof.
  induction fuel as [|fuel IH]; intros n s s' Hs; [done|].
  apply serialize_Ok_inv in Hs
    as (p & nd & -> & Hp & Hv & Hne & Hcases). cbv zeta in Hcases.
  destruct Hcases as [(Hn & Hch & Hf)|[(Hr & t & c & vm2 & Hre & ->)
                     |(Hn & Hr & s2 & idx & s3 & Ho & Hf & Hc)]].
  - apply (foldM_rel (fun s s' => emits_level 0 0 (vm s) (vm s'))) in Hf;
      [done|..].
    + intros; apply emits_level_refl.
    + intros; by eapply emits_level_trans.
    + intros; by eapply IH.
  - pose proof Hre as Hre'. unfold reuse in Hre'.
    apply bind_Ok in Hre' as (_ & _ & Hre').
    apply bind_Ok in Hre' as (sub & Hsub & _).
    rewrite (reuse_spec _ _ _ _ _ _ _ Hsub) in Hre. simplify_eq. cbn [vm].
    apply emits_level_visit_ReID, emits_level_step;
      [apply emits_level_refl|done..].
  - apply open_element_Ok in Ho
      as (courtesy & e & _ & _ & _ & _ & _ & _ & Ho).
    apply close_element_Ok in Hc as (nd' & _ & _ & _ & _ & Hc & _).
    apply (foldM_rel (fun s s' => emits_level 1 1 (vm s) (vm s'))) in Hf.
    + rewrite Hc. eapply emits_level_trans; [|apply emits_level_next].
      eapply emits_level_trans; [|exact Hf]. rewrite Ho.
      apply emits_level_open_vm.
    + intros; apply emits_level_refl.
    + intros; by eapply emits_level_trans.
    + intros c0 s0 s0' _ Hc0. apply IH in Hc0 as (l & Hl & Hb & Hd).
      exists l. do 2 (split; [done|]). intros d.
      specialize (Hd (d + 1)). by rewrite !Nat.add_0_r in Hd.
Qed.

(** X12. The instructions that a successful pass appends are nested
    like brackets: every advance closes an element that an earlier
    create-element of the same pass opened, and every element that the
    pass opens is closed by the end of it. *)
Theorem pass_instructions_are_nested fuel n s s' :
  serialize fuel n s = Ok s' ->
  exists l,
    vm s' = vm s ++ encode l /\ Forall body_instr l /\
    forall d, open_after l d = Some d.
Proof.
  intros (l & Hl & Hb & Hd)%serialize_emits_level. exists l.
  do 2 (split; [done|]). intros d. specialize (Hd d).
  by rewrite !Nat.add_0_r in Hd.
Qed.

End NestingFacts.

(** ** Identities on the wire *)

(** X14. [FormatUint] gives different identities different strings: an
    element id of a program names one identity, and a renaming
    instruction never names the same id twice for two identities. *)
Theorem FormatUint_names_one_identity (a b : Entity) :
  (0 <= a)%Z -> (0 <= b)%Z -> a <> b -> FormatUint a <> FormatUint b.
Proof.
  intros Ha Hb Hne. unfold FormatUint. intros Heq.
  assert (forall n, N.to_uint n <> Decimal.Nil) as Hnil.
  { intros [|p]; [done|]. apply DecimalPos.Unsigned.to_uint_nonnil. }
  apply (f_equal NilZero.uint_of_string) in Heq.
  rewrite !NilZero.usu in Heq by apply Hnil.
  injection Heq as Heq. apply DecimalN.Unsigned.to_uint_inj in Heq. lia.
Qed.

Lemma FormatUint_names_one_identity_witness :
  (12 <> 102)%Z /\ FormatUint 12%Z <> FormatUint 102%Z.
Proof.
  split; [lia|]. apply (FormatUint_names_one_identity 12%Z 102%Z); lia.
Defined.

Lemma pass_instructions_are_nested_witness :
  exists l,
    vm handled_result = vm handled_example ++ encode l /\
    Forall body_instr l /\
    forall d, open_after l d = Some d.
Proof.
  apply (pass_instructions_are_nested 4 (Some 0) handled_example
           handled_result).
  vm_compute. reflexivity.
Defined.

(** The first cycle of the scenario. *)
Definition scenario_cycle : outcome (Engine unit * option XAS) :=
  turncrank scenario_engine (app id) 0%Z.

Lemma short_program_well_formed_witness :
  exists l,
    program_of scenario_cycle = encode (l ++ [mkInstr OpTerm []]) /\
    Forall body_instr l /\
    (Forall short l ->
     decode (length (program_of scenario_cycle)) (program_of scenario_cycle)
       = Some (l ++ [mkInstr OpTerm []], []) /\
     well_formed (program_of scenario_cycle)).
Proof.
  apply (short_program_well_formed scenario_engine
           (state_of scenario_cycle (scenario_engine, None)).1
           (app id) 0%Z (program_of scenario_cycle)).
  vm_compute. reflexivity.
Defined.

(** ** The entity tree *)

(** In the spans of a forest every span counts its record, and two spans
    are nested or apart. *)
Lemma spans_laminar F j1 j2 s1 s2 :
  spans_forest F !! j1 = Some s1 -> spans_forest F !! j2 = Some s2 ->
  j1 < j2 < j1 + s1 -> j2 + s2 <= j1 + s1.
Proof.
  intros H1 H2 Hj.
  destruct (forest_block _ F j1 s1 (le_n _) H1) as ([kids] & _ & Hb & Hin).
  rewrite spans_unfold in Hb.
  assert (length (take s1 (drop j1 (spans_forest F))) = s1) as Hlen.
  { rewrite length_take, length_drop. lia. }
  rewrite Hb in Hlen. simpl in Hlen.
  assert (spans_forest kids !! (j2 - j1 - 1) = Some s2) as Hk.
  { assert ((S (length (spans_forest kids)) :: spans_forest kids)
              !! (j2 - j1) = Some s2) as Hk.
    { rewrite <- Hb. rewrite lookup_take_lt by lia.
      rewrite lookup_drop. by replace (j1 + (j2 - j1)) with j2 by lia. }
    replace (j2 - j1) with (S (j2 - j1 - 1)) in Hk by lia. done. }
  destruct (forest_block _ kids _ s2 (le_n _) Hk) as (_ & _ & _ & Hin2). lia.
Qed.

Lemma spans_positive F j s : spans_forest F !! j = Some s -> 0 < s.
Proof.
  intros Hj.
  destruct (forest_block _ F j s (le_n _) Hj) as ([kids] & _ & Hb & _).
  rewrite spans_unfold in Hb. destruct s; [|lia]. by rewrite take_0 in Hb.
Qed.

Section EtreeMore.
Context {H : Type}.
Implicit Types (t : etree H) (g : list (prenode H)) (r : prenode H).

Lemma locate_from_first g nt : forall i j r,
  (0 <= i)%Z -> locate_from g nt i = (i + Z.of_nat j)%Z ->
  forall j' r', j' < j -> g !! j' = Some r' -> ntt r' <> nt.
Proof.
  induction g as [|r0 g IH]; intros i j r Hi Hl j' r' Hj Hr'; [done|].
  simpl in Hl. destruct (Z.eqb_spec (ntt r0) nt) as [Heq|Hne]; [lia|].
  destruct j' as [|j']; simpl in Hr'; [by simplify_eq|].
  destruct j as [|j]; [lia|].
  apply (IH (i + 1)%Z j r ltac:(lia) ltac:(lia) j' r'); [lia|done].
Qed.

Lemma locate_spec_aux t nt :
  (locate t nt = (-1)%Z <-> nt ∉ ids (g1 t)) /\
  (locate t nt <> (-1)%Z ->
   exists i r,
     locate t nt = Z.of_nat i /\ g1 t !! i = Some r /\ ntt r = nt /\
     forall j r', j < i -> g1 t !! j = Some r' -> ntt r' <> nt).
Proof.
  unfold locate. split; [split|].
  - intros Hl Hin. apply locate_from_absent in Hl; [|lia].
    unfold ids in Hin. apply list_elem_of_fmap in Hin as (r & -> & Hr).
    rewrite Forall_forall in Hl. by apply (Hl r).
  - intros Hn. destruct (Z.eq_dec (locate_from (g1 t) nt 0%Z) (-1)%Z) as [|Hne];
      [done|].
    destruct (locate_from_found (g1 t) nt 0%Z _ ltac:(lia) eq_refl Hne)
      as (r & Hr & Hnt).
    exfalso. apply Hn. unfold ids. apply list_elem_of_fmap. exists r.
    split; [done|]. by eapply list_elem_of_lookup_2.
  - intros Hne.
    destruct (locate_from_found (g1 t) nt 0%Z _ ltac:(lia) eq_refl Hne)
      as (r & Hr & Hnt).
    destruct (locate_from_range (g1 t) nt 0%Z ltac:(lia)) as [?|Hrange]; [done|].
    rewrite Z.sub_0_r in Hr.
    exists (Z.to_nat (locate_from (g1 t) nt 0%Z)), r.
    split; [lia|]. split; [done|]. split; [done|].
    intros j r' Hj Hr'.
    eapply (locate_from_first (g1 t) nt 0%Z _ r); [lia| |exact Hj|exact Hr'].
    lia.
Qed.

(** X15. [locate] returns -1 exactly when no record of the previous
    generation has the identity, and otherwise the index of the first
    record that has it. *)
Theorem locate_finds_the_first_record t nt :
  (locate t nt = (-1)%Z <-> nt ∉ ids (g1 t)) /\
  (locate t nt <> (-1)%Z ->
   exists i r,
     locate t nt = Z.of_nat i /\ g1 t !! i = Some r /\ ntt r = nt /\
     forall j r', j < i -> g1 t !! j = Some r' -> ntt r' <> nt).
Proof. apply locate_spec_aux. Qed.

(** X16. In a generation whose spans are those of a forest, [children] of
    an identity that is present never panics: it returns the records
    from the first one with this identity on, as many as its span
    counts, and they are the preorder listing of the subtree rooted at
    this record. For an absent identity it returns nil. *)
Theorem children_is_the_subtree t nt F :
  map scp (g1 t) = spans_forest F ->
  (nt ∉ ids (g1 t) -> children t nt = Ok []) /\
  (nt ∈ ids (g1 t) ->
   exists i r sub tr,
     locate t nt = Z.of_nat i /\ g1 t !! i = Some r /\ ntt r = nt /\
     children t nt = Ok (r :: sub) /\
     r :: sub = take (scp r) (drop i (g1 t)) /\
     subtree_at F i tr /\ map scp (r :: sub) = spans tr).
Proof.
  intros HF.
  destruct (locate_spec_aux t nt) as [Habs Hpres].
  split.
  - intros Hn. apply children_absent. by apply Habs.
  - intros Hin. destruct Hpres as (i & r & Hi & Hr & Hnt & _).
    { intros Hl. by apply Habs in Hl. }
    assert (spans_forest F !! i = Some (scp r)) as Hsp.
    { by rewrite <- HF, list_lookup_fmap, Hr. }
    destruct (forest_block _ F _ _ (le_n _) Hsp) as (tr & Hat & Hb & Hle).
    pose proof (spans_positive _ _ _ Hsp) as Hpos.
    rewrite <- HF, length_map in Hle.
    assert (exists sub, take (scp r) (drop i (g1 t)) = r :: sub) as [sub Hsub].
    { destruct (scp r) as [|k] eqn:Hk; [lia|].
      rewrite (drop_S _ r) by done. simpl. by eexists. }
    exists i, r, sub, tr. do 3 (split; [done|]). split; [|split; [done|]].
    + unfold children. rewrite Hi.
      destruct (Z.eqb_spec (Z.of_nat i) (-1)); [lia|].
      rewrite Nat2Z.id, Hr.
      destruct (Nat.leb_spec (i + scp r) (length (g1 t))); [|lia].
      by rewrite Hsub.
    + split; [done|]. rewrite <- Hsub, <- Hb, <- HF.
      symmetry. etrans; [|symmetry; apply fmap_take]. f_equal.
      symmetry. apply fmap_drop.
Qed.

End EtreeMore.

Section ParentsFacts.
Context {H : Type}.
Implicit Types (t : etree H) (g : list (prenode H)) (r : prenode H).

Lemma parents_loop_elem g i j r :
  r ∈ parents_loop g i j <->
  exists j', j' <= j /\ g !! j' = Some r /\ i < scp r + j'.
Proof.
  induction j as [|j IH].
  - cbn [parents_loop]. destruct (g !! 0) as [r0|] eqn:H0.
    + destruct (Nat.ltb_spec i (scp r0 + 0)).
      * rewrite list_elem_of_singleton. split.
        -- intros ->. exists 0. by rewrite H0.
        -- intros (j' & Hj' & Hr & _). replace j' with 0 in Hr by lia. congruence.
      * split; [by intros ?%elem_of_nil|].
        intros (j' & Hj' & Hr & Hi). replace j' with 0 in * by lia.
        simplify_eq. lia.
    + split; [by intros ?%elem_of_nil|].
      intros (j' & Hj' & Hr & Hi). replace j' with 0 in * by lia. congruence.
  - cbn [parents_loop]. rewrite elem_of_app, IH. split.
    + intros [Hh|(j' & Hj' & Hr & Hi)]; [|exists j'; split; [lia|done]].
      destruct (g !! S j) as [r0|] eqn:H0; [|by apply elem_of_nil in Hh].
      destruct (Nat.ltb_spec i (scp r0 + S j)); [|by apply elem_of_nil in Hh].
      apply list_elem_of_singleton in Hh as ->. by exists (S j).
    + intros (j' & Hj' & Hr & Hi).
      destruct (decide (j' = S j)) as [->|Hne].
      * left. rewrite Hr. destruct (Nat.ltb_spec i (scp r + S j)); [|lia].
        by apply list_elem_of_singleton.
      * right. exists j'. split; [lia|done].
Qed.

Lemma parents_loop_sorted g F i j :
  map scp g = spans_forest F -> j <= i ->
  Sorted.StronglySorted (fun r r' => scp r < scp r') (parents_loop g i j).
Proof.
  intros HF. induction j as [|j IH]; intros Hj.
  - cbn [parents_loop]. destruct (g !! 0) as [r0|]; [|constructor].
    destruct (_ <? _); repeat constructor.
  - cbn [parents_loop]. destruct (g !! S j) as [r0|] eqn:H0; [|apply IH; lia].
    destruct (Nat.ltb_spec i (scp r0 + S j)); [|apply IH; lia].
    simpl. constructor; [apply IH; lia|].
    apply Forall_forall. intros r' (j' & Hj' & Hr' & Hi)%parents_loop_elem.
    assert (spans_forest F !! j' = Some (scp r')) as Hs1.
    { by rewrite <- HF, list_lookup_fmap, Hr'. }
    assert (spans_forest F !! S j = Some (scp r0)) as Hs2.
    { by rewrite <- HF, list_lookup_fmap, H0. }
    pose proof (spans_laminar F j' (S j) _ _ Hs1 Hs2). lia.
Qed.

(** X17. [parents] of an identity that no record of the previous
    generation has panics with the assertion. In a generation whose spans
    are those of a forest, [parents] of a present identity returns
    exactly the records whose span covers the first record with this
    identity, this record first and then outwards: each record of the
    chain has a larger span than the one before. *)
Theorem parents_are_the_enclosing_records t nt F :
  map scp (g1 t) = spans_forest F ->
  (nt ∉ ids (g1 t) -> parents t nt = Panic EntityDoesNotExist) /\
  (nt ∈ ids (g1 t) ->
   exists i chain,
     locate t nt = Z.of_nat i /\ parents t nt = Ok chain /\
     head chain = g1 t !! i /\
     (forall r, r ∈ chain <->
                exists j, g1 t !! j = Some r /\ j <= i < j + scp r) /\
     Sorted.StronglySorted (fun r r' => scp r < scp r') chain).
Proof.
  intros HF. destruct (locate_spec_aux t nt) as [Habs Hpres]. split.
  - intros Hn. apply Habs in Hn. unfold parents. by rewrite Hn.
  - intros Hin. destruct Hpres as (i & r & Hi & Hr & Hnt & _).
    { intros Hl. by apply Habs in Hl. }
    exists i, (parents_loop (g1 t) i i).
    split; [done|]. split; [|split; [|split]].
    + unfold parents. rewrite Hi.
      destruct (Z.eqb_spec (Z.of_nat i) (-1)); [lia|].
      cbn [negb assert bind]. by rewrite Nat2Z.id.
    + assert (spans_forest F !! i = Some (scp r)) as Hsp.
      { by rewrite <- HF, list_lookup_fmap, Hr. }
      pose proof (spans_positive _ _ _ Hsp) as Hpos.
      destruct i as [|i]; cbn [parents_loop]; rewrite Hr.
      * by destruct (Nat.ltb_spec 0 (scp r + 0)); [|lia].
      * by destruct (Nat.ltb_spec (S i) (scp r + S i)); [|lia].
    + intros r'. rewrite parents_loop_elem. split.
      * intros (j & Hj & Hr' & Hc). exists j. split; [done|lia].
      * intros (j & Hr' & Hj). exists j. split; [lia|]. split; [done|lia].
    + by eapply parents_loop_sorted.
Qed.

End ParentsFacts.

(** *** Instances *)

(** A previous generation with the identity 2 over the identities 4 and
    6, and its shape. *)
Definition family_tree : etree unit :=
  mkEtree [] [mkPrenode 2%Z 3 noHandlers; mkPrenode 4%Z 1 noHandlers;
              mkPrenode 6%Z 1 noHandlers].

Definition family_shape : list shape := [Sh [Sh []; Sh []]].

Lemma children_is_the_subtree_witness :
  (2%Z ∉ ids (g1 family_tree) -> children family_tree 2%Z = Ok []) /\
  (2%Z ∈ ids (g1 family_tree) ->
   exists i r sub tr,
     locate family_tree 2%Z = Z.of_nat i /\ g1 family_tree !! i = Some r /\
     ntt r = 2%Z /\
     children family_tree 2%Z = Ok (r :: sub) /\
     r :: sub = take (scp r) (drop i (g1 family_tree)) /\
     subtree_at family_shape i tr /\ map scp (r :: sub) = spans tr).
Proof.
  apply (children_is_the_subtree family_tree 2%Z family_shape).
  reflexivity.
Defined.

Lemma parents_are_the_enclosing_records_witness :
  (6%Z ∉ ids (g1 family_tree) ->
   parents family_tree 6%Z = Panic EntityDoesNotExist) /\
  (6%Z ∈ ids (g1 family_tree) ->
   exists i chain,
     locate family_tree 6%Z = Z.of_nat i /\
     parents family_tree 6%Z = Ok chain /\
     head chain = g1 family_tree !! i /\
     (forall r, r ∈ chain <->
                exists j, g1 family_tree !! j = Some r /\ j <= i < j + scp r) /\
     Sorted.StronglySorted (fun r r' => scp r < scp r') chain).
Proof.
  apply (parents_are_the_enclosing_records family_tree 6%Z family_shape).
  reflexivity.
Defined.

Example family_parents :
  map ntt (state_of (parents family_tree 6%Z) []) = [6%Z; 2%Z].
Proof. reflexivity. Qed.

(** ** Interactions and cycles *)

Lemma noHandlers_lookup {H : Type} (it : IntentType) :
  it < Seppuku -> @noHandlers H !! it = Some None.
Proof. intros Hit. unfold noHandlers. by apply lookup_replicate_2. Qed.

Section DispatchFacts.
Context {State : Type}.
Implicit Types (e : Engine State) (ctx : Context State) (cf : CallFrame).

Lemma find_handler_none (ps : list (prenode (Action State))) it :
  Forall (fun r => phdl r !! it = Some None) ps ->
  find_handler ps it = Ok noHandlers.
Proof.
  induction ps as [|r ps IH]; intros Hps; [done|].
  apply Forall_cons in Hps as [Hr Hps]. cbn [find_handler]. rewrite Hr.
  by apply IH.
Qed.

Lemma find_handler_first (l1 l2 : list (prenode (Action State))) r it f :
  Forall (fun r' => phdl r' !! it = Some None) l1 ->
  phdl r !! it = Some (Some f) ->
  find_handler (l1 ++ r :: l2) it = Ok (phdl r).
Proof.
  induction l1 as [|r0 l1 IH]; intros Hl1 Hr.
  - simpl. by rewrite Hr.
  - apply Forall_cons in Hl1 as [Hr0 Hl1]. simpl. rewrite Hr0. by apply IH.
Qed.

(** X18. The dispatch of an interaction stamped with the current
    generation. An entity that the previous generation does not have is
    fatal. Otherwise the records enclosing the entity are tried from the
    innermost outwards: when none has an action for the interaction type
    the cycle is skipped, no program is emitted and the engine is left as
    it was; else the action of the first record that has one is run on
    the context, and the cycle is the one of this action, with the call
    frame of the interaction in the engine. *)
Theorem intent_runs_the_innermost_handler e cf rnd :
  cf_Gen cf = gen e ->
  cf_IntentType cf < Seppuku ->
  (locate (et e) (cf_Entity cf) = (-1)%Z ->
   step e (ReactToIntent cf) rnd = Panic EntityDoesNotExist) /\
  (forall chain,
     parents (et e) (cf_Entity cf) = Ok chain ->
     Forall (fun r => phdl r !! cf_IntentType cf = Some None) chain ->
     turncrank e (ReactToIntent cf) rnd = Ok (set_CallFrame cf e, None) /\
     step e (ReactToIntent cf) rnd
       = Ok (set_CallFrame zeroCallFrame e, None)) /\
  (forall l1 r l2 f,
     parents (et e) (cf_Entity cf) = Ok (l1 ++ r :: l2) ->
     Forall (fun r' => phdl r' !! cf_IntentType cf = Some None) l1 ->
     phdl r !! cf_IntentType cf = Some (Some f) ->
     (forall ctx, ReactToIntent cf e ctx = Ok (set_CallFrame cf e, f ctx)) /\
     turncrank e (ReactToIntent cf) rnd
       = turncrank (set_CallFrame cf e) (app f) rnd).
Proof.
  intros Hgen Hit.
  assert (forall ctx, ReactToIntent cf e ctx =
            (do ps <~ parents (et e) (cf_Entity cf) ;
             do h <~ find_handler ps (cf_IntentType cf) ;
             match h !! cf_IntentType cf with
             | None => Panic IndexOutOfRange
             | Some None => Ok (set_CallFrame cf e, NoAction)
             | Some (Some f) => Ok (set_CallFrame cf e, f ctx)
             end)) as Hdo.
  { intros ctx. unfold ReactToIntent. rewrite Hgen, Z.eqb_refl. done. }
  split; [|split].
  - intros Hl. unfold step, turncrank. rewrite Hdo. unfold parents.
    cbn [et set_CallFrame] in *. by rewrite Hl.
  - intros chain Hp Hnone.
    assert (turncrank e (ReactToIntent cf) rnd = Ok (set_CallFrame cf e, None))
      as Ht.
    { unfold turncrank. rewrite Hdo, Hp. cbn [bind].
      rewrite find_handler_none by done. cbn [bind].
      by rewrite noHandlers_lookup. }
    split; [done|]. unfold step. by rewrite Ht.
  - intros l1 r l2 f Hp Hl1 Hr.
    assert (forall ctx, ReactToIntent cf e ctx = Ok (set_CallFrame cf e, f ctx))
      as Hf.
    { intros ctx. rewrite Hdo, Hp. cbn [bind].
      rewrite (find_handler_first l1 l2 r _ f) by done. cbn [bind].
      by rewrite Hr. }
    split; [done|]. unfold turncrank. by rewrite Hf.
Qed.

End DispatchFacts.

Section LogFacts.
Context {State : Type}.
Implicit Types (e : Engine State).

Lemma step_log (i : input) e rnd e' xas :
  step e (action_of i) rnd = Ok (e', xas) ->
  match xas with
  | None => gen e' = gen e
  | Some x => gen e' = (gen e + 1)%Z /\ exists body, x = body ++ [OpTerm]
  end.
Proof.
  intros Hs. unfold step in Hs.
  apply bind_Ok in Hs as ([e1 xas1] & Ht & [= <- <-]).
  unfold turncrank in Ht. apply bind_Ok in Ht as ([e0 ctx0] & Ha & Ht).
  apply action_of_engine in Ha as [cf ->].
  assert (forall ctx,
    (do s <~ render (set_CallFrame cf e) ctx ;
     Ok (mkEngine (AddInstr (vm s) OpTerm [])
           (Z.land (gen (set_CallFrame cf e) + 1) 1) (ngen (tree s))
           (gen (set_CallFrame cf e) + 1)%Z (vx ctx)
           (Root (set_CallFrame cf e)) (ng_CallFrame (set_CallFrame cf e))
           (FreePool (heap s)),
         Some (AddInstr (vm s) OpTerm []))) = Ok (e1, xas1) ->
    match xas1 with
    | None => gen e1 = gen e
    | Some x => gen e1 = (gen e + 1)%Z /\ exists body, x = body ++ [OpTerm]
    end) as Hrun.
  { intros ctx (s & _ & [= <- <-])%bind_Ok. cbn [gen set_CallFrame].
    split; [done|]. by exists (vm s). }
  cbv zeta in Ht. destruct (is_NoAction ctx0).
  - destruct (negb (randPick rnd)).
    + injection Ht as <- <-. done.
    + apply Hrun in Ht. by destruct xas1.
  - apply Hrun in Ht. by destruct xas1.
Qed.

Lemma run_log_spec inputs : forall e e',
  run e inputs = Ok e' ->
  exists progs,
    run_log e inputs = Ok (e', progs) /\
    gen e' = (gen e + Z.of_nat (length progs))%Z /\
    length progs <= length inputs /\
    Forall (fun x => exists body, x = body ++ [OpTerm]) progs.
Proof.
  induction inputs as [|[i rnd] inputs IH]; intros e e' Hr;
    unfold run in Hr; simpl in Hr.
  - simplify_eq. exists []. cbn.
    split; [done|]. split; [lia|]. split; [lia|constructor].
  - apply bind_Ok in Hr as (e1 & H1 & H2).
    apply bind_Ok in H1 as ([e1' xas] & Hs & [= <-]).
    destruct (IH e1' e' H2) as (progs & Hl & Hg & Hlen & Hall).
    pose proof (step_log _ _ _ _ _ Hs) as Hstep.
    cbn [run_log fst snd]. rewrite Hs. cbn [bind]. rewrite Hl. cbn [bind].
    destruct xas as [x|].
    + destruct Hstep as (Hg1 & Hx). exists (x :: progs).
      split; [done|]. cbn [length]. split; [lia|]. split; [lia|].
      by constructor.
    + rename Hstep into Hg1. exists progs.
      split; [done|]. split; [lia|]. split; [cbn [length]; lia|done].
Qed.

(** X19. The generation counts the programs. After any sequence of
    inputs to a new engine, the generation of the engine is the number
    of programs that it has sent since its creation: one for each cycle
    that was not skipped, none for a skipped one; and each program ends
    with the terminate. *)
Theorem generation_counts_the_programs root (empty : State) init inputs e :
  run (New root empty init) inputs = Ok e ->
  exists progs,
    run_log (New root empty init) inputs = Ok (e, progs) /\
    gen e = Z.of_nat (length progs) /\
    length progs <= length inputs /\
    Forall (fun x => exists body, x = body ++ [OpTerm]) progs.
Proof.
  intros (progs & Hl & Hg & Hlen & Hall)%run_log_spec.
  exists progs. split; [done|]. split; [|done].
  rewrite Hg. cbn [gen New]. lia.
Qed.

End LogFacts.

(** *** Instances *)

(** A [div] that counts the clicks on it or on the [button] inside it:
    the application state is the count. *)
Definition count_click : Action nat :=
  fun ctx => mkContext (ng ctx) (option_map S (vx ctx)).

Definition clicker_widget : Widget nat := fun _ =>
  ([BGetNode "div"; BOnIntent 0 Click (Some count_click);
    BGetNode "button"; BGiveKey 1; BAddChildren 0 [Some 1]], Some 0).

(** The engine after its first cycle. *)
Definition clicker_engine : Engine nat :=
  state_of (run (New clicker_widget 0 []) [(Act id, 0%Z)])
           (New clicker_widget 0 []).

Example clicker_generation :
  gen clicker_engine = 1%Z /\
  map (fun r => (ntt r, scp r)) (g1 (et clicker_engine)) = [(4%Z, 2); (2%Z, 1)].
Proof. vm_compute. done. Qed.

(** A click on the button, stamped with the current generation. *)
Definition button_click : CallFrame := mkCallFrame 2%Z Click 1%Z.

Lemma intent_runs_the_innermost_handler_witness :
  (locate (et clicker_engine) (cf_Entity button_click) = (-1)%Z ->
   step clicker_engine (ReactToIntent button_click) 0%Z
     = Panic EntityDoesNotExist) /\
  (forall chain,
     parents (et clicker_engine) (cf_Entity button_click) = Ok chain ->
     Forall (fun r => phdl r !! cf_IntentType button_click = Some None) chain ->
     turncrank clicker_engine (ReactToIntent button_click) 0%Z
       = Ok (set_CallFrame button_click clicker_engine, None) /\
     step clicker_engine (ReactToIntent button_click) 0%Z
       = Ok (set_CallFrame zeroCallFrame clicker_engine, None)) /\
  (forall l1 r l2 f,
     parents (et clicker_engine) (cf_Entity button_click) = Ok (l1 ++ r :: l2) ->
     Forall (fun r' => phdl r' !! cf_IntentType button_click = Some None) l1 ->
     phdl r !! cf_IntentType button_click = Some (Some f) ->
     (forall ctx, ReactToIntent button_click clicker_engine ctx
                  = Ok (set_CallFrame button_click clicker_engine, f ctx)) /\
     turncrank clicker_engine (ReactToIntent button_click) 0%Z
       = turncrank (set_CallFrame button_click clicker_engine) (app f) 0%Z).
Proof.
  apply (intent_runs_the_innermost_handler clicker_engine button_click 0%Z).
  - vm_compute. reflexivity.
  - vm_compute. lia.
Defined.

(** The click reaches the handler of the [div]: the count goes from 0 to
    1 and the next generation is rendered. *)
Example button_click_counts :
  exists e' xas,
    step clicker_engine (ReactToIntent button_click) 0%Z = Ok (e', Some xas) /\
    eg0 clicker_engine = Some 0 /\ eg0 e' = Some 1 /\ gen e' = 2%Z.
Proof. eexists _, _. vm_compute. done. Qed.

(** The first cycle, a click whose handler finds nothing to do, and a
    click on the button. *)
Definition clicker_inputs : list (input (State := nat) * Z) :=
  [(Act id, 0%Z); (Act DoNothing, 0%Z);
   (Intent (mkCallFrame 2%Z Click 1%Z), 0%Z)].

Definition clicker_after : Engine nat :=
  state_of (run (New clicker_widget 0 []) clicker_inputs)
           (New clicker_widget 0 []).

Lemma generation_counts_the_programs_witness :
  exists progs,
    run_log (New clicker_widget 0 []) clicker_inputs
      = Ok (clicker_after, progs) /\
    gen clicker_after = Z.of_nat (length progs) /\
    length progs <= length clicker_inputs /\
    Forall (fun x => exists body, x = body ++ [OpTerm]) progs.
Proof.
  apply (generation_counts_the_programs clicker_widget 0 [] clicker_inputs
           clicker_after).
  vm_compute. reflexivity.
Defined.

Example clicker_programs :
  gen clicker_after = 2%Z /\
  exists p1 p2,
    run_log (New clicker_widget 0 []) clicker_inputs
      = Ok (clicker_after, [p1; p2]).
Proof. split; [vm_compute; reflexivity|]. eexists _, _. vm_compute. reflexivity. Qed.

(** ** The values of a context *)

Section ValueFacts.
Context {rtype : Type} `{Countable rtype}.
Context {any : Type} `{!Reflect rtype any}.
Implicit Types (st : list (@vctx rtype _ _ any)) (ctx : Context nat).

Lemma asserts_typed T v :
  has_type T v -> TypeOf v <> None -> asserts T v = true.
Proof.
  unfold has_type, asserts. destruct (TypeOf v) as [d|]; [|done].
  destruct (IsInterface T); [done|]. intros -> _. by apply bool_decide_eq_true.
Qed.

Lemma asserts_nil T v : TypeOf v = None -> asserts T v = false.
Proof. unfold asserts. by intros ->. Qed.


Lemma Set_Elem_nil kt v : TypeOf v = None -> Set_Elem kt v = None.
Proof. unfold Set_Elem. by intros ->. Qed.

(** X20. [WithValue] then [ValueOf] at the same type returns the value
    written, when this value is not a nil interface value, and [ValueOf]
    at every other type returns what it returned before; this holds for
    a context without store, which gets a new one, and for a context
    with one, and for an interface type as for any other. *)
Theorem WithValue_then_ValueOf T value st ctx :
  has_type T value -> TypeOf value <> None ->
  (forall p, vx ctx = Some p -> p < length st) ->
  exists st' ctx',
    WithValue T value st ctx = inl (st', ctx') /\
    ng ctx' = ng ctx /\
    ValueOf T st' ctx' = inl value /\
    forall T', T' <> T -> ValueOf T' st' ctx' = ValueOf T' st ctx.
Proof.
  intros Hty Hnn Hp. pose proof (asserts_typed _ _ Hty Hnn) as Has.
  unfold WithValue, ensure, ValueOf.
  destruct (vx ctx) as [p|] eqn:Hvx.
  - specialize (Hp p eq_refl). destruct (lookup_lt_is_Some_2 st p Hp) as [kv Hkv].
    rewrite Hkv. eexists _, _. split; [done|]. split; [done|]. cbn [vx].
    rewrite list_lookup_insert_eq by done. split.
    + rewrite lookup_insert_eq. by rewrite Has.
    + intros T' Hne. by rewrite lookup_insert_ne.
  - rewrite lookup_app_r, Nat.sub_diag by lia. cbn [lookup list_lookup].
    eexists _, _. split; [done|]. split; [done|]. cbn [vx].
    rewrite list_lookup_insert_eq by (rewrite length_app; simpl; lia). split.
    + rewrite lookup_insert_eq. by rewrite Has.
    + intros T' Hne. by rewrite lookup_insert_ne, lookup_empty.
Qed.

(** X21. [WithValue] writes into the store that the context points to:
    afterwards every context that points to the same store, the one
    passed in included, reads the new value (a value that is not a nil
    interface value), and a context that points to another store reads
    what it read before. On a context without store the value goes to a
    new store, and no context that existed reads it. *)
Theorem WithValue_writes_the_shared_store T value st ctx st' ctx' :
  has_type T value -> TypeOf value <> None ->
  WithValue T value st ctx = inl (st', ctx') ->
  (forall p ctx2, vx ctx = Some p -> vx ctx2 = Some p ->
     ValueOf T st' ctx2 = inl value) /\
  (forall ctx2 q T', vx ctx2 = Some q -> q < length st -> vx ctx <> Some q ->
     ValueOf T' st' ctx2 = ValueOf T' st ctx2) /\
  (vx ctx = None -> vx ctx' = Some (length st) /\ length st' = S (length st)).
Proof.
  intros Hty Hnn. pose proof (asserts_typed _ _ Hty Hnn) as Has.
  unfold WithValue, ensure.
  destruct (vx ctx) as [p|] eqn:Hvx.
  - destruct (st !! p) as [kv|] eqn:Hkv; [|done]. intros [= <- <-].
    pose proof (lookup_lt_Some _ _ _ Hkv) as Hp.
    split; [|split; [|done]].
    + intros p0 ctx2 [= <-] H2. unfold ValueOf. rewrite H2.
      rewrite list_lookup_insert_eq by done.
      rewrite lookup_insert_eq. by rewrite Has.
    + intros ctx2 q T' H2 Hq Hne. unfold ValueOf. rewrite H2.
      rewrite list_lookup_insert_ne by congruence. done.
  - rewrite lookup_app_r, Nat.sub_diag by lia. cbn [lookup list_lookup].
    intros [= <- <-]. split; [done|]. split.
    + intros ctx2 q T' H2 Hq _. unfold ValueOf. rewrite H2.
      rewrite list_lookup_insert_ne by lia. by rewrite lookup_app_l.
    + intros _. split; [done|]. rewrite length_insert, length_app. simpl. lia.
Qed.

Lemma Mutate_app ms1 ms2 st ctx :
  Mutate (ms1 ++ ms2) st ctx =
    match Mutate ms1 st ctx with
    | inl (st', _) => Mutate ms2 st' ctx
    | inr e => inr e
    end.
Proof.
  revert st. induction ms1 as [|m ms1 IH]; intros st; [done|]. simpl.
  destruct (mutate_one _ _ _); [apply IH|done].
Qed.


(** X30. A nil interface value that [WithValue] has stored cannot be
    read: [ValueOf] at its type panics on the type assertion and a
    mutator of its type makes [Mutate] panic, whereas in a store that
    has no value of the type [ValueOf] returns the zero value and the
    mutator starts from it. *)
Theorem nil_interface_value_is_not_readable T value st ctx :
  TypeOf value = None ->
  (forall p, vx ctx = Some p -> p < length st) ->
  exists st' ctx',
    WithValue T value st ctx = inl (st', ctx') /\
    ValueOf T st' ctx' = inr FailedAssertion /\
    (forall f ms, Mutate (Mutator T f :: ms) st' ctx' = inr NotAssignable) /\
    (forall st0 ctx0 q kv,
       vx ctx0 = Some q -> st0 !! q = Some kv -> kv !! T = None ->
       ValueOf T st0 ctx0 = inl (zero T) /\
       forall f, Mutate [Mutator T f] st0 ctx0
                 = inl (<[q := <[T := f (zero T)]> kv]> st0, ctx0)).
Proof.
  intros Hnil Hp.
  assert (forall st0 ctx0 q kv,
       vx ctx0 = Some q -> st0 !! q = Some kv -> kv !! T = None ->
       ValueOf T st0 ctx0 = inl (zero T) /\
       forall f, Mutate [Mutator T f] st0 ctx0
                 = inl (<[q := <[T := f (zero T)]> kv]> st0, ctx0)) as Habs.
  { intros st0 ctx0 q kv Hq Hkv Hk. split.
    - unfold ValueOf. by rewrite Hq, Hkv, Hk.
    - intros f. cbn [Mutate]. unfold mutate_one.
      by rewrite Hq, Hkv, Hk. }
  assert (forall st1 q kv, q < length st1 ->
    ValueOf T (<[q := <[T := value]> kv]> st1) (mkContext (ng ctx) (Some q))
      = inr FailedAssertion /\
    forall f ms,
      Mutate (Mutator T f :: ms) (<[q := <[T := value]> kv]> st1)
        (mkContext (ng ctx) (Some q)) = inr NotAssignable) as Hnilv.
  { intros st1 q kv Hq. split.
    - unfold ValueOf. cbn [vx].
      rewrite list_lookup_insert_eq by done. rewrite lookup_insert_eq.
      by rewrite asserts_nil.
    - intros f ms. cbn [Mutate]. unfold mutate_one. cbn [vx].
      rewrite list_lookup_insert_eq by done. rewrite lookup_insert_eq.
      by rewrite Set_Elem_nil. }
  unfold WithValue, ensure. destruct (vx ctx) as [p|] eqn:Hvx.
  - specialize (Hp p eq_refl).
    destruct (lookup_lt_is_Some_2 st p Hp) as [kv Hkv]. rewrite Hkv.
    eexists _, _. split; [done|].
    destruct (Hnilv st p kv Hp) as [Hv Hm].
    split; [exact Hv|split; [exact Hm|exact Habs]].
  - rewrite lookup_app_r, Nat.sub_diag by lia. cbn [lookup list_lookup].
    eexists _, _. split; [done|].
    destruct (Hnilv (st ++ [∅]) (length st) ∅) as [Hv Hm];
      [rewrite length_app; simpl; lia|].
    split; [exact Hv|split; [exact Hm|exact Habs]].
Qed.

End ValueFacts.

(** *** Instances *)

(** A small universe of types: [int] and [bool], the interface [Widget]
    and the type [Button] that implements it. A value is nil or carries
    the name of its dynamic type. *)
Definition go_any : Type := option (string * nat).

#[global] Instance go_reflect : Reflect string go_any := {
  TypeOf v := fst <$> v;
  IsInterface T := String.eqb T "Widget";
  Implements d T := String.eqb d "Button" && String.eqb T "Widget";
  DirectlyAssignable d T := false;
  retype T v := v;
  zero T := if String.eqb T "Widget" then None else Some (T, 0)
}.

(** A store with one map, and a context that points to it. *)
Definition one_store : list (@vctx string _ _ go_any) :=
  [{["int" := Some ("int", 5)]}].
Definition store_context : Context nat := mkContext (Some TheEngine) (Some 0).

(** A button stored as a [Widget]. *)
Lemma WithValue_then_ValueOf_witness :
  exists st' ctx',
    WithValue "Widget" (Some ("Button", 1)) one_store store_context
      = inl (st', ctx') /\
    ng ctx' = ng store_context /\
    ValueOf "Widget" st' ctx' = inl (Some ("Button", 1)) /\
    forall T', T' <> "Widget" ->
      ValueOf T' st' ctx' = ValueOf T' one_store store_context.
Proof.
  apply (WithValue_then_ValueOf "Widget" (Some ("Button", 1)) one_store store_context).
  - reflexivity.
  - discriminate.
  - intros p [= <-]. simpl. lia.
Defined.

Lemma WithValue_writes_the_shared_store_witness :
  let st' :=
    <[0 := <["Widget" := Some ("Button", 1)]> {["int" := Some ("int", 5)]}]>
      one_store in
  (forall p ctx2, vx store_context = Some p -> vx ctx2 = Some p ->
     ValueOf "Widget" st' ctx2 = inl (Some ("Button", 1))) /\
  (forall ctx2 q T', vx ctx2 = Some q -> q < length one_store ->
     vx store_context <> Some q ->
     ValueOf T' st' ctx2 = ValueOf T' one_store ctx2) /\
  (vx store_context = None ->
   vx store_context = Some (length one_store) /\
   length st' = S (length one_store)).
Proof.
  apply (WithValue_writes_the_shared_store "Widget" (Some ("Button", 1))
           one_store store_context
           (<[0 := <["Widget" := Some ("Button", 1)]>
                     {["int" := Some ("int", 5)]}]> one_store)
           store_context).
  - reflexivity.
  - discriminate.
  - reflexivity.
Defined.

Definition double : go_any -> go_any := fmap (fun v => (v.1, 2 * v.2)).


Example mutate_doubles :
  exists st', Mutate [Mutator "int" double] one_store store_context
                = inl (st', store_context) /\
              ValueOf "int" st' store_context = inl (Some ("int", 10)).
Proof. eexists. split; vm_compute; reflexivity. Qed.

(** A mutator of the interface type [Widget] on a stored button. *)
Example mutate_widget :
  exists st1 ctx1 st2,
    WithValue "Widget" (Some ("Button", 1)) one_store store_context
      = inl (st1, ctx1) /\
    Mutate [Mutator "Widget" double] st1 ctx1 = inl (st2, ctx1) /\
    ValueOf "Widget" st2 ctx1 = inl (Some ("Button", 2)).
Proof. eexists _, _, _. repeat split; vm_compute; reflexivity. Qed.

(** A nil [Widget]. *)
Lemma nil_interface_value_is_not_readable_witness :
  exists st' ctx',
    WithValue "Widget" None one_store store_context = inl (st', ctx') /\
    ValueOf "Widget" st' ctx' = inr FailedAssertion /\
    (forall f ms, Mutate (Mutator "Widget" f :: ms) st' ctx'
                  = inr NotAssignable) /\
    (forall st0 ctx0 q kv,
       vx ctx0 = Some q -> st0 !! q = Some kv -> kv !! "Widget" = None ->
       ValueOf "Widget" st0 ctx0 = inl (zero "Widget") /\
       forall f, Mutate [Mutator "Widget" f] st0 ctx0
                 = inl (<[q := <["Widget" := f (zero "Widget")]> kv]> st0,
                        ctx0)).
Proof.
  apply (nil_interface_value_is_not_readable "Widget" None one_store store_context).
  - reflexivity.
  - intros p [= <-]. simpl. lia.
Defined.

(** ** Element ids *)

Section ElementIDFacts.
Context {State : Type}.
Implicit Types (ctx : Context State) (n : Node (Action State)).

(** X23. [ElementID] returns the decimal string of the identity of the
    node. A node without identity is given the next identity of the
    counter first, which needs the engine of the context; a node that has
    one is left as it is, and so is the counter: asking again, from any
    context and at any state of the counter, returns the same string. *)
Theorem ElementID_is_stable ctx c n c1 n1 id :
  ElementID ctx c n = Ok (c1, n1, id) ->
  id = FormatUint (NEntity n1) /\
  (NEntity n <> 0%Z -> c1 = c /\ n1 = n) /\
  (NEntity n = 0%Z ->
   ng ctx <> None /\ c1 = uint32 (c + 2) /\ n1 = set_Entity c1 n) /\
  (NEntity n1 <> 0%Z ->
   forall ctx' c', ElementID ctx' c' n1 = Ok (c', n1, id)).
Proof.
  unfold ElementID. intros He.
  destruct (Z.eqb_spec (NEntity n) 0) as [H0|H0].
  - destruct (ng ctx) as [ng0|] eqn:Hng; [|done].
    unfold GiveKey, Inc in He. cbn [bind] in He. injection He as <- <- <-.
    split; [done|]. split; [done|]. split; [done|].
    intros Hne ctx' c'. cbn [NEntity set_Entity] in *.
    by destruct (Z.eqb_spec (uint32 (c + 2)) 0).
  - cbn [bind] in He. injection He as <- <- <-.
    split; [done|]. split; [done|]. split; [done|].
    intros _ ctx' c'. by destruct (Z.eqb_spec (NEntity n) 0).
Qed.

End ElementIDFacts.

Lemma ElementID_is_stable_witness :
  let n := zeroNode (H := Action unit) "label" in
  let ctx := mkContext (Some TheEngine) (Some tt) in
  "2" = FormatUint (NEntity (set_Entity 2%Z n)) /\
  (NEntity n <> 0%Z -> 2%Z = 0%Z /\ set_Entity 2%Z n = n) /\
  (NEntity n = 0%Z ->
   ng ctx <> None /\ 2%Z = uint32 (0 + 2) /\
   set_Entity 2%Z n = set_Entity 2%Z n) /\
  (NEntity (set_Entity 2%Z n) <> 0%Z ->
   forall ctx' c', ElementID ctx' c' (set_Entity 2%Z n)
                   = Ok (c', set_Entity 2%Z n, "2")).
Proof.
  intros n ctx.
  apply (ElementID_is_stable ctx 0%Z n 2%Z (set_Entity 2%Z n) "2").
  vm_compute. reflexivity.
Defined.

(** ** Identities within a generation *)

Lemma minted_bound n : forall c,
  (0 <= c)%Z -> (c + 2 * Z.of_nat n < 2 ^ 32)%Z ->
  Forall (fun x => (x <= c + 2 * Z.of_nat n)%Z) (minted c n).
Proof.
  induction n as [|n IH]; intros c H0 Hw; cbn [minted]; [constructor|].
  rewrite Inc_nowrap by lia. cbn [fst snd]. constructor; [lia|].
  eapply Forall_impl; [apply IH; lia|]. intros x Hx. simpl in Hx. lia.
Qed.

Section UniqueFacts.
Context {H : Type}.
Implicit Types (s : sstate H) (nd : Node H) (h : list (Node H))
  (g : list (prenode H)).

(** The pass reaches the node at [p]: it is marked, may take the identity
    [NEntity nd'], and the records with the identities [K] are
    appended. *)
Lemma told_apart_visit h g g' c c' p nd nd' K :
  told_apart h g c ->
  h !! p = Some nd -> visited nd = false -> visited nd' = true ->
  TagName nd' = TagName nd ->
  (0 <= NEntity nd' <= c')%Z ->
  (TagName nd = "reuse" -> NEntity nd' <> 0%Z) ->
  (c <= c')%Z ->
  ids g' = ids g ++ K ->
  Forall (fun x => (x <= c')%Z) K -> NoDup K ->
  Forall (fun x => (x = NEntity nd /\ x <> 0) \/ c < x)%Z K ->
  told_apart (<[p := nd']> h) g' c'.
Proof.
  intros (H0 & Hn & Hg & Hnd & H5 & H6) Hp Hv Hv' Ht He Hr Hc Hids HK HKnd HKx.
  pose proof (lookup_lt_Some _ _ _ Hp) as Hlt.
  rewrite Forall_forall in Hg, HKx.
  split; [lia|]. split; [|split; [|split; [|split]]].
  - intros q ndq Hq. destruct (decide (q = p)) as [->|Hne].
    + rewrite list_lookup_insert_eq in Hq by done. simplify_eq.
      split; [done|]. by rewrite Ht.
    + rewrite list_lookup_insert_ne in Hq by done.
      destruct (Hn _ _ Hq) as [? ?]. split; [lia|done].
  - rewrite Hids. apply Forall_app. split; [|done].
    apply Forall_forall. intros x Hx. specialize (Hg x Hx). simpl in Hg. lia.
  - rewrite Hids. apply NoDup_app. split; [done|]. split; [|done].
    intros x Hx HxK. destruct (HKx x HxK) as [[-> Hx0]|Hlt'].
    + by apply (H5 p nd).
    + specialize (Hg x Hx). simpl in Hg. lia.
  - intros q ndq Hq Hvq Hne0. destruct (decide (q = p)) as [->|Hne].
    { rewrite list_lookup_insert_eq in Hq by done. congruence. }
    rewrite list_lookup_insert_ne in Hq by done.
    rewrite Hids. intros [Hin|Hin]%elem_of_app.
    + by apply (H5 q ndq).
    + destruct (HKx _ Hin) as [[Heq Hx0]|Hlt'].
      * apply (H6 p q nd ndq); try done; congruence.
      * destruct (Hn _ _ Hq) as [? _]. lia.
  - intros q1 q2 nd1 nd2 Hne Hq1 Hq2 Hv1 Hv2 Hne0.
    destruct (decide (q1 = p)) as [->|Hne1].
    { rewrite list_lookup_insert_eq in Hq1 by done. congruence. }
    destruct (decide (q2 = p)) as [->|Hne2].
    { rewrite list_lookup_insert_eq in Hq2 by done. congruence. }
    rewrite list_lookup_insert_ne in Hq1, Hq2 by done.
    by apply (H6 q1 q2).
Qed.

Lemma ids_alter_set_scp g i k : ids (alter (set_scp k) i g) = ids g.
Proof.
  unfold ids. revert i. induction g as [|r g IH]; intros [|i]; simpl; try done.
  f_equal. apply IH.
Qed.

Lemma ids_app g1 g2 : ids (g1 ++ g2) = ids g1 ++ ids g2.
Proof. unfold ids. apply map_app. Qed.

Lemma serialize_within_budget M B fuel : forall n s s',
  within_budget M B s -> serialize fuel n s = Ok s' -> within_budget M B s'.
Proof.
  induction fuel as [|fuel IH]; intros n s s' Hin Hs; [done|].
  assert (forall cs s0 s1, within_budget M B s0 ->
            foldM (serialize fuel) cs s0 = Ok s1 -> within_budget M B s1)
    as Hloop.
  { intros cs s0 s1 H0 Hf. revert H0.
    apply (foldM_rel (fun a b => within_budget M B a -> within_budget M B b)
             (serialize fuel) cs); [auto|auto| |exact Hf].
    intros c sa sb _ Hc Ha. by eapply IH. }
  destruct Hin as (Hta & HM & HB & HB32).
  apply serialize_Ok_inv in Hs as (p & nd & -> & Hp & Hv & Htag & Hcases).
  cbv zeta in Hcases.
  pose proof Hta as (H0 & Hn & _).
  destruct (Hn _ _ Hp) as [Hbound Hreuse].
  pose proof (unvisited_mark (heap s) p nd) as Hmark.
  assert (1 <= M)%Z as HM1 by lia.
  assert (1 <= unvisited (heap s)) as Hu.
  { specialize (Hmark (set_visited true nd) Hp Hv eq_refl). lia. }
  destruct Hcases as [(_ & _ & Hf)|[(Hr & t & c & vm2 & Hre & ->)
                                   |(_ & _ & s2 & idx & s3 & Ho & Hf & Hcl)]].
  - eapply Hloop; [|done]. split; [|split; [done|split; [|done]]]; simpl.
    + apply (told_apart_visit (heap s) (g0 (tree s)) _ (ctr s) _ p nd
               (set_visited true nd) [] Hta Hp Hv eq_refl eq_refl).
      * done.
      * done.
      * lia.
      * by rewrite app_nil_r.
      * constructor.
      * constructor.
      * constructor.
    + specialize (Hmark (set_visited true nd) Hp Hv eq_refl). nia.
  - pose proof Hre as Hre'. unfold reuse in Hre'.
    apply bind_Ok in Hre' as (_ & _ & Hre').
    apply bind_Ok in Hre' as (sub & Hsub & _).
    rewrite (reuse_spec _ _ _ _ _ _ _ Hsub) in Hre. simplify_eq.
    assert (length sub <= length (g1 (tree s))) as Hsublen.
    { unfold children in Hsub. destruct (_ =? _)%Z; [simplify_eq; simpl; lia|].
      destruct (g1 (tree s) !! _) as [r|]; [|done].
      destruct (_ <=? _) eqn:Hle; [|done]. simplify_eq.
      rewrite length_take, length_drop. lia. }
    set (k := length sub) in *.
    assert (ctr s + 2 * Z.of_nat (k - 1) < 2 ^ 32)%Z as Hw by nia.
    pose proof (Inc_n_nowrap (k - 1) (ctr s) H0 Hw) as Hc'.
    destruct (minted_nowrap (ctr s) (k - 1) H0 Hw) as [Hgt Hmnd].
    pose proof (minted_bound (k - 1) (ctr s) H0 Hw) as Hmb.
    split; [|split; [done|split; [|done]]]; cbn [heap tree ctr g0 g1 set_heap].
    + apply (told_apart_visit (heap s) (g0 (tree s)) _ (ctr s) _ p nd
               (set_visited true nd)
               (new_ids (NEntity nd) (ctr s) k) Hta Hp Hv eq_refl eq_refl).
      * cbn [NEntity set_visited]. lia.
      * done.
      * lia.
      * rewrite ids_app. f_equal. apply ids_renamed. by rewrite new_ids_length.
      * unfold new_ids. destruct k as [|k']; [constructor|].
        replace (S k' - 1) with k' in * by lia.
        constructor; [lia|]. eapply Forall_impl; [exact Hmb|]. simpl. lia.
      * unfold new_ids. destruct k as [|k']; [constructor|].
        replace (S k' - 1) with k' in * by lia.
        constructor; [|done]. intros Hin. rewrite Forall_forall in Hgt.
        specialize (Hgt _ Hin). simpl in Hgt. lia.
      * unfold new_ids. destruct k as [|k']; [constructor|].
        replace (S k' - 1) with k' in * by lia.
        constructor; [left; split; [done|by apply Hreuse]|].
        eapply Forall_impl; [exact Hgt|]. simpl. intros x Hx. by right.
    + specialize (Hmark (set_visited true nd) Hp Hv eq_refl). nia.
  - apply open_marked in Ho
      as (co & e & nd2 & Hco & He & Hnd2 & Hh2 & _ & Hc2 & Hg1 & Hg0 & _);
      [|done..].
    assert (ctr s + 2 < 2 ^ 32)%Z as Hw by nia.
    pose proof (Inc_nowrap (ctr s) H0 Hw) as HInc.
    assert (within_budget M B s2) as Hin2.
    { assert ((0 <= e <= ctr s2)%Z /\ (ctr s <= ctr s2 <= ctr s + 2)%Z /\
              (e <> 0 -> (e = NEntity nd /\ e <> 0) \/ ctr s < e)%Z /\
              (TagName nd = "reuse" -> e <> 0%Z)) as (Hebound & Hcmono & Hex & Her).
      { subst e. rewrite Hc2. destruct co; rewrite ?HInc; cbn [fst snd].
        - split; [lia|]. split; [lia|]. split; [intros _; right; lia|lia].
        - split; [lia|]. split; [lia|]. split; [by left|done]. }
      split; [|split; [by rewrite Hg1|split; [|done]]].
      - rewrite Hh2.
        destruct (Z.eqb_spec e 0) as [He0|He0].
        + destruct Hg0 as [Hg0 _]. rewrite Hnd2.
          apply (told_apart_visit (heap s) (g0 (tree s)) _ (ctr s) _ p nd
                   (set_Entity e (set_visited true nd)) []
                   Hta Hp Hv eq_refl eq_refl).
          * cbn [NEntity set_Entity]. lia.
          * done.
          * lia.
          * by rewrite Hg0, app_nil_r.
          * constructor.
          * constructor.
          * constructor.
        + destruct Hg0 as (_ & _ & Hg0). rewrite Hnd2.
          apply (told_apart_visit (heap s) (g0 (tree s)) _ (ctr s) _ p nd
                   (set_Entity e (set_visited true nd)) [e]
                   Hta Hp Hv eq_refl eq_refl).
          * cbn [NEntity set_Entity]. lia.
          * done.
          * lia.
          * by rewrite Hg0, ids_app.
          * constructor; [lia|constructor].
          * apply NoDup_singleton.
          * constructor; [by apply Hex|constructor].
      - rewrite Hh2.
        assert (visited nd2 = true) as Hv2 by (by subst nd2).
        specialize (Hmark nd2 Hp Hv Hv2). nia. }
    pose proof (Hloop _ _ _ Hin2 Hf) as (Hta3 & HM3 & HB3 & _).
    apply close_element_Ok in Hcl as (nd3 & _ & Hh' & Hc' & Hg1' & _ & Hg0').
    split; [|split; [by rewrite Hg1'|split; [by rewrite Hh', Hc'|done]]].
    rewrite Hh', Hc'.
    assert (ids (g0 (tree s')) = ids (g0 (tree s3))) as Hids.
    { destruct (NEntity nd3 =? 0)%Z; [by rewrite Hg0'|].
      destruct Hg0' as [_ ->]. apply ids_alter_set_scp. }
    unfold told_apart in *. by rewrite Hids.
Qed.

End UniqueFacts.

Section UniqueBuild.
Context {State : Type}.
Implicit Types (h : list (Node (Action State)))
  (g : list (prenode (Action State))) (b : bstate (State := State)).

(** The node at [p] is replaced by one with the same identity, tag and
    mark. *)
Lemma told_apart_same h g c p nd nd' :
  told_apart h g c -> h !! p = Some nd ->
  NEntity nd' = NEntity nd -> TagName nd' = TagName nd ->
  visited nd' = visited nd ->
  told_apart (<[p := nd']> h) g c.
Proof.
  intros (H0 & Hn & Hg & Hnd & H5 & H6) Hp He Ht Hv.
  pose proof (lookup_lt_Some _ _ _ Hp) as Hlt.
  assert (forall q ndq, <[p := nd']> h !! q = Some ndq ->
            exists nd0, h !! q = Some nd0 /\ NEntity ndq = NEntity nd0 /\
                        TagName ndq = TagName nd0 /\ visited ndq = visited nd0)
    as Hsame.
  { intros q ndq Hq. destruct (decide (q = p)) as [->|Hne].
    - rewrite list_lookup_insert_eq in Hq by done. simplify_eq. by exists nd.
    - rewrite list_lookup_insert_ne in Hq by done. by exists ndq. }
  split; [done|]. split; [|split; [done|split; [done|split]]].
  - intros q ndq (nd0 & Hq0 & -> & -> & _)%Hsame. by apply (Hn q).
  - intros q ndq (nd0 & Hq0 & -> & _ & ->)%Hsame. by apply (H5 q).
  - intros q1 q2 nd1 nd2 Hne (n1 & Hq1 & -> & _ & ->)%Hsame
      (n2 & Hq2 & -> & _ & ->)%Hsame. by apply (H6 q1 q2).
Qed.

(** The node at [p] takes an identity above the counter, which moves up
    to it at least. *)
Lemma told_apart_key h g c c' p nd nd' :
  told_apart h g c -> h !! p = Some nd ->
  (c < NEntity nd' <= c')%Z -> TagName nd' = TagName nd ->
  told_apart (<[p := nd']> h) g c'.
Proof.
  intros (H0 & Hn & Hg & Hnd & H5 & H6) Hp He Ht.
  pose proof (lookup_lt_Some _ _ _ Hp) as Hlt.
  rewrite Forall_forall in Hg.
  split; [lia|]. split; [|split; [|split; [done|split]]].
  - intros q ndq Hq. destruct (decide (q = p)) as [->|Hne].
    + rewrite list_lookup_insert_eq in Hq by done. simplify_eq.
      split; [lia|]. intros _. lia.
    + rewrite list_lookup_insert_ne in Hq by done.
      destruct (Hn _ _ Hq) as [? ?]. split; [lia|done].
  - apply Forall_forall. intros x Hx. specialize (Hg x Hx). simpl in Hg. lia.
  - intros q ndq Hq Hvq Hne0. destruct (decide (q = p)) as [->|Hne].
    + rewrite list_lookup_insert_eq in Hq by done. simplify_eq.
      intros Hin. specialize (Hg _ Hin). simpl in Hg. lia.
    + rewrite list_lookup_insert_ne in Hq by done. by apply (H5 q).
  - intros q1 q2 nd1 nd2 Hne Hq1 Hq2 Hv1 Hv2 Hne0.
    destruct (decide (q1 = p)) as [->|Hne1];
      destruct (decide (q2 = p)) as [->|Hne2]; try done.
    + rewrite list_lookup_insert_eq in Hq1 by done.
      rewrite list_lookup_insert_ne in Hq2 by done. simplify_eq.
      destruct (Hn _ _ Hq2) as [? _]. lia.
    + rewrite list_lookup_insert_eq in Hq2 by done.
      rewrite list_lookup_insert_ne in Hq1 by done. simplify_eq.
      destruct (Hn _ _ Hq1) as [? _]. lia.
    + rewrite list_lookup_insert_ne in Hq1, Hq2 by done. by apply (H6 q1 q2).
Qed.

(** A node is appended: one without identity that is no "reuse" node, or
    one with an identity above the counter. *)
Lemma told_apart_push h g c c' nd0 :
  told_apart h g c -> (c <= c')%Z ->
  (NEntity nd0 = 0%Z /\ TagName nd0 <> "reuse") \/ (c < NEntity nd0 <= c')%Z ->
  told_apart (h ++ [nd0]) g c'.
Proof.
  intros (H0 & Hn & Hg & Hnd & H5 & H6) Hc He.
  rewrite Forall_forall in Hg.
  assert (forall q ndq, (h ++ [nd0]) !! q = Some ndq ->
            (q < length h /\ h !! q = Some ndq) \/ (q = length h /\ ndq = nd0))
    as Hcases.
  { intros q ndq Hq. destruct (decide (q < length h)) as [Hlt|Hge].
    - left. by rewrite lookup_app_l in Hq.
    - right. rewrite lookup_app_r in Hq by lia.
      destruct (q - length h) as [|k] eqn:Hk; simpl in Hq; [|done].
      split; [lia|congruence]. }
  split; [lia|]. split; [|split; [|split; [done|split]]].
  - intros q ndq [[_ Hq]|[_ ->]]%Hcases.
    + destruct (Hn _ _ Hq) as [? ?]. split; [lia|done].
    + destruct He as [[-> Hr]|He]; [split; [lia|done]|]. split; [lia|]. lia.
  - apply Forall_forall. intros x Hx. specialize (Hg x Hx). simpl in Hg. lia.
  - intros q ndq [[_ Hq]|[_ ->]]%Hcases Hvq Hne0; [by apply (H5 q)|].
    destruct He as [[? _]|He]; [done|].
    intros Hin. specialize (Hg _ Hin). simpl in Hg. lia.
  - intros q1 q2 nd1 nd2 Hne [[Hl1 Hq1]|[Hl1 ->]]%Hcases
      [[Hl2 Hq2]|[Hl2 ->]]%Hcases Hv1 Hv2 Hne0.
    + by apply (H6 q1 q2).
    + destruct (Hn _ _ Hq1) as [? _]. destruct He as [[-> _]|He]; [done|lia].
    + destruct (Hn _ _ Hq2) as [? _]. destruct He as [[? _]|He]; [done|lia].
    + lia.
Qed.

Lemma on_node_told_apart p f b b' g :
  (forall nd nd', f nd = Ok nd' ->
     NEntity nd' = NEntity nd /\ TagName nd' = TagName nd /\
     visited nd' = visited nd) ->
  told_apart b.1 g b.2 -> on_node p f b = Ok b' ->
  told_apart b'.1 g b'.2 /\ b'.2 = b.2 /\ length b'.1 = length b.1.
Proof.
  intros Hf Hta Ho. unfold on_node in Ho.
  destruct (b.1 !! p) as [nd|] eqn:Hp; [|done].
  apply bind_Ok in Ho as (nd' & Hnd' & [= <-]). cbn [fst snd].
  destruct (Hf _ _ Hnd') as (He & Ht & Hv).
  split; [by eapply told_apart_same|]. split; [done|apply length_insert].
Qed.

Lemma on_node_key_told_apart ctx p always focus b b' g :
  told_apart b.1 g b.2 -> (b.2 + 2 < 2 ^ 32)%Z ->
  on_node_key ctx p always focus b = Ok b' ->
  told_apart b'.1 g b'.2 /\ (b.2 <= b'.2 <= b.2 + 2)%Z /\
  length b'.1 = length b.1.
Proof.
  intros Hta Hw Ho. unfold on_node_key in Ho.
  destruct (b.1 !! p) as [nd|] eqn:Hp; [|done].
  pose proof Hta as (H0 & _).
  destruct (always || _).
  - destruct (ng ctx); [|done]. unfold GiveKey in Ho.
    rewrite Inc_nowrap in Ho by done. injection Ho as <-. cbn [fst snd].
    split; [|split; [lia|apply length_insert]].
    eapply told_apart_key; [done|done| |].
    + cbn [NEntity set_Entity]. lia.
    + by destruct focus.
  - injection Ho as <-. cbn [fst snd].
    split; [|split; [lia|apply length_insert]].
    eapply told_apart_same; [done|done|..]; by destruct focus.
Qed.

Lemma run_bop_told_apart ctx op b b' g :
  match op with BGetNode tagname => tagname <> "reuse" | _ => True end ->
  told_apart b.1 g b.2 -> (b.2 + 2 < 2 ^ 32)%Z ->
  run_bop ctx op b = Ok b' ->
  told_apart b'.1 g b'.2 /\ (b.2 <= b'.2 <= b.2 + 2)%Z /\
  length b'.1 <= S (length b.1).
Proof.
  intros Hop Hta Hw Hr.
  assert (forall p f,
    (forall nd nd', f nd = Ok nd' ->
       NEntity nd' = NEntity nd /\ TagName nd' = TagName nd /\
       visited nd' = visited nd) ->
    on_node p f b = Ok b' ->
    told_apart b'.1 g b'.2 /\ (b.2 <= b'.2 <= b.2 + 2)%Z /\
    length b'.1 <= S (length b.1)) as Hon.
  { intros p f Hf Ho.
    destruct (on_node_told_apart p f b b' g Hf Hta Ho) as (? & Hc & Hl).
    split; [done|]. split; lia. }
  assert (forall p always focus,
    on_node_key ctx p always focus b = Ok b' ->
    told_apart b'.1 g b'.2 /\ (b.2 <= b'.2 <= b.2 + 2)%Z /\
    length b'.1 <= S (length b.1)) as Hkey.
  { intros p always focus Ho.
    destruct (on_node_key_told_apart ctx p always focus b b' g Hta Hw Ho)
      as (? & ? & Hl). split; [done|]. split; lia. }
  destruct op; cbn [run_bop] in Hr.
  - injection Hr as <-. unfold GetNode. cbn [fst snd].
    split; [|split; [lia|rewrite length_app; simpl; lia]].
    apply (told_apart_push _ _ b.2); [done|lia|]. by left.
  - eapply Hon; [|done]. by intros ?? [= <-].
  - eapply Hon; [|done]. by intros ?? [= <-].
  - by eapply Hkey.
  - eapply Hon; [|done]. intros nd nd' Ha.
    unfold AddAttr in Ha. apply bind_Ok in Ha as (a & _ & [= <-]). done.
  - eapply Hon; [|done]. intros nd nd' Ha.
    unfold OnIntent in Ha. destruct h; [|by simplify_eq].
    destruct (_ <? _); by simplify_eq.
  - eapply Hon; [|done]. intros nd nd' Ha.
    unfold AddRole, AddAttr in Ha. apply bind_Ok in Ha as (a & _ & [= <-]). done.
  - eapply Hon; [|done]. intros nd nd' [= <-].
    unfold AddClasses. by destruct (String.eqb _ _).
  - eapply Hon; [|done]. intros nd nd' [= <-].
    unfold AddBoolAttr. by destruct val.
  - by eapply Hkey.
  - by eapply Hkey.
  - unfold GetNode, on_node, on_node_key in Hr. cbn [fst snd] in Hr.
    rewrite lookup_app_r, Nat.sub_diag in Hr by done. simpl in Hr.
    rewrite list_lookup_insert_eq in Hr
      by (rewrite length_app; simpl; lia).
    destruct (ng ctx); [|done]. unfold GiveKey, Inc in Hr. simpl in Hr.
    pose proof Hta as (H0 & _).
    assert (uint32 (b.2 + 2) = (b.2 + 2)%Z) as Hu.
    { unfold uint32. apply Z.mod_small. lia. }
    rewrite Hu in Hr. injection Hr as <-. cbn [fst snd].
    rewrite list_insert_insert_eq.
    rewrite insert_app_r_alt, Nat.sub_diag by done. simpl.
    split; [|split; [lia|rewrite length_app; simpl; lia]].
    apply (told_apart_push _ _ b.2); [done|lia|]. right. simpl. lia.
  - unfold GetNode, on_node in Hr. cbn [fst snd] in Hr.
    rewrite lookup_app_r, Nat.sub_diag in Hr by done. simpl in Hr.
    injection Hr as <-. cbn [fst snd].
    rewrite insert_app_r_alt, Nat.sub_diag by done. simpl.
    split; [|split; [lia|rewrite length_app; simpl; lia]].
    apply (told_apart_push _ _ b.2); [done|lia|]. by left.
Qed.

Lemma build_told_apart ctx g prog : forall b b',
  api_only prog -> told_apart b.1 g b.2 ->
  (b.2 + 2 * Z.of_nat (length prog) < 2 ^ 32)%Z ->
  foldM (run_bop ctx) prog b = Ok b' ->
  told_apart b'.1 g b'.2 /\
  (b'.2 <= b.2 + 2 * Z.of_nat (length prog))%Z /\
  length b'.1 <= length b.1 + length prog.
Proof.
  induction prog as [|op prog IH]; intros b b' Hapi Hta Hw Hf; simpl in Hf.
  - simplify_eq. split; [done|]. simpl. lia.
  - apply bind_Ok in Hf as (b1 & H1 & H2).
    apply Forall_cons in Hapi as [Hop Hapi]. simpl length in Hw.
    destruct (run_bop_told_apart ctx op b b1 g Hop Hta) as (Hta1 & Hc1 & Hl1);
      [lia|done|].
    destruct (IH b1 b' Hapi Hta1) as (Hta' & Hc' & Hl'); [lia|done|].
    split; [done|]. simpl length. lia.
Qed.

End UniqueBuild.

Section UniqueCycle.
Context {State : Type}.

(** X24. Within a generation no two records have the same identity: in
    every cycle of an engine whose widget builds its nodes through the
    construction interface, the identities recorded by the pass are
    pairwise distinct, as long as the cycle is small enough for the
    32-bit counter not to wrap (each call of the build and each node of
    the pass mints a bounded number of identities); and the counter is
    not behind any of them. *)
Theorem identities_are_unique_in_a_generation
    root (empty : State) init inputs e ctx s :
  (forall ctx, api_only (root ctx).1) ->
  run (New root empty init) inputs = Ok e ->
  render e ctx = Ok s ->
  (2 * Z.of_nat (length (root ctx).1)
     * (2 + Z.of_nat (length (g1 (et e)))) + 1 < 2 ^ 32)%Z ->
  NoDup (ids (g0 (tree s))) /\
  Forall (fun x => (x <= ctr s)%Z) (ids (g0 (tree s))).
Proof.
  intros Hapi Hrun Hr Hbudget.
  apply run_idle in Hrun as [Hidle HR]; [|apply New_idle|done].
  destruct Hidle as (Hc & _ & _ & Hg0 & Hpool).
  simpl in HR. unfold render in Hr. rewrite HR in Hr.
  specialize (Hapi ctx). destruct (root ctx) as [prog nd].
  cbn [fst] in *.
  apply bind_Ok in Hr as (b & Hb & Hs).
  assert (0 <= cnt e <= 1)%Z as Hcnt.
  { rewrite Hc. pose proof (Z.mod_pos_bound (gen e) 2). lia. }
  set (G := Z.of_nat (length (g1 (et e)))) in *.
  assert (0 <= G)%Z as HG by (unfold G; lia).
  destruct (build_told_apart ctx [] prog (npool e, cnt e) b Hapi)
    as (Hta & Hcb & Hlb); [| |done|].
  { rewrite Hpool. cbn [fst snd]. split; [lia|].
    split; [by intros q nd0 ?|]. split; [constructor|].
    split; [constructor|]. split; [by intros q nd0 ?|].
    by intros q1 q2 nd1 nd2 _ ?. }
  { cbn [snd]. nia. }
  cbn [fst snd] in Hcb, Hlb. rewrite Hpool in Hlb. simpl in Hlb.
  pose proof (unvisited_length b.1) as Hun.
  assert (within_budget (1 + G) (2 ^ 32 - 1) (mkS b.1 (et e) b.2 [])) as Hin.
  { split; [|split; [|split]]; cbn [heap tree ctr].
    - by rewrite Hg0.
    - unfold G. lia.
    - nia.
    - lia. }
  pose proof (serialize_within_budget _ _ _ _ _ _ Hin Hs)
    as ((_ & _ & Hle & Hnd & _) & _).
  by split.
Qed.

End UniqueCycle.

(** The second pass of the clicker. *)
Definition clicker_context : Context nat := mkContext (Some TheEngine) (Some 0).

Definition clicker_pass : sstate (Action nat) :=
  state_of (render clicker_engine clicker_context)
           (mkS [] (mkEtree [] []) 0%Z []).

Lemma identities_are_unique_in_a_generation_witness :
  NoDup (ids (g0 (tree clicker_pass))) /\
  Forall (fun x => (x <= ctr clicker_pass)%Z) (ids (g0 (tree clicker_pass))).
Proof.
  apply (identities_are_unique_in_a_generation clicker_widget 0 []
           [(Act id, 0%Z)] clicker_engine clicker_context clicker_pass).
  - intros ctx. repeat constructor; discriminate.
  - vm_compute. reflexivity.
  - vm_compute. reflexivity.
  - vm_compute. reflexivity.
Defined.

Example clicker_pass_ids :
  ids (g0 (tree clicker_pass)) = [5%Z; 3%Z] /\ ctr clicker_pass = 5%Z.
Proof. vm_compute. done. Qed.

(** ** Trees *)

Lemma sapp_cons x (a b : string) : (String x a ++ b = String x (a ++ b))%string.
Proof. reflexivity. Qed.

Lemma sapp_nil_l (a : string) : ("" ++ a = a)%string.
Proof. reflexivity. Qed.

Lemma sapp_assoc (a b c : string) : ((a ++ b) ++ c = a ++ (b ++ c))%string.
Proof.
  induction a as [|x a IH]; [done|]. rewrite !sapp_cons. by rewrite IH.
Qed.

Lemma sapp_nil_r (a : string) : (a ++ "" = a)%string.
Proof. induction a as [|x a IH]; [done|]. rewrite sapp_cons. by rewrite IH. Qed.

Lemma emit_attrs_HTML_app attrs : forall buf,
  emit_attrs_HTML attrs buf = (buf ++ attrs_html attrs)%string.
Proof.
  unfold emit_attrs_HTML, attrs_html.
  induction attrs as [|a attrs IH]; intros buf; simpl.
  - by rewrite sapp_nil_r.
  - rewrite IH. by rewrite ?sapp_assoc, ?sapp_cons, ?sapp_nil_l.
Qed.

Section TreeFacts.
Context {H : Type}.
Implicit Types (h : list (Node H)) (t : dom H) (fp : list nat).

Lemma html_of_unfold (nd : Node H) (kids : list (dom H)) :
  html_of (El nd kids)
    = (open_html nd ++ html_all kids ++ "</" ++ TagName nd ++ ">")%string.
Proof.
  reflexivity.
Qed.

Lemma load_all_agree (ld ld' : nat -> option (dom H * list nat)) cs ts fps :
  (forall c t fp, ld c = Some (t, fp) ->
     (forall q, q ∈ fp -> q ∈ fps) -> ld' c = Some (t, fp)) ->
  load_all ld cs = Some (ts, fps) -> load_all ld' cs = Some (ts, fps).
Proof.
  revert ts fps. induction cs as [|[c|] cs IH]; intros ts fps Hld Hl;
    simpl in *; [done| |done].
  destruct (ld c) as [[t fp]|] eqn:Hc; [|done].
  destruct (load_all ld cs) as [[ts' fps']|] eqn:Hcs; [|done].
  simplify_eq.
  rewrite (Hld c t fp Hc) by (intros q Hq; apply elem_of_app; by left).
  rewrite (IH ts' fps'); [done| |done].
  intros c' t' fp' Hc' Hin. apply Hld; [done|].
  intros q Hq. apply elem_of_app. right. by apply Hin.
Qed.

(** A tree is read from its own slots only. *)
Lemma load_agree fuel : forall h h' p t fp,
  load fuel h p = Some (t, fp) -> agree_on fp h h' ->
  load fuel h' p = Some (t, fp).
Proof.
  induction fuel as [|fuel IH]; intros h h' p t fp Hl Ha; [done|].
  cbn [load] in *. destruct (h !! p) as [nd|] eqn:Hp; [|done].
  destruct (load_all (load fuel h) (Children nd)) as [[ts fps]|] eqn:Hk; [|done].
  simplify_eq. rewrite (Ha p) by left. rewrite Hp.
  rewrite (load_all_agree (load fuel h) (load fuel h') _ ts fps); [done| |done].
  intros c t fp Hc Hin. eapply IH; [done|].
  intros q Hq. apply Ha. right. by apply Hin.
Qed.

Lemma agree_off_refl fp h : agree_off fp h h.
Proof. by split. Qed.

Lemma agree_off_trans fp1 fp2 h1 h2 h3 :
  agree_off fp1 h1 h2 -> agree_off fp2 h2 h3 -> agree_off (fp1 ++ fp2) h1 h3.
Proof.
  intros [Hl1 H1] [Hl2 H2]. split; [congruence|].
  intros q Hq. rewrite H2, H1; [done| |]; intros Hin; apply Hq, elem_of_app; auto.
Qed.

(** The loop of [serializeHTML] over the children of a node. *)
Lemma serializeHTML_children fuel h0 :
  (forall h p t fp buf,
     load fuel h p = Some (t, fp) -> NoDup fp -> unmarked fp h ->
     exists h',
       serializeHTML fuel (Some p) (h, buf) = Ok (h', (buf ++ html_of t)%string) /\
       agree_off fp h h') ->
  forall cs ts fps h1 buf,
    load_all (load fuel h0) cs = Some (ts, fps) ->
    agree_on fps h0 h1 -> NoDup fps -> unmarked fps h0 ->
    exists h2,
      foldM (serializeHTML fuel) cs (h1, buf)
        = Ok (h2, (buf ++ html_all ts)%string) /\
      agree_off fps h1 h2.
Proof.
  intros IH. induction cs as [|[c|] cs IHcs]; intros ts fps h1 buf Hl Ha Hnd Hun;
    simpl in Hl; [| |done].
  - simplify_eq. exists h1. simpl. rewrite sapp_nil_r. split; [done|].
    apply agree_off_refl.
  - destruct (load fuel h0 c) as [[t fp]|] eqn:Hc; [|done].
    destruct (load_all (load fuel h0) cs) as [[ts' fps']|] eqn:Hcs; [|done].
    simplify_eq. apply NoDup_app in Hnd as (Hnd1 & Hdisj & Hnd2).
    assert (load fuel h1 c = Some (t, fp)) as Hc1.
    { eapply load_agree; [done|]. intros q Hq. apply Ha, elem_of_app. by left. }
    destruct (IH h1 c t fp buf Hc1 Hnd1) as (h1' & Hs & [Hlen Hoff]).
    { intros q nd Hq Hnd. rewrite Ha in Hnd by (apply elem_of_app; by left).
      eapply Hun; [|done]. apply elem_of_app. by left. }
    destruct (IHcs ts' fps' h1' (buf ++ html_of t)%string eq_refl)
      as (h2 & Hf & Hoff2); [|done| |].
    { intros q Hq. rewrite Hoff by (intros Hin; by apply (Hdisj q)).
      apply Ha, elem_of_app. by right. }
    { intros q nd Hq. apply Hun, elem_of_app. by right. }
    exists h2. split.
    + cbn [foldM]. rewrite Hs. cbn [bind]. rewrite Hf.
      unfold html_all. cbn [map fold_right]. by rewrite sapp_assoc.
    + eapply agree_off_trans; [by split|done].
Qed.

Lemma serializeHTML_tree fuel : forall h p t fp buf,
  load fuel h p = Some (t, fp) -> NoDup fp -> unmarked fp h ->
  exists h',
    serializeHTML fuel (Some p) (h, buf) = Ok (h', (buf ++ html_of t)%string) /\
    agree_off fp h h'.
Proof.
  induction fuel as [|fuel IH]; intros h p t fp buf Hl Hnd Hun; [done|].
  pose proof Hl as Hl0. cbn [load] in Hl.
  destruct (h !! p) as [nd|] eqn:Hp; [|done].
  destruct (load_all (load fuel h) (Children nd)) as [[ts fps]|] eqn:Hk; [|done].
  simplify_eq. apply NoDup_cons in Hnd as [Hpfp Hnd].
  pose proof (lookup_lt_Some _ _ _ Hp) as Hlt.
  assert (visited nd = false) as Hv by (eapply Hun; [left|done]).
  destruct (serializeHTML_children fuel h IH (Children nd) ts fps
              (<[p := set_visited true nd]> h)
              (emit_attrs_HTML (Attrs nd)
                 (if (0 <? len (Classes nd))%Z
                  then (buf ++ "<" ++ TagName nd ++ " ") ++ "class="
                       ++ String (ascii_of_nat 34) "" ++ Classes nd
                       ++ String (ascii_of_nat 34) " "
                  else buf ++ "<" ++ TagName nd ++ " ") ++ ">"
               ++ Text nd)%string Hk)
    as (h2 & Hf & [Hlen2 Hoff2]); [|done| |].
  { intros q Hq. rewrite list_lookup_insert_ne; [done|]. by intros ->. }
  { intros q ndq Hq. apply Hun. by right. }
  exists h2. split.
  - cbn [serializeHTML fst snd]. rewrite Hp, Hv.
    replace (if negb (Text nd =? "")%string
             then _ else _)
      with ((emit_attrs_HTML (Attrs nd)
               (if (0 <? len (Classes nd))%Z
                then (buf ++ "<" ++ TagName nd ++ " ") ++ "class="
                     ++ String (ascii_of_nat 34) "" ++ Classes nd
                     ++ String (ascii_of_nat 34) " "
                else buf ++ "<" ++ TagName nd ++ " ") ++ ">") ++ Text nd)%string.
    2:{ destruct (String.eqb_spec (Text nd) "") as [->|_]; simpl;
          [by rewrite sapp_nil_r|done]. }
    rewrite sapp_assoc, Hf. cbn [bind fst snd]. do 2 f_equal.
    rewrite html_of_unfold. unfold open_html.
    rewrite emit_attrs_HTML_app.
    destruct (0 <? len (Classes nd))%Z;
      by rewrite ?sapp_assoc, ?sapp_cons, ?sapp_nil_l.
  - split; [by rewrite Hlen2, length_insert|].
    intros q Hq. rewrite Hoff2 by (intros Hin; apply Hq; by right).
    rewrite list_lookup_insert_ne; [done|]. intros ->. apply Hq. left.
Qed.

End TreeFacts.


Lemma emit_attrs_enc attrs : forall vm,
  emit_attrs attrs vm
    = vm ++ encode (map (fun a => mkInstr OpSetAttr [Name a; Value a]) attrs).
Proof.
  unfold emit_attrs. induction attrs as [|a attrs IH]; intros vm; simpl.
  - by rewrite app_nil_r.
  - by rewrite IH, AddInstr_enc, <- app_assoc.
Qed.

Lemma encode_one i : encode [i] = enc_instr i.
Proof. unfold encode. simpl. by rewrite app_nil_r. Qed.

Lemma encode_cons i l : encode (i :: l) = enc_instr i ++ encode l.
Proof. reflexivity. Qed.

Section ProgramFacts.
Context {H : Type}.
Implicit Types (s : sstate H) (h : list (Node H)) (t : dom H) (fp : list nat).

Lemma load_all_not_nil (ld : nat -> option (dom H * list nat)) cs ts fps :
  load_all ld cs = Some (ts, fps) -> Forall (fun c => c <> None) cs.
Proof.
  revert ts fps. induction cs as [|[c|] cs IH]; intros ts fps Hl; simpl in Hl;
    [constructor| |done].
  destruct (ld c) as [[t fp]|]; [|done].
  destruct (load_all ld cs) as [[ts' fps']|] eqn:Hcs; [|done].
  constructor; [done|]. by eapply IH.
Qed.

Lemma instrs_of_unfold (nd : Node H) (kids : list (dom H)) :
  instrs_of (El nd kids) =
    if String.eqb (TagName nd) "nothing" then instrs_all kids
    else
      mkInstr OpCreateElement [TagName nd]
      :: (if (0 <? len (Classes nd))%Z
          then [mkInstr OpSetClass [Classes nd]] else [])
      ++ map (fun a => mkInstr OpSetAttr [Name a; Value a]) (Attrs nd)
      ++ (if negb (String.eqb (Text nd) "")
          then [mkInstr OpAddText [Text nd]] else [])
      ++ instrs_all kids ++ [mkInstr OpNext []].
Proof.
  cbn [instrs_of].
  assert ((fix all (ks : list (dom H)) : list instr :=
             match ks with
             | [] => []
             | k :: ks' => instrs_of k ++ all ks'
             end) kids = instrs_all kids) as ->; [|done].
  unfold instrs_all. induction kids as [|k kids IH]; [done|].
  cbn [map concat]. by rewrite IH.
Qed.

Lemma plain_unfold (nd : Node H) (kids : list (dom H)) :
  plain (El nd kids) <->
  TagName nd <> "" /\ TagName nd <> "reuse" /\
  NEntity nd = 0%Z /\ hdl_Some (hdl nd) = false /\ Forall plain kids.
Proof.
  cbn [plain].
  assert ((fix all (ks : list (dom H)) : Prop :=
             match ks with
             | [] => True
             | k :: ks' => plain k /\ all ks'
             end) kids <-> Forall plain kids) as Hall.
  { induction kids as [|k kids IH]; [by split; [constructor|]|].
    rewrite Forall_cons. by rewrite IH. }
  by rewrite Hall.
Qed.

(** The loop of [serialize] over the children of a node. *)
Lemma serialize_children fuel h0 :
  (forall s p t fp,
     load fuel (heap s) p = Some (t, fp) -> NoDup fp ->
     unmarked fp (heap s) -> plain t ->
     exists s',
       serialize fuel (Some p) s = Ok s' /\
       vm s' = vm s ++ encode (instrs_of t) /\
       tree s' = tree s /\ ctr s' = ctr s /\
       agree_off fp (heap s) (heap s')) ->
  forall cs ts fps s1,
    load_all (load fuel h0) cs = Some (ts, fps) ->
    agree_on fps h0 (heap s1) -> NoDup fps -> unmarked fps h0 ->
    Forall plain ts ->
    exists s2,
      foldM (serialize fuel) cs s1 = Ok s2 /\
      vm s2 = vm s1 ++ encode (instrs_all ts) /\
      tree s2 = tree s1 /\ ctr s2 = ctr s1 /\
      agree_off fps (heap s1) (heap s2).
Proof.
  intros IH. induction cs as [|[c|] cs IHcs];
    intros ts fps s1 Hl Ha Hnd Hun Hpl; simpl in Hl; [| |done].
  - simplify_eq. exists s1. simpl. rewrite app_nil_r.
    do 4 (split; [done|]). apply agree_off_refl.
  - destruct (load fuel h0 c) as [[t fp]|] eqn:Hc; [|done].
    destruct (load_all (load fuel h0) cs) as [[ts' fps']|] eqn:Hcs; [|done].
    simplify_eq. apply NoDup_app in Hnd as (Hnd1 & Hdisj & Hnd2).
    apply Forall_cons in Hpl as [Hpt Hpl].
    assert (load fuel (heap s1) c = Some (t, fp)) as Hc1.
    { eapply load_agree; [done|]. intros q Hq. apply Ha, elem_of_app. by left. }
    destruct (IH s1 c t fp Hc1 Hnd1) as (s1' & Hs & Hvm & Ht & Hct & [Hlen Hoff]);
      [|done|].
    { intros q nd Hq Hnd. rewrite Ha in Hnd by (apply elem_of_app; by left).
      eapply Hun; [|done]. apply elem_of_app. by left. }
    destruct (IHcs ts' fps' s1' eq_refl)
      as (s2 & Hf & Hvm2 & Ht2 & Hct2 & Hoff2); [|done| |done|].
    { intros q Hq. rewrite Hoff by (intros Hin; by apply (Hdisj q)).
      apply Ha, elem_of_app. by right. }
    { intros q nd Hq. apply Hun, elem_of_app. by right. }
    exists s2. split; [|split; [|split; [congruence|split; [congruence|]]]].
    + cbn [foldM]. rewrite Hs. cbn [bind]. exact Hf.
    + rewrite Hvm2, Hvm. unfold instrs_all. cbn [map concat].
      fold (instrs_all ts'). change (concat (map instrs_of ts')) with (instrs_all ts').
      by rewrite encode_app, app_assoc.
    + eapply agree_off_trans; [by split|done].
Qed.

Lemma serialize_tree fuel : forall s p t fp,
  load fuel (heap s) p = Some (t, fp) -> NoDup fp ->
  unmarked fp (heap s) -> plain t ->
  exists s',
    serialize fuel (Some p) s = Ok s' /\
    vm s' = vm s ++ encode (instrs_of t) /\
    tree s' = tree s /\ ctr s' = ctr s /\
    agree_off fp (heap s) (heap s').
Proof.
  induction fuel as [|fuel IH]; intros s p t fp Hl Hnd Hun Hpl; [done|].
  cbn [load] in Hl.
  destruct (heap s !! p) as [nd|] eqn:Hp; [|done].
  destruct (load_all (load fuel (heap s)) (Children nd)) as [[ts fps]|] eqn:Hk;
    [|done].
  simplify_eq. apply NoDup_cons in Hnd as [Hpfp Hnd].
  apply plain_unfold in Hpl as (Hne & Hnr & He0 & Hh & Hkids).
  pose proof (lookup_lt_Some _ _ _ Hp) as Hlt.
  assert (visited nd = false) as Hv by (eapply Hun; [left|done]).
  set (nd1 := set_visited true nd).
  set (s1 := set_heap (<[p := nd1]> (heap s)) s).
  assert (agree_on fps (heap s) (heap s1)) as Ha1.
  { intros q Hq. cbn [heap s1 set_heap].
    rewrite list_lookup_insert_ne; [done|]. by intros ->. }
  assert (unmarked fps (heap s)) as Hun1.
  { intros q ndq Hq. apply Hun. by right. }
  rewrite instrs_of_unfold.
  cbn [serialize]. rewrite Hp, Hv. cbn [TagName set_visited Children old NEntity].
  fold nd1. fold s1.
  destruct (String.eqb_spec (TagName nd) "") as [|_]; [done|].
  destruct (String.eqb_spec (TagName nd) "nothing") as [Hn|Hn].
  - destruct (serialize_children fuel (heap s) IH (Children nd) ts fps s1 Hk)
      as (s2 & Hf & Hvm & Ht & Hc & [Hlen Hoff]); [done..|].
    exists s2. split; [|split; [done|split; [done|split; [done|]]]].
    + change (fun c s0 => do _ <~ assert (bool_decide (c <> None)) NilChild ;
                          serialize fuel c s0)
        with (checked (H := H) (serialize fuel)).
      apply foldM_checked_Ok. split; [by eapply load_all_not_nil|done].
    + split; [by rewrite Hlen; apply length_insert|].
      intros q Hq. rewrite Hoff by (intros Hin; apply Hq; by right).
      cbn [heap s1 set_heap]. rewrite list_lookup_insert_ne; [done|].
      intros ->. apply Hq. left.
  - destruct (String.eqb_spec (TagName nd) "reuse") as [|_]; [done|].
    assert (exists s2,
      open_element p nd1 s1 = Ok (s2, 0) /\ heap s2 = heap s1 /\
      tree s2 = tree s /\ ctr s2 = ctr s /\
      vm s2 = vm s ++ encode
        (mkInstr OpCreateElement [TagName nd]
         :: (if (0 <? len (Classes nd))%Z
             then [mkInstr OpSetClass [Classes nd]] else [])
         ++ map (fun a => mkInstr OpSetAttr [Name a; Value a]) (Attrs nd)
         ++ (if negb (String.eqb (Text nd) "")
             then [mkInstr OpAddText [Text nd]] else [])))
      as (s2 & Ho & Hh2 & Ht2 & Hc2 & Hvm2).
    { unfold open_element, nd1.
      cbn [NEntity set_visited hdl Classes TagName Attrs Text].
      rewrite He0, Hh. cbn [Z.eqb andb negb bind].
      cbn [NEntity set_visited hdl Classes TagName Attrs Text].
      rewrite He0. cbn [Z.eqb andb negb bind].
      eexists. split; [reflexivity|]. unfold s1.
      cbn [heap tree ctr vm set_vm set_heap].
      do 3 (split; [done|]).
      rewrite encode_cons, !encode_app, AddInstr_enc.
      destruct (0 <? len (Classes nd))%Z; destruct (negb _);
        rewrite ?AddInstr_enc, ?emit_attrs_enc, ?encode_one, <- ?app_assoc;
        cbn [encode map concat app]; rewrite ?app_nil_r; done. }
    rewrite Ho. cbn [bind].
    destruct (serialize_children fuel (heap s) IH (Children nd) ts fps s2 Hk)
      as (s3 & Hf & Hvm & Ht & Hc & [Hlen Hoff]); [by rewrite Hh2|done..|].
    rewrite Hf. cbn [bind].
    assert (heap s3 !! p = Some nd1) as Hp3.
    { rewrite Hoff by done. rewrite Hh2. cbn [heap s1 set_heap].
      by apply list_lookup_insert_eq. }
    unfold close_element. rewrite Hp3. unfold nd1. cbn [NEntity set_visited].
    rewrite He0. cbn [Z.eqb negb bind].
    eexists. split; [reflexivity|]. cbn [vm tree ctr heap set_vm].
    split; [|split; [congruence|split; [congruence|]]].
    + rewrite AddInstr_enc, Hvm, Hvm2, <- !app_assoc. f_equal.
      change (mkInstr OpCreateElement [TagName nd] :: ?l)
        with ([mkInstr OpCreateElement [TagName nd]] ++ l).
      rewrite !encode_app, ?encode_one, <- ?app_assoc. done.
    + split; [rewrite Hlen, Hh2; apply length_insert|].
      intros q Hq. rewrite Hoff by (intros Hin; apply Hq; by right).
      rewrite Hh2. cbn [heap s1 set_heap]. rewrite list_lookup_insert_ne; [done|].
      intros ->. apply Hq. left.
Qed.

End ProgramFacts.

(** X25. [ToHTML] on a tree none of whose nodes is shared or marked
    returns the markup of the tree: for each node, in preorder, the tag
    followed by a space, the class attribute when there are classes,
    the attributes one after the other, the text, the markup of the
    children and the closing tag; a "nothing" node is printed like any
    other. [serializeHTML] appends that markup to the buffer it is given,
    and no node outside the tree is written. *)
Theorem ToHTML_prints_the_tree {H : Type} fuel (h : list (Node H)) p t fp :
  load fuel h p = Some (t, fp) -> NoDup fp -> unmarked fp h ->
  (forall buf, exists h',
     serializeHTML fuel (Some p) (h, buf)
       = Ok (h', (buf ++ html_of t)%string) /\
     agree_off fp h h') /\
  exists h', ToHTML fuel (Some p) h = Ok (h', html_of t) /\ agree_off fp h h'.
Proof.
  intros Hl Hnd Hun. split.
  - intros buf. by apply serializeHTML_tree.
  - destruct (serializeHTML_tree fuel h p t fp "" Hl Hnd Hun) as (h' & Hs & Ha).
    exists h'. split; [|done]. unfold ToHTML. by rewrite Hs, sapp_nil_l.
Qed.

(** X26. [serialize] on a tree none of whose nodes is shared or marked,
    and whose nodes have no identity, no handler and a tag that is
    neither empty nor "reuse", appends to the program the instructions of
    the tree: for each node, in preorder, create-element, set-class when
    there are classes, one set-attribute for each attribute, add-text
    when there is a text, the instructions of the children and an
    advance; a "nothing" node contributes the instructions of its
    children only. The entity tree and the counter are left as they were
    and no node outside the tree is written. *)
Theorem plain_tree_program {H : Type} fuel (s : sstate H) p t fp :
  load fuel (heap s) p = Some (t, fp) -> NoDup fp ->
  unmarked fp (heap s) -> plain t ->
  exists s',
    serialize fuel (Some p) s = Ok s' /\
    vm s' = vm s ++ encode (instrs_of t) /\
    tree s' = tree s /\ ctr s' = ctr s /\
    agree_off fp (heap s) (heap s').
Proof. apply serialize_tree. Qed.

(** *** Instances *)

(** A [div] with a class, two attributes and a text, over a "nothing"
    node that holds a [button], and a [span]. *)
Definition page_pool : list (Node unit) :=
  [set_Attrs [mkAttr "id" "top"; mkAttr "lang" "en"]
     (SetText "hi"
        (AddClasses ["flex"]
           (AddChildren [Some 1; Some 3] (zeroNode "div"))));
   AddChildren [Some 2] (zeroNode "nothing");
   zeroNode "button";
   zeroNode "span"].

Definition page_tree : dom unit :=
  match load 3 page_pool 0 with
  | Some (t, _) => t
  | None => El (zeroNode "") []
  end.

Lemma page_unmarked : unmarked [0; 1; 2; 3] page_pool.
Proof.
  intros q nd Hq Hl.
  repeat (apply elem_of_cons in Hq as [->|Hq]; [by simplify_eq/=|]).
  by apply elem_of_nil in Hq.
Defined.

Lemma page_NoDup : NoDup [0; 1; 2; 3].
Proof. by apply (bool_decide_unpack _). Defined.

Lemma ToHTML_prints_the_tree_witness :
  (forall buf, exists h',
     serializeHTML 3 (Some 0) (page_pool, buf)
       = Ok (h', (buf ++ html_of page_tree)%string) /\
     agree_off [0; 1; 2; 3] page_pool h') /\
  exists h',
    ToHTML 3 (Some 0) page_pool = Ok (h', html_of page_tree) /\
    agree_off [0; 1; 2; 3] page_pool h'.
Proof.
  apply (ToHTML_prints_the_tree 3 page_pool 0 page_tree [0; 1; 2; 3]);
    [vm_compute; reflexivity|exact page_NoDup|exact page_unmarked].
Defined.

Example page_html :
  html_of page_tree =
    ("<div class=" ++ String (ascii_of_nat 34) "flex"
     ++ String (ascii_of_nat 34) " id=" ++ String (ascii_of_nat 34) "top"
     ++ String (ascii_of_nat 34) "lang=" ++ String (ascii_of_nat 34) "en"
     ++ String (ascii_of_nat 34)
          ">hi<nothing ><button ></button></nothing><span ></span></div>")%string.
Proof. vm_compute. reflexivity. Qed.

Lemma page_plain : plain page_tree.
Proof. vm_compute. repeat split; discriminate. Defined.

Lemma plain_tree_program_witness :
  exists s',
    serialize 3 (Some 0) (fresh_pass page_pool) = Ok s' /\
    vm s' = vm (fresh_pass page_pool) ++ encode (instrs_of page_tree) /\
    tree s' = tree (fresh_pass page_pool) /\
    ctr s' = ctr (fresh_pass page_pool) /\
    agree_off [0; 1; 2; 3] (heap (fresh_pass page_pool)) (heap s').
Proof.
  apply (plain_tree_program 3 (fresh_pass page_pool) 0 page_tree [0; 1; 2; 3]);
    [vm_compute; reflexivity|exact page_NoDup|exact page_unmarked
    |exact page_plain].
Defined.

Example page_instrs :
  instrs_of page_tree =
    [mkInstr OpCreateElement ["div"]; mkInstr OpSetClass ["flex"];
     mkInstr OpSetAttr ["id"; "top"]; mkInstr OpSetAttr ["lang"; "en"];
     mkInstr OpAddText ["hi"];
     mkInstr OpCreateElement ["button"]; mkInstr OpNext [];
     mkInstr OpCreateElement ["span"]; mkInstr OpNext [];
     mkInstr OpNext []].
Proof. vm_compute. reflexivity. Qed.

(** ** The analyzer of templates *)

Lemma tplLoop_app a : forall b cs ns,
  tplLoop (a ++ b) cs ns =
    match tplLoop a cs ns with
    | inl r => inl r
    | inr (cs', ns') => tplLoop b cs' ns'
    end.
Proof.
  induction a as [|tk a IH]; intros b cs ns; [done|].
  destruct tk as [raw|n|n|err|]; cbn [tplLoop List.app]; try done.
  - destruct (ContainsAny raw escapes); [done|apply IH].
  - destruct (last ns) as [top|]; [|done].
    destruct (negb (String.eqb top n)); [done|apply IH].
Qed.

Lemma tags_app a b : tags (a ++ b) = tags a ++ tags b.
Proof.
  induction a as [|tk a IH]; [done|].
  destruct tk; cbn [tags List.app]; by rewrite ?IH.
Qed.

Lemma starts_app a b : starts (a ++ b) = starts a + starts b.
Proof.
  induction a as [|tk a IH]; [done|].
  destruct tk; cbn [starts List.app]; by rewrite ?IH.
Qed.

Lemma starts_tags tks : starts (tags tks) = starts tks.
Proof.
  induction tks as [|tk tks IH]; [done|].
  destruct tk; cbn [starts tags]; by rewrite ?IH.
Qed.

Lemma readable_app a b : readable (a ++ b) <-> readable a /\ readable b.
Proof. apply Forall_app. Qed.

Lemma tplLoop_tags tks : forall cs ns,
  readable tks -> tplLoop tks cs ns = tplLoop (tags tks) cs ns.
Proof.
  induction tks as [|tk tks IH]; intros cs ns Hr; [done|].
  apply Forall_cons in Hr as [Htk Hr].
  destruct tk as [raw|n|n|err|]; cbn [tplLoop tags]; try done.
  - rewrite Htk. by apply IH.
  - by apply IH.
  - destruct (last ns) as [top|]; [|done].
    destruct (negb (String.eqb top n)); [done|]. by apply IH.
  - by apply IH.
Qed.

Lemma tplLoop_readable tks : forall cs ns x,
  tplLoop tks cs ns = inr x -> readable tks.
Proof.
  induction tks as [|tk tks IH]; intros cs ns x Hx; [constructor|].
  destruct tk as [raw|n|n|err|]; cbn [tplLoop] in Hx; try done.
  - destruct (ContainsAny raw escapes) eqn:Hc; [done|].
    constructor; [done|by eapply IH].
  - constructor; [done|by eapply IH].
  - destruct (last ns) as [top|]; [|done].
    destruct (negb (String.eqb top n)); [done|].
    constructor; [done|by eapply IH].
  - constructor; [done|by eapply IH].
Qed.

Lemma nested_app a b : nested a -> nested b -> nested (a ++ b).
Proof.
  intros Ha Hb. induction Ha as [|n a1 a2 Ha1 _ _ IH2]; [done|].
  cbn [List.app]. rewrite <- app_assoc. cbn [List.app]. by constructor.
Qed.

Lemma nested_starts d : nested d -> starts d = 0 -> d = [].
Proof. by intros [|n a b _ _]. Qed.

Lemma nested_tags d : nested d -> tags d = d.
Proof.
  induction 1 as [|n a b _ IHa _ IHb]; [done|].
  cbn [tags]. rewrite tags_app. cbn [tags]. by rewrite IHa, IHb.
Qed.

Lemma opens_tags ns t : opens ns t -> tags t = t.
Proof.
  induction 1 as [d Hd|d n ns rest Hd _ IH]; [by apply nested_tags|].
  rewrite tags_app. cbn [tags]. by rewrite IH, nested_tags.
Qed.

Lemma opens_starts ns t : opens ns t -> length ns <= starts t.
Proof.
  induction 1 as [d Hd|d n ns rest Hd _ IH]; [cbn; lia|].
  rewrite starts_app. cbn [starts length]. lia.
Qed.

Lemma opens_snoc_start ns t n :
  opens ns t -> opens (ns ++ [n]) (t ++ [StartTagToken n]).
Proof.
  induction 1 as [d Hd|d m ns rest Hd _ IH].
  - cbn [List.app]. apply opens_cons; [done|]. apply opens_nil, nested_nil.
  - rewrite <- app_assoc. cbn [List.app]. by apply opens_cons.
Qed.

Lemma opens_snoc_end ns : forall t n,
  opens (ns ++ [n]) t -> opens ns (t ++ [EndTagToken n]).
Proof.
  induction ns as [|m ns IH]; intros t n Ho.
  - cbn [List.app] in Ho. inversion Ho as [|d n' ns' rest Hd Hr]; subst.
    inversion Hr; subst. apply opens_nil.
    rewrite <- app_assoc. cbn [List.app]. apply nested_app; [done|].
    rewrite <- (app_nil_r (_ ++ [EndTagToken n])), <- app_assoc. cbn [List.app].
    constructor; [done|constructor].
  - cbn [List.app] in Ho. inversion Ho as [|d n' ns' rest Hd Hr]; subst.
    rewrite <- app_assoc. cbn [List.app]. apply opens_cons; [done|].
    by apply IH.
Qed.

Lemma last_removelast (ns : list string) top :
  last ns = Some top -> ns = removelast ns ++ [top].
Proof.
  intros Hl. destruct ns as [|x ns _] using rev_ind; [done|].
  rewrite last_snoc in Hl. simplify_eq. by rewrite removelast_last.
Qed.

(** The state at the end of the loop, from the empty stack. *)
Lemma tplLoop_opens tks : forall cs ns,
  tplLoop tks 0 [] = inr (cs, ns) ->
  readable tks /\ opens ns (tags tks) /\ cs = starts tks.
Proof.
  induction tks as [|tk tks IH] using rev_ind; intros cs ns Hx.
  - cbn in Hx. simplify_eq. split; [constructor|]. split; [|done].
    apply opens_nil, nested_nil.
  - rewrite tplLoop_app in Hx.
    destruct (tplLoop tks 0 []) as [r|[cs0 ns0]] eqn:Ht; [done|].
    destruct (IH cs0 ns0 eq_refl) as (Hr & Ho & ->).
    rewrite readable_app, tags_app, starts_app.
    destruct tk as [raw|n|n|err|]; cbn [tplLoop] in Hx; try done.
    + destruct (ContainsAny raw escapes) eqn:Hc; [done|]. simplify_eq.
      cbn [tags starts]. rewrite app_nil_r, Nat.add_0_r.
      split; [split; [done|by repeat constructor]|done].
    + simplify_eq. cbn [tags starts].
      split; [split; [done|by repeat constructor]|].
      split; [by apply opens_snoc_start|lia].
    + destruct (last ns0) as [top|] eqn:Hl; [|done].
      destruct (String.eqb_spec top n) as [->|]; [|done].
      cbn [negb] in Hx. simplify_eq. cbn [tags starts].
      split; [split; [done|by repeat constructor]|].
      split; [|lia]. apply opens_snoc_end.
      by rewrite <- last_removelast.
    + simplify_eq. cbn [tags starts]. rewrite app_nil_r, Nat.add_0_r.
      split; [split; [done|by repeat constructor]|done].
Qed.

Lemma tplLoop_nested d : nested d -> forall rest cs ns,
  tplLoop (d ++ rest) cs ns = tplLoop rest (starts d + cs) ns.
Proof.
  induction 1 as [|n a b _ IHa _ IHb]; intros rest cs ns; [done|].
  cbn [List.app tplLoop]. rewrite <- app_assoc. rewrite IHa.
  cbn [List.app tplLoop]. rewrite last_snoc, String.eqb_refl. cbn [negb].
  rewrite removelast_last, IHb. f_equal.
  cbn [starts]. rewrite starts_app. cbn [starts]. lia.
Qed.

Lemma tplLoop_of_opens ns' t : opens ns' t -> forall cs ns,
  tplLoop t cs ns = inr (starts t + cs, ns ++ ns').
Proof.
  induction 1 as [d Hd|d n ns' rest Hd _ IH]; intros cs ns.
  - rewrite <- (app_nil_r d) at 1. rewrite tplLoop_nested by done.
    cbn [tplLoop]. by rewrite app_nil_r.
  - rewrite tplLoop_nested by done. cbn [tplLoop]. rewrite IH.
    rewrite starts_app. cbn [starts]. rewrite <- app_assoc. cbn [List.app].
    do 2 f_equal. lia.
Qed.

Lemma tplLoop_spec tks cs ns :
  tplLoop tks 0 [] = inr (cs, ns) <->
  readable tks /\ opens ns (tags tks) /\ cs = starts tks.
Proof.
  split; [apply tplLoop_opens|]. intros (Hr & Ho & ->).
  rewrite tplLoop_tags by done. rewrite (tplLoop_of_opens _ _ Ho).
  by rewrite Nat.add_0_r, starts_tags.
Qed.

Lemma map_Unbalanced_nil (ns : list string) :
  map Unbalanced (rev ns) = [] -> ns = [].
Proof.
  intros Hm. apply (f_equal length) in Hm.
  rewrite length_map, length_rev in Hm. by destruct ns.
Qed.

(** X27. The analyzer reports nothing exactly on the templates whose
    texts hold none of the characters to escape, that give no read
    error, and whose tags are either nested, with one tag at least, or
    one start tag alone, which needs no closing. *)
Theorem wellformed_accepts_nested_templates tks :
  run_wellformed tks = [] <->
  readable tks /\
  ((nested (tags tks) /\ tags tks <> []) \/
   exists n, tags tks = [StartTagToken n]).
Proof.
  unfold run_wellformed. split.
  - destruct (tplLoop tks 0 []) as [r|[cs ns]] eqn:Ht; [done|].
    apply tplLoop_spec in Ht as (Hr & Ho & ->). intros Hrep.
    split; [done|].
    assert (ns = [] -> nested (tags tks) /\ tags tks <> []) as Hnil.
    { intros ->. inversion Ho; subst. split; [done|].
      intros Hn. rewrite <- starts_tags, Hn in Hrep. done. }
    destruct (starts tks) as [|[|k]] eqn:Hs; [done| |].
    + destruct ns as [|n ns]; [left; by apply Hnil|]. right. exists n.
      pose proof (opens_starts _ _ Ho) as Hlen.
      rewrite starts_tags, Hs in Hlen.
      destruct ns; [|cbn in Hlen; lia].
      inversion Ho as [|d n' ns' rest Hd Hrest Hn Heq]; subst.
      inversion Hrest as [d' Hd'|]; subst.
      rewrite <- starts_tags, <- Heq, starts_app in Hs. cbn [starts] in Hs.
      rewrite (nested_starts d Hd) by lia.
      rewrite (nested_starts rest Hd') by lia. done.
    + left. by apply Hnil, map_Unbalanced_nil.
  - intros (Hr & [[Hn Hne]|[n Hn]]).
    + assert (tplLoop tks 0 [] = inr (starts tks, [])) as ->.
      { apply tplLoop_spec. split; [done|]. split; [by apply opens_nil|done]. }
      destruct (starts tks) as [|[|k]] eqn:Hs; [|done..].
      rewrite <- starts_tags in Hs. by rewrite (nested_starts _ Hn Hs) in Hne.
    + assert (tplLoop tks 0 [] = inr (1, [n])) as ->; [|done].
      apply tplLoop_spec. split; [done|]. rewrite Hn. split.
      * apply (opens_cons [] n [] []); [constructor|].
        apply opens_nil. constructor.
      * by rewrite <- starts_tags, Hn.
Qed.

(** X28. On a template with two start tags or more that gives no other
    report, the analyzer reports each tag left open, once, the innermost
    first. *)
Theorem wellformed_reports_the_open_tags tks ns :
  readable tks -> opens ns (tags tks) -> 2 <= starts tks ->
  run_wellformed tks = map Unbalanced (rev ns).
Proof.
  intros Hr Ho Hs. unfold run_wellformed.
  assert (tplLoop tks 0 [] = inr (starts tks, ns)) as ->
    by by apply tplLoop_spec.
  destruct (starts tks) as [|[|k]]; [lia..|done].
Qed.

(** X29. The analyzer stops at the first token it objects to, with that
    one report, whatever follows: an end tag when no tag is open, an end
    tag whose name is not the one of the innermost open tag, a text that
    holds a character to escape, a read error. *)
Theorem wellformed_stops_at_the_first_objection pre ns post :
  readable pre -> opens ns (tags pre) ->
  (forall n, ns = [] ->
     run_wellformed (pre ++ EndTagToken n :: post) = [Extraneous n]) /\
  (forall n top, last ns = Some top -> top <> n ->
     run_wellformed (pre ++ EndTagToken n :: post) = [Unmatched n top]) /\
  (forall raw, ContainsAny raw escapes = true ->
     run_wellformed (pre ++ TextToken raw :: post) = [NoEscape]) /\
  (forall err,
     run_wellformed (pre ++ ErrorToken err :: post) = [ReadError err]).
Proof.
  intros Hr Ho.
  assert (tplLoop pre 0 [] = inr (starts pre, ns)) as Hpre
    by by apply tplLoop_spec.
  unfold run_wellformed. repeat split.
  - intros n ->. by rewrite tplLoop_app, Hpre.
  - intros n top Hl Hne. rewrite tplLoop_app, Hpre. cbn [tplLoop].
    rewrite Hl. by destruct (String.eqb_spec top n).
  - intros raw Hc. rewrite tplLoop_app, Hpre. cbn [tplLoop]. by rewrite Hc.
  - intros err. by rewrite tplLoop_app, Hpre.
Qed.

(** *** Instances *)

(** The tokens of [<div><p></p>]. *)
Definition open_div : list token :=
  [StartTagToken "div"; StartTagToken "p"; EndTagToken "p"].

(** The tokens of [<div><span>Content], before a [</div>]. *)
Definition open_span : list token :=
  [StartTagToken "div"; StartTagToken "span"; TextToken "Content"].

Lemma wellformed_reports_the_open_tags_witness :
  run_wellformed open_div = map Unbalanced (rev ["div"]).
Proof.
  apply (wellformed_reports_the_open_tags open_div ["div"]).
  - repeat constructor.
  - apply (opens_cons [] "div" [] [StartTagToken "p"; EndTagToken "p"]);
      [constructor|].
    apply opens_nil. apply (nested_cons "p" [] []); constructor.
  - cbn [starts open_div]. lia.
Defined.

Lemma wellformed_stops_at_the_first_objection_witness :
  let post := [EndTagToken "span"] in
  (forall n, ["div"; "span"] = [] ->
     run_wellformed (open_span ++ EndTagToken n :: post) = [Extraneous n]) /\
  (forall n top, last ["div"; "span"] = Some top -> top <> n ->
     run_wellformed (open_span ++ EndTagToken n :: post) = [Unmatched n top]) /\
  (forall raw, ContainsAny raw escapes = true ->
     run_wellformed (open_span ++ TextToken raw :: post) = [NoEscape]) /\
  (forall err,
     run_wellformed (open_span ++ ErrorToken err :: post) = [ReadError err]).
Proof.
  apply (wellformed_stops_at_the_first_objection open_span ["div"; "span"]).
  - repeat constructor.
  - apply (opens_cons [] "div" ["span"] [StartTagToken "span"]);
      [constructor|].
    apply (opens_cons [] "span" [] []); [constructor|].
    apply opens_nil. constructor.
Defined.

(** The templates of the analyzer's test data. *)
Example wellformed_test_data :
  run_wellformed open_div = [Unbalanced "div"] /\
  run_wellformed [StartTagToken "div"; StartTagToken "p"; EndTagToken "div"]
    = [Unmatched "div" "p"] /\
  run_wellformed [StartTagToken "div"; EndTagToken "div"; EndTagToken "div"]
    = [Extraneous "div"] /\
  run_wellformed (open_span ++ [EndTagToken "div"])
    = [Unmatched "div" "span"] /\
  run_wellformed [StartTagToken "div"; EndTagToken "span"; EndTagToken "div"]
    = [Unmatched "span" "div"].
Proof. vm_compute. repeat split. Qed.
